(** * CODAM 99: a shallow embedding of [tetris.py] and its checked properties

    The development has three parts.  Part I embeds the functions of
    [src/tetris.py] that the properties talk about: Python integers are [Z],
    Python lists are [list], the strings that name pieces and spins are
    [string], dictionaries used as maps are [gmap] (or association lists where
    the iteration order is visible), module-level globals are threaded
    explicitly.  Code that can raise or loop forever returns a [result].
    Part II states and proves the properties; Part III proves further
    properties of these functions and of the functions around them. *)

From Stdlib Require Import ZArith List Lia Bool Ascii String Permutation.
From stdpp Require Import base option list gmap strings sorting.

Local Open Scope Z_scope.

(* ===================================================================== *)
(** * Part I: the model                                                   *)
(* ===================================================================== *)

(** ** Outcomes of running Python code *)

Module Py.

(** A call either returns a value, raises an exception that is not handled
    inside the function ([IndexError], [KeyError], ...), or has not finished
    when its loop budget ran out. *)
Inductive result (A : Type) : Type :=
| Ret (a : A)
| Raise
| OutOfFuel.
Global Arguments Ret {A} a.
Global Arguments Raise {A}.
Global Arguments OutOfFuel {A}.

Global Instance result_ret : MRet result := λ A a, Ret a.
Global Instance result_bind : MBind result := λ A B f m,
  match m with
  | Ret a => f a
  | Raise => Raise
  | OutOfFuel => OutOfFuel
  end.
Global Instance result_fmap : FMap result := λ A B f m,
  match m with
  | Ret a => Ret (f a)
  | Raise => Raise
  | OutOfFuel => OutOfFuel
  end.

(** [d[k]] on something that may be missing: [None] becomes an exception. *)
Definition must {A} (o : option A) : result A :=
  match o with
  | Some a => Ret a
  | None => Raise
  end.

(** Truth value of a Python integer. *)
Definition truthy (v : Z) : bool := negb (v =? 0).

(** Python list indexing: [l[i]] counts from the end for [-len <= i < 0] and
    raises [IndexError] outside [-len <= i < len]. *)
Definition py_idx (len : nat) (i : Z) : option nat :=
  if 0 <=? i then
    (if i <? Z.of_nat len then Some (Z.to_nat i) else None)
  else
    (if - Z.of_nat len <=? i then Some (Z.to_nat (Z.of_nat len + i)) else None).

Definition py_get {A} (l : list A) (i : Z) : result A :=
  must (py_idx (length l) i ≫= λ n, l !! n).

(** [l[i] = v] *)
Definition py_set {A} (l : list A) (i : Z) (v : A) : result (list A) :=
  must ((λ n, <[n := v]> l) <$> py_idx (length l) i).

(** [range(n)] *)
Definition range (n : nat) : list Z := Z.of_nat <$> seq 0 n.

(** [while cond: body], run for at most [fuel] iterations. *)
Fixpoint while_loop {S : Type} (fuel : nat) (cond : S → result bool)
    (body : S → result S) (s : S) : result S :=
  match fuel with
  | O => OutOfFuel
  | Datatypes.S fuel' =>
      b ← cond s;
      if (b : bool) then s' ← body s; while_loop fuel' cond body s' else Ret s
  end.

(** A [for] loop whose body may [return]: [body i = Ret (Some a)] stands for
    [return a] inside the loop, [Ret None] for falling through to the next
    iteration. *)
Fixpoint for_return {I A : Type} (idxs : list I)
    (body : I → result (option A)) : result (option A) :=
  match idxs with
  | [] => Ret None
  | i :: rest =>
      o ← body i;
      match o with
      | Some a => Ret (Some a)
      | None => for_return rest body
      end
  end.

(** A [for] loop that updates an accumulator. *)
Fixpoint for_fold {I S : Type} (idxs : list I) (body : S → I → result S)
    (s : S) : result S :=
  match idxs with
  | [] => Ret s
  | i :: rest => s' ← body s i; for_fold rest body s'
  end.

(** [d.get(k, dflt)] on a dictionary literal. *)
Definition dict_get {K V} `{EqDecision K} (d : list (K * V)) (k : K) (dflt : V) : V :=
  default dflt (snd <$> find (λ kv, bool_decide (kv.1 = k)) d).

End Py.
Import Py.

(** ** tetris.py *)

Module Tetris.

(** *** Configuration (lines 14-40) *)

Definition WIDTH : Z := 10.
Definition HEIGHT : Z := 20.
Definition GARBAGE_BUFFER_PIECES : Z := 3.

Definition PIECE_NAMES : list string :=
  ["I"; "O"; "T"; "S"; "Z"; "J"; "L"]%string.

(** *** Attack calculator (lines 914-940) *)

Definition calculate_garbage (lines_cleared : Z) (spin_type : option string)
    (is_mini back_to_back is_perfect_clear : bool) : Z :=
  if lines_cleared =? 0 then 0
  else if is_perfect_clear then
    let pc_values := [(1, 10); (2, 10); (3, 10); (4, 10)] in
    dict_get pc_values lines_cleared 10
  else
    let base_garbage :=
      if bool_decide (spin_type = Some "T-SPIN"%string) then
        if is_mini then dict_get [(1, 0); (2, 1); (3, 2)] lines_cleared 0
        else dict_get [(1, 2); (2, 4); (3, 6)] lines_cleared 0
      else if bool_decide (spin_type ∈
                (Some <$> ["S-SPIN"; "Z-SPIN"; "I-SPIN"; "J-SPIN"; "L-SPIN"]%string)) then
        if is_mini then dict_get [(1, 0); (2, 1); (3, 2); (4, 4)] lines_cleared 0
        else dict_get [(1, 2); (2, 4); (3, 6); (4, 8)] lines_cleared 0
      else dict_get [(1, 0); (2, 1); (3, 2); (4, 4)] lines_cleared 0 in
    if back_to_back && (base_garbage >? 0) then base_garbage + 1
    else base_garbage.

(** *** Piece tables (lines 706-718) *)

(** Boards and shapes are lists of rows. *)
Abbreviation matrix := (list (list Z)).

(** [TETROMINOES] keeps the order in which the dictionary was written: that
    order is what [list(TETROMINOES.keys())] returns. *)
Definition TETROMINOES : list (string * matrix) :=
  [("I"%string, [[0;0;0;0]; [1;1;1;1]; [0;0;0;0]; [0;0;0;0]]);
   ("O"%string, [[1;1]; [1;1]]);
   ("T"%string, [[0;1;0]; [1;1;1]; [0;0;0]]);
   ("S"%string, [[0;1;1]; [1;1;0]; [0;0;0]]);
   ("Z"%string, [[1;1;0]; [0;1;1]; [0;0;0]]);
   ("J"%string, [[1;0;0]; [1;1;1]; [0;0;0]]);
   ("L"%string, [[0;0;1]; [1;1;1]; [0;0;0]])].

Definition COLORS : list (string * Z) :=
  [("I", 1); ("O", 2); ("T", 3); ("S", 4); ("Z", 5); ("J", 6); ("L", 7);
   ("garbage", 8)]%string.

(** [d[k]], raising [KeyError] on a missing key. *)
Definition dict_item {V} (d : list (string * V)) (k : string) : result V :=
  must (snd <$> find (λ kv, bool_decide (kv.1 = k)) d).

Definition dict_keys {V} (d : list (string * V)) : list string := fst <$> d.

(** *** Rotation (lines 722-732) *)

(** [zip] applied to the unpacked [rows]: the columns of [rows], cut at the
    shortest row. *)
Fixpoint zip_star_aux {A} (n : nat) (rows : list (list A)) : list (list A) :=
  match n with
  | O => []
  | S n' =>
      match mapM head rows with
      | Some col => col :: zip_star_aux n' (tail <$> rows)
      | None => []
      end
  end.

Definition zip_star {A} (rows : list (list A)) : list (list A) :=
  match rows with
  | [] => []
  | r :: _ => zip_star_aux (length r) rows
  end.

Definition rotate_matrix (shape : matrix) : matrix := zip_star (reverse shape).

Definition rotate_piece (shape : matrix) (times : Z) : matrix :=
  Nat.iter (Z.to_nat (times `mod` 4)) rotate_matrix shape.

(** *** Board (lines 734-752, 898-911, 943-948, 1065-1069) *)

Definition new_board : matrix :=
  replicate (Z.to_nat HEIGHT) (replicate (Z.to_nat WIDTH) 0).

(** One cell of the double loop of [collide]: [Some true] is [return True]. *)
Definition collide_cell (board shape : matrix) (x y r c : Z) : result (option bool) :=
  srow ← py_get shape r;
  v ← py_get srow c;
  if truthy v then
    let nx := x + c in
    let ny := y + r in
    if (nx <? 0) || (nx >=? WIDTH) || (ny >=? HEIGHT) then Ret (Some true)
    else if ny >=? 0 then
      brow ← py_get board ny;
      cell ← py_get brow nx;
      if truthy cell then Ret (Some true) else Ret None
    else Ret None
  else Ret None.

Definition collide (board shape : matrix) (x y : Z) : result bool :=
  o ← for_return (range (length shape)) (λ r,
         row0 ← py_get shape 0;
         for_return (range (length row0)) (λ c, collide_cell board shape x y r c));
  Ret (default false o).

(** One cell of the double loop of [lock]. The assignment
    [board[y+r][x+c] = color] reads the row [board[y+r]] and stores into it,
    so a negative [x+c] counts from the right end of the row. *)
Definition lock_cell (shape : matrix) (x y color : Z) (r c : Z)
    (board : matrix) : result matrix :=
  srow ← py_get shape r;
  v ← py_get srow c;
  if truthy v && (y + r >=? 0) then
    brow ← py_get board (y + r);
    brow' ← py_set brow (x + c) color;
    py_set board (y + r) brow'
  else Ret board.

Definition lock (board shape : matrix) (x y color : Z) : result matrix :=
  for_fold (range (length shape)) (λ b r,
    row0 ← py_get shape 0;
    for_fold (range (length row0)) (λ b' c, lock_cell shape x y color r c b') b)
  board.

(** [all(row)] *)
Definition all_truthy (row : list Z) : bool := forallb truthy row.

(** [clear_lines] returns the new board and the number of cleared rows. The
    loop [while len(new) < HEIGHT: new.insert(0, [0]*WIDTH)] puts
    [HEIGHT - len(new)] empty rows in front (none when that is negative). *)
Definition clear_lines (board : matrix) : matrix * Z :=
  let new := List.filter (λ row, negb (all_truthy row)) board in
  let cleared := HEIGHT - Z.of_nat (length new) in
  (replicate (Z.to_nat (HEIGHT - Z.of_nat (length new)))
     (replicate (Z.to_nat WIDTH) 0) ++ new, cleared).

(** [[8 if i != hole_pos else 0 for i in range(WIDTH)]] *)
Definition garbage_line (hole_pos : Z) : list Z :=
  (λ i, if bool_decide (i ≠ hole_pos) then 8 else 0) <$> range (Z.to_nat WIDTH).

(** [add_garbage]: [hole_at k] is the value that the [k]-th call of
    [random.randint(0, WIDTH - 1)] made by this call returns. *)
Definition add_garbage (hole_at : nat → Z) (board : matrix) (n : Z) : result matrix :=
  for_fold (seq 0 (Z.to_nat n)) (λ b k,
    match b with
    | [] => Raise
    | _ :: b' => Ret (b' ++ [garbage_line (hole_at k)])
    end) board.

Definition get_ghost_y (fuel : nat) (board shape : matrix) (x y : Z) : result Z :=
  while_loop fuel
    (λ ghost_y, negb <$> collide board shape x (ghost_y + 1))
    (λ ghost_y, Ret (ghost_y + 1))
    y.

(** *** Spin detection (lines 782-851) *)

Definition get_front_corners_for_t (rotation : Z) : list (Z * Z) :=
  let front_corners :=
    [(0, [(-1, -1); (1, -1)]);
     (1, [(1, -1); (1, 1)]);
     (2, [(-1, 1); (1, 1)]);
     (3, [(-1, -1); (-1, 1)])] in
  dict_get front_corners (rotation `mod` 4) [(-1, -1); (1, -1)].

Definition check_tspin (board : matrix) (x y rotation : Z) : result (bool * bool) :=
  let center_x := x + 1 in
  let center_y := y + 1 in
  let corner_positions := [(-1, -1); (1, -1); (-1, 1); (1, 1)] in
  st ← for_fold corner_positions (λ (st : Z * gmap (Z * Z) bool) d,
         let check_x := center_x + d.1 in
         let check_y := center_y + d.2 in
         is_filled ←
           (if (check_x <? 0) || (check_x >=? WIDTH) || (check_y >=? HEIGHT)
            then Ret true
            else if check_y >=? 0 then
              brow ← py_get board check_y;
              cell ← py_get brow check_x;
              Ret (truthy cell)
            else Ret false);
         Ret (if (is_filled : bool) then st.1 + 1 else st.1,
              <[d := is_filled]> st.2))
       (0, ∅);
  let corners_filled := st.1 in
  let corner_status := st.2 in
  if corners_filled <? 3 then Ret (false, false)
  else
    let front_corners := get_front_corners_for_t rotation in
    let front_filled :=
      Z.of_nat (length (List.filter (λ fc, default false (corner_status !! fc))
                          front_corners)) in
    let is_tspin := true in
    let is_mini := front_filled <? 2 in
    Ret (is_tspin, is_mini).

Definition check_spin (board shape : matrix) (x y : Z) (piece_name : string)
    (rotation kick_idx : Z) (rotation_direction : option string)
    : result (option string * bool) :=
  if bool_decide (piece_name = "O"%string) then Ret (None, false)
  else if bool_decide (piece_name = "T"%string) then
    '(is_tspin, is_mini) ← check_tspin board x y rotation;
    if (is_tspin : bool) then
      let is_mini := if kick_idx =? 4 then false else is_mini in
      Ret (Some "T-SPIN"%string, is_mini)
    else Ret (None, false)
  else if kick_idx =? 0 then Ret (None, false)
  else if bool_decide (piece_name = "S"%string) then Ret (Some "S-SPIN"%string, true)
  else if bool_decide (piece_name = "Z"%string) then Ret (Some "Z-SPIN"%string, true)
  else if bool_decide (piece_name = "I"%string) then Ret (Some "I-SPIN"%string, true)
  else if bool_decide (piece_name = "J"%string) then Ret (Some "J-SPIN"%string, true)
  else if bool_decide (piece_name = "L"%string) then Ret (Some "L-SPIN"%string, true)
  else Ret (None, false).

(** The classification step of a lock in [main] (lines 1550-1557). *)
Definition classify_lock (board shape : matrix) (x y : Z) (current_piece_name : string)
    (current_rotation last_rotation_kick : Z) (last_rotation_direction : option string)
    (last_action_was_rotation : bool) : result (option string * bool) :=
  if last_action_was_rotation then
    check_spin board shape x y current_piece_name current_rotation
      last_rotation_kick last_rotation_direction
  else Ret (None, false).

(** *** Garbage queue (lines 951-995) *)

(** A queue entry is the three-element list [[amount, buffer, sender]]. *)
Record entry : Type := Entry {
  e_lines : Z;
  e_buffer : Z;
  e_sender : string
}.

(** [queue_garbage]; the message posted for the renderer is left out. *)
Definition queue_garbage (amount : Z) (sender : string)
    (garbage_queue : list entry) : list entry :=
  if amount <=? 0 then garbage_queue
  else garbage_queue ++ [Entry amount GARBAGE_BUFFER_PIECES sender].

(** The [while remaining > 0 and garbage_queue] loop of
    [reduce_garbage_queue]: every iteration looks at the first entry, and
    the branch that shrinks it sets [remaining] to 0, which ends the loop. *)
Fixpoint reduce_loop (remaining : Z) (garbage_queue : list entry) : Z * list entry :=
  match garbage_queue with
  | [] => (remaining, [])
  | e :: rest =>
      if remaining >? 0 then
        if e_lines e <=? remaining then reduce_loop (remaining - e_lines e) rest
        else (0, Entry (e_lines e - remaining) (e_buffer e) (e_sender e) :: rest)
      else (remaining, garbage_queue)
  end.

Definition reduce_garbage_queue (lines_cleared : Z) (garbage_queue : list entry)
    : list entry :=
  if (lines_cleared <=? 0) || bool_decide (garbage_queue = []) then garbage_queue
  else
    (λ e, Entry (e_lines e) (e_buffer e + lines_cleared) (e_sender e))
      <$> (reduce_loop lines_cleared garbage_queue).2.

(** *** Incoming garbage (lines 438-459) *)

(** The two keys of a remote state that [process_incoming_garbage] reads,
    each possibly absent ([state.get(key, default)]). *)
Record peer_state : Type := PeerState {
  ps_is_dead : option bool;
  ps_cumulative_garbage : option Z
}.

(** One iteration of the loop of [process_incoming_garbage], on the list
    built so far and the global [_received_garbage_from]. *)
Definition incoming_step (acc : list (Z * string) * gmap string Z)
    (item : string * peer_state) : list (Z * string) * gmap string Z :=
  let '(garbage_list, ledger) := acc in
  let '(player, state) := item in
  if default false (ps_is_dead state) then acc
  else
    let cumulative := default 0 (ps_cumulative_garbage state) in
    let last_received := default 0 (ledger !! player) in
    if cumulative >? last_received then
      let new_garbage := cumulative - last_received in
      (garbage_list ++ [(new_garbage, player)], <[player := cumulative]> ledger)
    else acc.

(** [remote_states] is a dictionary; its items are visited in insertion
    order, so it is kept as the list of its items. [ledger] is the global
    [_received_garbage_from]. The result is the returned list and the
    updated global. *)
Definition process_incoming_garbage (remote_states : list (string * peer_state))
    (ledger : gmap string Z) : list (Z * string) * gmap string Z :=
  fold_left incoming_step remote_states ([], ledger).

(** The read step of the main loop (lines 1627-1629): the returned amounts
    are queued one by one. The state is the ledger and the garbage queue. *)
Definition read_garbage (remote_states : list (string * peer_state))
    (st : gmap string Z * list entry) : gmap string Z * list entry :=
  let '(garbage_list, ledger) := process_incoming_garbage remote_states st.1 in
  (ledger, fold_left (λ q (g : Z * string), queue_garbage g.1 g.2 q) garbage_list st.2).

(** *** Pieces in play (lines 1352-1425 and 1493-1519) *)

(** The part of the local variables of [main] that spawning and holding
    touch. [refills] counts the calls of [refill_bag] made so far; the lock
    delay timestamp, a wall-clock time, is left out. *)
Record game : Type := Game {
  piece_bag : list string;
  refills : nat;
  current_piece_name : string;
  current_rotation : Z;
  shape : matrix;
  next_piece_name : string;
  next_shape : matrix;
  held_shape : option matrix;
  held_piece_name : option string;
  can_hold : bool;
  current_color : Z;
  x : Z;
  y : Z;
  lock_delay_resets : Z;
  last_rotation_kick : Z;
  last_rotation_direction : option string;
  last_action_was_rotation : bool
}.

Section random_source.

(** [shuffle k l] is the order in which the [k]-th call of [random.shuffle]
    leaves the list [l]. *)
Variable shuffle : nat → list string → list string.

Definition refill_bag (k : nat) : list string := shuffle k (dict_keys TETROMINOES).

(** [if not piece_bag: piece_bag.extend(refill_bag())] on the bag and the
    count of refills. *)
Definition refill_if_empty (bag : list string * nat) : list string * nat :=
  match bag.1 with
  | [] => (refill_bag bag.2, S bag.2)
  | _ => bag
  end.

(** [piece_bag.pop(0)] *)
Definition pop_front (bag : list string * nat) : result (string * (list string * nat)) :=
  match bag.1 with
  | [] => Raise
  | n :: rest => Ret (n, (rest, bag.2))
  end.

(** The loop [while not any(shape[0]): shape = shape[1:] + [shape[0]]; y -= 1]. *)
Definition skip_empty_rows (fuel : nat) (shape : matrix) (y : Z) : result (matrix * Z) :=
  while_loop fuel
    (λ st, row0 ← py_get st.1 0; Ret (negb (existsb truthy row0)))
    (λ st, row0 ← py_get st.1 0; Ret (tail st.1 ++ [row0], st.2 - 1))
    (shape, y).

(** The start of [main], lines 1357-1394. *)
Definition main_init (fuel : nat) : result game :=
  let bag := (refill_bag 0, 1%nat) in
  '(current_piece_name, bag) ← pop_front bag;
  let current_rotation := 0 in
  shape ← dict_item TETROMINOES current_piece_name;
  let bag := refill_if_empty bag in
  next_piece_name ← py_get bag.1 0;
  next_shape ← dict_item TETROMINOES next_piece_name;
  current_color ← dict_item COLORS current_piece_name;
  row0 ← py_get shape 0;
  let x := WIDTH `div` 2 - Z.of_nat (length row0) `div` 2 in
  let y := 0 in
  '(shape, y) ← skip_empty_rows fuel shape y;
  let y := -1 in
  Ret (Game bag.1 bag.2 current_piece_name current_rotation shape
         next_piece_name next_shape None None true current_color x y
         0 0 None false).

(** [spawn_new_piece], lines 1396-1425; the boolean is its return value. *)
Definition spawn_new_piece (board : matrix) (g : game) : result (game * bool) :=
  let bag := refill_if_empty (piece_bag g, refills g) in
  '(current_piece_name, bag) ← pop_front bag;
  let current_rotation := 0 in
  shape ← dict_item TETROMINOES current_piece_name;
  let bag := refill_if_empty bag in
  next_piece_name ← py_get bag.1 0;
  next_shape ← dict_item TETROMINOES next_piece_name;
  current_color ← dict_item COLORS current_piece_name;
  row0 ← py_get shape 0;
  let x := WIDTH `div` 2 - Z.of_nat (length row0) `div` 2 in
  let y := -1 in
  let g' := Game bag.1 bag.2 current_piece_name current_rotation shape
              next_piece_name next_shape (held_shape g) (held_piece_name g)
              true current_color x y 0 0 None false in
  hit ← collide board shape x (y + 1);
  Ret (g', negb hit).

(** The hold key, lines 1493-1519. *)
Definition main_hold (g : game) : result game :=
  if can_hold g then
    g1 ←
      match held_shape g, held_piece_name g with
      | None, _ =>
          held_shape' ← dict_item TETROMINOES (current_piece_name g);
          let held_piece_name' := current_piece_name g in
          let bag := refill_if_empty (piece_bag g, refills g) in
          '(current_piece_name, bag) ← pop_front bag;
          shape ← dict_item TETROMINOES current_piece_name;
          let bag := refill_if_empty bag in
          next_piece_name ← py_get bag.1 0;
          next_shape ← dict_item TETROMINOES next_piece_name;
          Ret (Game bag.1 bag.2 current_piece_name 0 shape
                 next_piece_name next_shape (Some held_shape') (Some held_piece_name')
                 (can_hold g) (current_color g) (x g) (y g) (lock_delay_resets g)
                 (last_rotation_kick g) (last_rotation_direction g)
                 (last_action_was_rotation g))
      | Some _, None => Raise
      | Some _, Some held =>
          shape ← dict_item TETROMINOES held;
          held_shape' ← dict_item TETROMINOES (current_piece_name g);
          Ret (Game (piece_bag g) (refills g) held 0 shape
                 (next_piece_name g) (next_shape g) (Some held_shape')
                 (Some (current_piece_name g))
                 (can_hold g) (current_color g) (x g) (y g) (lock_delay_resets g)
                 (last_rotation_kick g) (last_rotation_direction g)
                 (last_action_was_rotation g))
      end;
    current_color ← dict_item COLORS (current_piece_name g1);
    row0 ← py_get (shape g1) 0;
    let x := WIDTH `div` 2 - Z.of_nat (length row0) `div` 2 in
    let y := -1 in
    Ret (Game (piece_bag g1) (refills g1) (current_piece_name g1)
           (current_rotation g1) (shape g1) (next_piece_name g1) (next_shape g1)
           (held_shape g1) (held_piece_name g1) false current_color x y 0 0 None false)
  else Ret g.

(** The two events of a game that put a piece into play: a lock followed
    by [spawn_new_piece] on the board as it is then, and the hold key. *)
Inductive event : Type :=
| Spawn (board : matrix)
| Hold.

Definition play (ev : event) (g : game) : result game :=
  match ev with
  | Spawn board => fst <$> spawn_new_piece board g
  | Hold => main_hold g
  end.

(** Whether the event takes a piece from the front of the bag. *)
Definition draws (ev : event) (g : game) : bool :=
  match ev with
  | Spawn _ => true
  | Hold => can_hold g && bool_decide (held_shape g = None)
  end.

(** The names of the pieces taken from the bag while the events run. *)
Fixpoint spawned (evs : list event) (g : game) : result (list string) :=
  match evs with
  | [] => Ret []
  | ev :: evs' =>
      g' ← play ev g;
      rest ← spawned evs' g';
      Ret (if draws ev g then current_piece_name g' :: rest else rest)
  end.

End random_source.

(** *** State codec (lines 195-273) *)

(** [range(width - 1, -1, -1)], most significant bit first. *)
Definition bits_of (width : nat) (v : Z) : list Z :=
  (λ i, Z.land (Z.shiftr v i) 1) <$> reverse (range width).

(** [l.index(v)] for a [v] that occurs in [l]. *)
Fixpoint index_of (l : list string) (v : string) : Z :=
  match l with
  | [] => 0
  | a :: l' => if bool_decide (a = v) then 0 else 1 + index_of l' v
  end.

Definition encode_bits (board : matrix) (piece_name : string)
    (rotation piece_x piece_y : Z) : list Z :=
  let bits :=
    flat_map (λ row,
      flat_map (λ cell,
        let cell_val := Z.min 15 (Z.max 0 cell) in
        bits_of 4 cell_val) row) board in
  let piece_idx :=
    if bool_decide (piece_name ∈ PIECE_NAMES) then index_of PIECE_NAMES piece_name
    else 0 in
  let bits := bits ++ bits_of 3 piece_idx in
  let rot := rotation `mod` 4 in
  let bits := bits ++ [Z.land (Z.shiftr rot 1) 1] in
  let bits := bits ++ [Z.land rot 1] in
  let x_enc := Z.max 0 (Z.min 31 (piece_x + 4)) in
  let bits := bits ++ bits_of 5 x_enc in
  let y_enc := Z.max 0 (Z.min 31 (piece_y + 4)) in
  bits ++ bits_of 5 y_enc.

(** One byte of the packing loop: bits [i .. i+7], missing ones left 0.
    The guard [i + j < len(bits)] keeps the index in range. *)
Definition pack_byte (bits : list Z) (i : Z) : Z :=
  fold_left (λ byte_val j,
    if i + j <? Z.of_nat (length bits)
    then Z.lor byte_val (Z.shiftl (default 0 (bits !! Z.to_nat (i + j))) (7 - j))
    else byte_val) (range 8) 0.

(** [range(0, n, 8)] *)
Definition range_by_8 (n : nat) : list Z :=
  (λ k, 8 * k) <$> range (Nat.div (n + 7) 8).

Definition pack_bits (bits : list Z) : list Z :=
  pack_byte bits <$> range_by_8 (length bits).

(** [for byte_val in byte_array: for j in range(8): ...] *)
Definition unpack_bits (byte_array : list Z) : list Z :=
  flat_map (λ byte_val, (λ j, Z.land (Z.shiftr byte_val (7 - j)) 1) <$> range 8)
    byte_array.

(** *** Rotation with wall kicks (lines 670-704, 725-726, 854-895) *)

Definition rotate_matrix_ccw (shape : matrix) : matrix := reverse (zip_star shape).

Definition SRS_KICKS_JLSTZ : list ((Z * Z) * list (Z * Z)) :=
  [((0, 1), [(0, 0); (-1, 0); (-1, -1); (0, 2); (-1, 2)]);
   ((1, 0), [(0, 0); (1, 0); (1, 1); (0, -2); (1, -2)]);
   ((1, 2), [(0, 0); (1, 0); (1, 1); (0, -2); (1, -2)]);
   ((2, 1), [(0, 0); (-1, 0); (-1, -1); (0, 2); (-1, 2)]);
   ((2, 3), [(0, 0); (1, 0); (1, -1); (0, 2); (1, 2)]);
   ((3, 2), [(0, 0); (-1, 0); (-1, 1); (0, -2); (-1, -2)]);
   ((3, 0), [(0, 0); (-1, 0); (-1, 1); (0, -2); (-1, -2)]);
   ((0, 3), [(0, 0); (1, 0); (1, -1); (0, 2); (1, 2)])].

Definition SRS_KICKS_I : list ((Z * Z) * list (Z * Z)) :=
  [((0, 1), [(0, 0); (-2, 0); (1, 0); (-2, -1); (1, 2)]);
   ((1, 0), [(0, 0); (2, 0); (-1, 0); (2, 1); (-1, -2)]);
   ((1, 2), [(0, 0); (-1, 0); (2, 0); (-1, 2); (2, -1)]);
   ((2, 1), [(0, 0); (1, 0); (-2, 0); (1, -2); (-2, 1)]);
   ((2, 3), [(0, 0); (2, 0); (-1, 0); (2, 1); (-1, -2)]);
   ((3, 2), [(0, 0); (-2, 0); (1, 0); (-2, -1); (1, 2)]);
   ((3, 0), [(0, 0); (1, 0); (-2, 0); (1, -2); (-2, 1)]);
   ((0, 3), [(0, 0); (-1, 0); (2, 0); (-1, 2); (2, -1)])].

Definition SRS_KICKS_180_JLSTZ : list ((Z * Z) * list (Z * Z)) :=
  [((0, 2), [(0, 0); (0, 1); (1, 1); (-1, 1); (1, 0); (-1, 0)]);
   ((2, 0), [(0, 0); (0, -1); (-1, -1); (1, -1); (-1, 0); (1, 0)]);
   ((1, 3), [(0, 0); (-1, 0); (-1, 1); (-1, -1); (0, 1); (0, -1)]);
   ((3, 1), [(0, 0); (1, 0); (1, -1); (1, 1); (0, -1); (0, 1)])].

Definition SRS_KICKS_180_I : list ((Z * Z) * list (Z * Z)) :=
  [((0, 2), [(0, 0); (0, 1)]);
   ((2, 0), [(0, 0); (0, -1)]);
   ((1, 3), [(0, 0); (-1, 0)]);
   ((3, 1), [(0, 0); (1, 0)])].

(** What a successful rotation returns: the tuple
    [(new_shape, new_x, new_y, new_rotation, i)]. *)
Record rotation : Type := Rotation {
  r_shape : matrix;
  r_x : Z;
  r_y : Z;
  r_rotation : Z;
  r_kick : Z
}.

(** [enumerate(l)] *)
Definition enumerate {A} (l : list A) : list (Z * A) := zip (range (length l)) l.

(** The loop [for i, (kick_x, kick_y) in enumerate(kicks)] that both
    rotation functions end with; [None] is the final [return None]. *)
Definition try_kicks (board new_shape : matrix) (x y new_rotation : Z)
    (kicks : list (Z * Z)) : result (option rotation) :=
  for_return (enumerate kicks) (λ ik,
    let new_x := x + ik.2.1 in
    let new_y := y + ik.2.2 in
    hit ← collide board new_shape new_x new_y;
    if negb hit then Ret (Some (Rotation new_shape new_x new_y new_rotation ik.1))
    else Ret None).

Definition try_rotation (board shape : matrix) (x y : Z) (piece_name : string)
    (current_rotation : Z) (clockwise : bool) : result (option rotation) :=
  if bool_decide (piece_name = "O"%string) then Ret None
  else
    let new_rotation := (current_rotation + (if clockwise then 1 else 3)) `mod` 4 in
    let new_shape := if clockwise then rotate_matrix shape else rotate_matrix_ccw shape in
    let kick_table :=
      if bool_decide (piece_name = "I"%string) then SRS_KICKS_I else SRS_KICKS_JLSTZ in
    let kick_key := (current_rotation, new_rotation) in
    let kicks := dict_get kick_table kick_key [(0, 0)] in
    try_kicks board new_shape x y new_rotation kicks.

Definition try_rotation_180 (board shape : matrix) (x y : Z) (piece_name : string)
    (current_rotation : Z) : result (option rotation) :=
  if bool_decide (piece_name = "O"%string) then Ret None
  else
    let new_rotation := (current_rotation + 2) `mod` 4 in
    let new_shape := rotate_matrix (rotate_matrix shape) in
    let kick_table :=
      if bool_decide (piece_name = "I"%string) then SRS_KICKS_180_I
      else SRS_KICKS_180_JLSTZ in
    let kick_key := (current_rotation, new_rotation) in
    let kicks := dict_get kick_table kick_key [(0, 0)] in
    try_kicks board new_shape x y new_rotation kicks.

(** *** Further board and spin functions (lines 754-779, 906-911) *)

(** [get_piece_bounds] returns [(min_r, max_r, min_c, max_c)]. *)
Definition get_piece_bounds (shape : matrix) : result (Z * Z * Z * Z) :=
  row0 ← py_get shape 0;
  for_fold (range (length shape)) (λ st r,
    row0 ← py_get shape 0;
    for_fold (range (length row0)) (λ (st : Z * Z * Z * Z) c,
      let '(min_r, max_r, min_c, max_c) := st in
      srow ← py_get shape r;
      v ← py_get srow c;
      if truthy v then
        Ret (Z.min min_r r, Z.max max_r r, Z.min min_c c, Z.max max_c c)
      else Ret st) st)
  (Z.of_nat (length shape), 0, Z.of_nat (length row0), 0).

Definition count_corners_filled (board : matrix) (center_x center_y : Z) : result Z :=
  for_fold [(-1, -1); (1, -1); (-1, 1); (1, 1)] (λ corners_filled (d : Z * Z),
    let check_x := center_x + d.1 in
    let check_y := center_y + d.2 in
    if (check_x <? 0) || (check_x >=? WIDTH) || (check_y >=? HEIGHT)
    then Ret (corners_filled + 1)
    else if check_y <? 0 then Ret corners_filled
    else
      brow ← py_get board check_y;
      cell ← py_get brow check_x;
      if truthy cell then Ret (corners_filled + 1) else Ret corners_filled) 0.

Definition check_perfect_clear (board : matrix) : bool :=
  forallb (forallb (λ cell, negb (truthy cell))) board.

(** The scoring of a lock in [main] (lines 1563-1573), on the board after
    [clear_lines]: the base garbage and the new back-to-back flag. *)
Definition score_lock (board : matrix) (cleared : Z) (spin_type : option string)
    (is_mini back_to_back : bool) : Z * bool :=
  let is_perfect := if cleared >? 0 then check_perfect_clear board else false in
  let is_difficult :=
    (cleared =? 4) || (bool_decide (spin_type ≠ None) && (cleared >? 0)) in
  let base_garbage :=
    calculate_garbage cleared spin_type is_mini (back_to_back && is_difficult)
      is_perfect in
  (base_garbage, if cleared >? 0 then is_difficult else back_to_back).

(** *** Garbage queue, continued (lines 961-979) *)

Definition process_garbage_queue_on_placement (garbage_queue : list entry) : list entry :=
  (λ e, Entry (e_lines e) (e_buffer e - 1) (e_sender e)) <$> garbage_queue.

(** [apply_ready_garbage] returns the board, the new value of the global
    [garbage_queue] and [total_to_apply]. *)
Definition apply_ready_garbage (hole_at : nat → Z) (board : matrix)
    (garbage_queue : list entry) : result (matrix * list entry * Z) :=
  let '(total_to_apply, new_queue) :=
    fold_left (λ (acc : Z * list entry) e,
      if e_buffer e <=? 0 then (acc.1 + e_lines e, acc.2)
      else (acc.1, acc.2 ++ [e])) garbage_queue (0, []) in
  board' ← (if total_to_apply >? 0 then add_garbage hole_at board total_to_apply
            else Ret board);
  Ret (board', new_queue, total_to_apply).

(** *** Deaths (lines 462-477) *)

(** [process_deaths] on the global [_known_dead_players]; the message for
    the renderer, the only use of [current_ko_count], is left out. The
    result is the number of new KOs and the updated global. *)
Definition process_deaths (remote_states : list (string * peer_state))
    (known_dead_players : gset string) : Z * gset string :=
  fold_left (λ (acc : Z * gset string) (item : string * peer_state),
    if default false (ps_is_dead item.2) && bool_decide (item.1 ∉ acc.2)
    then (acc.1 + 1, {[item.1]} ∪ acc.2)
    else acc) remote_states (0, known_dead_players).

(** *** The view of remote players (lines 512-554) *)

Record view : Type := View {
  left_idx : Z;
  right_idx : Z;
  player_list : list string
}.

(** [RemotePlayerView()] *)
Definition view_init : view := View 0 1 [].

(** [sorted(keys)] on strings: by character codes. *)
Definition sorted (keys : list string) : list string :=
  merge_sort (λ a b, Is_true (String.leb a b)) keys.

Definition view_update (states : list (string * peer_state)) (v : view) : view :=
  let alive_players :=
    List.filter (λ kv : string * peer_state, negb (default false (ps_is_dead kv.2)))
      states in
  let player_list := sorted (fst <$> alive_players) in
  let n := Z.of_nat (length player_list) in
  if n =? 0 then View 0 1 player_list
  else
    let left_idx := left_idx v `mod` n in
    let right_idx := if n >? 1 then right_idx v `mod` n else left_idx in
    let right_idx :=
      if (n >? 1) && (left_idx =? right_idx) then (left_idx + 1) `mod` n
      else right_idx in
    View left_idx right_idx player_list.

Definition cycle_left (direction : Z) (v : view) : view :=
  let n := Z.of_nat (length (player_list v)) in
  if n >? 0 then
    let left_idx := (left_idx v + direction) `mod` n in
    let left_idx :=
      if (n >? 1) && (left_idx =? right_idx v) then (left_idx + direction) `mod` n
      else left_idx in
    View left_idx (right_idx v) (player_list v)
  else v.

Definition cycle_right (direction : Z) (v : view) : view :=
  let n := Z.of_nat (length (player_list v)) in
  if n >? 0 then
    let right_idx := (right_idx v + direction) `mod` n in
    let right_idx :=
      if (n >? 1) && (right_idx =? left_idx v) then (right_idx + direction) `mod` n
      else right_idx in
    View (left_idx v) right_idx (player_list v)
  else v.

Definition get_left_player (v : view) : result (option string) :=
  if negb (bool_decide (player_list v = []))
     && (left_idx v <? Z.of_nat (length (player_list v)))
  then Some <$> py_get (player_list v) (left_idx v)
  else Ret None.

Definition get_right_player (v : view) : result (option string) :=
  if negb (bool_decide (player_list v = []))
     && (right_idx v <? Z.of_nat (length (player_list v)))
  then Some <$> py_get (player_list v) (right_idx v)
  else Ret None.

(** *** State file names (lines 276-279, 326-331, 362-380) *)

(** [s.split(sep, maxsplit)] for a separator of one character: [cur] is
    the piece being read. *)
Fixpoint split_from (sep : ascii) (maxsplit : nat) (cur s : list ascii)
    : list (list ascii) :=
  match s with
  | [] => [cur]
  | ch :: s' =>
      match maxsplit with
      | O => [cur ++ s]
      | S m =>
          if bool_decide (ch = sep) then cur :: split_from sep m [] s'
          else split_from sep maxsplit (cur ++ [ch]) s'
      end
  end.

Definition split (sep : ascii) (maxsplit : nat) (s : list ascii) : list (list ascii) :=
  split_from sep maxsplit [] s.






(** The end of a lock in [main] (lines 1607-1608). *)
Definition place_garbage (hole_at : nat → Z) (board : matrix)
    (garbage_queue : list entry) : result (matrix * list entry * Z) :=
  apply_ready_garbage hole_at board (process_garbage_queue_on_placement garbage_queue).

(** [get_alive_player_count] (lines 1196-1198) *)
Definition get_alive_player_count (remote_states : list (string * peer_state)) : Z :=
  Z.of_nat (length (List.filter (λ kv : string * peer_state,
                                   negb (default false (ps_is_dead kv.2)))
                      remote_states)).

End Tetris.

(** ** The Python standard library: [base64]

    [base64.urlsafe_b64encode] and [base64.urlsafe_b64decode] as CPython
    implements them: the standard alphabet followed by a translation of
    [+] and [/] to [-] and [_], and, for decoding, the lenient parser of
    [binascii.a2b_base64] that skips characters outside the alphabet. *)

Module Base64.

Definition alphabet : list ascii :=
  list_ascii_of_string
    "ABCDEFGHIJKLMNOPQRSTUVWXYZabcdefghijklmnopqrstuvwxyz0123456789+/".

Definition b2a (n : Z) : ascii := nth (Z.to_nat n) alphabet "A"%char.

(** Position of a character in the alphabet. *)
Fixpoint a2b_from (l : list ascii) (k : Z) (ch : ascii) : option Z :=
  match l with
  | [] => None
  | a :: l' => if bool_decide (a = ch) then Some k else a2b_from l' (k + 1) ch
  end.

Definition a2b (ch : ascii) : option Z := a2b_from alphabet 0 ch.

Fixpoint b64encode (s : list Z) : list ascii :=
  match s with
  | [] => []
  | [a] =>
      [b2a (Z.shiftr a 2); b2a (Z.shiftl (Z.land a 3) 4); "="%char; "="%char]
  | [a; b] =>
      [b2a (Z.shiftr a 2);
       b2a (Z.lor (Z.shiftl (Z.land a 3) 4) (Z.shiftr b 4));
       b2a (Z.shiftl (Z.land b 15) 2); "="%char]
  | a :: b :: c :: rest =>
      b2a (Z.shiftr a 2)
      :: b2a (Z.lor (Z.shiftl (Z.land a 3) 4) (Z.shiftr b 4))
      :: b2a (Z.lor (Z.shiftl (Z.land b 15) 2) (Z.shiftr c 6))
      :: b2a (Z.land c 63)
      :: b64encode rest
  end.

Definition urlsafe_encode_translation (ch : ascii) : ascii :=
  if bool_decide (ch = "+"%char) then "-"%char
  else if bool_decide (ch = "/"%char) then "_"%char else ch.

Definition urlsafe_decode_translation (ch : ascii) : ascii :=
  if bool_decide (ch = "-"%char) then "+"%char
  else if bool_decide (ch = "_"%char) then "/"%char else ch.

Definition urlsafe_b64encode (s : list Z) : list ascii :=
  urlsafe_encode_translation <$> b64encode s.

(** The loop of [binascii.a2b_base64] without strict mode. [None] is
    [binascii.Error]. A pad character that completes a quad ends the parse;
    other pad characters and characters outside the alphabet are skipped. *)
Fixpoint a2b_base64 (data : list ascii) (quad_pos leftchar pads : Z)
    (out : list Z) : option (list Z) :=
  match data with
  | [] => if quad_pos =? 0 then Some out else None
  | this_ch :: data' =>
      if bool_decide (this_ch = "="%char) then
        if quad_pos >=? 2 then
          if quad_pos + (pads + 1) >=? 4 then Some out
          else a2b_base64 data' quad_pos leftchar (pads + 1) out
        else a2b_base64 data' quad_pos leftchar pads out
      else
        match a2b this_ch with
        | None => a2b_base64 data' quad_pos leftchar pads out
        | Some v =>
            if quad_pos =? 0 then a2b_base64 data' 1 v 0 out
            else if quad_pos =? 1 then
              a2b_base64 data' 2 (Z.land v 15) 0
                (out ++ [Z.lor (Z.shiftl leftchar 2) (Z.shiftr v 4)])
            else if quad_pos =? 2 then
              a2b_base64 data' 3 (Z.land v 3) 0
                (out ++ [Z.lor (Z.shiftl leftchar 4) (Z.shiftr v 2)])
            else
              a2b_base64 data' 0 0 0 (out ++ [Z.lor (Z.shiftl leftchar 6) v])
        end
  end.

(** [None]: the [ValueError] for a character that is not ASCII, or
    [binascii.Error]. *)
Definition urlsafe_b64decode (s : list ascii) : option (list Z) :=
  if forallb (λ ch, (nat_of_ascii ch <? 128)%nat) s then
    a2b_base64 (urlsafe_decode_translation <$> s) 0 0 0 []
  else None.

Fixpoint drop_while {A} (f : A → bool) (l : list A) : list A :=
  match l with
  | [] => []
  | a :: l' => if f a then drop_while f l' else l
  end.

(** [s.rstrip('=')] *)
Definition rstrip_pad (s : list ascii) : list ascii :=
  reverse (drop_while (λ ch, bool_decide (ch = "="%char)) (reverse s)).

End Base64.

Module Codec.
Import Tetris.

Definition encode_game_state (board : matrix) (piece_name : string)
    (rotation piece_x piece_y : Z) : list ascii :=
  let bits := encode_bits board piece_name rotation piece_x piece_y in
  let byte_array := pack_bits bits in
  Base64.rstrip_pad (Base64.urlsafe_b64encode byte_array).

(** The dictionary that [decode_game_state] returns. *)
Record decoded : Type := Decoded {
  d_board : matrix;
  d_piece_name : string;
  d_rotation : Z;
  d_piece_x : Z;
  d_piece_y : Z;
  d_shape : matrix;
  d_color : Z
}.

(** [for i in range(n): acc = (acc << 1) | bits[bit_idx + i]] *)
Definition read_bits (bits : list Z) (bit_idx : Z) (n : nat) : result Z :=
  for_fold (range n) (λ acc i,
    b ← py_get bits (bit_idx + i);
    Ret (Z.lor (Z.shiftl acc 1) b)) 0.

Definition decode_row (bits : list Z) (bit_idx : Z) : result (list Z * Z) :=
  for_fold (range (Z.to_nat WIDTH)) (λ (st : list Z * Z) c,
    cell_val ← read_bits bits st.2 4;
    Ret (st.1 ++ [cell_val], st.2 + 4)) ([], bit_idx).

Definition decode_board (bits : list Z) : result (matrix * Z) :=
  for_fold (range (Z.to_nat HEIGHT)) (λ (st : matrix * Z) r,
    '(row, bit_idx) ← decode_row bits st.2;
    Ret (st.1 ++ [row], bit_idx)) ([], 0).

(** The inner [None] is the value [None] that the function returns for an
    undecodable or short payload. *)
Definition decode_game_state (encoded : list ascii) : result (option decoded) :=
  let padding := (4 - Z.of_nat (length encoded) `mod` 4) `mod` 4 in
  let padded := encoded ++ replicate (Z.to_nat padding) "="%char in
  match Base64.urlsafe_b64decode padded with
  | None => Ret None
  | Some byte_array =>
      let bits := unpack_bits byte_array in
      if Z.of_nat (length bits) <? 815 then Ret None
      else
        '(board, bit_idx) ← decode_board bits;
        b0 ← py_get bits bit_idx;
        b1 ← py_get bits (bit_idx + 1);
        b2 ← py_get bits (bit_idx + 2);
        let piece_idx := Z.lor (Z.lor (Z.shiftl b0 2) (Z.shiftl b1 1)) b2 in
        let bit_idx := bit_idx + 3 in
        piece_name ←
          (if piece_idx <? Z.of_nat (length PIECE_NAMES)
           then py_get PIECE_NAMES piece_idx else Ret "I"%string);
        r0 ← py_get bits bit_idx;
        r1 ← py_get bits (bit_idx + 1);
        let rotation := Z.lor (Z.shiftl r0 1) r1 in
        let bit_idx := bit_idx + 2 in
        x_enc ← read_bits bits bit_idx 5;
        let piece_x := x_enc - 4 in
        let bit_idx := bit_idx + 5 in
        y_enc ← read_bits bits bit_idx 5;
        let piece_y := y_enc - 4 in
        shape ← dict_item TETROMINOES piece_name;
        let shape := rotate_piece shape rotation in
        let color := dict_get COLORS piece_name 7 in
        Ret (Some (Decoded board piece_name rotation piece_x piece_y shape color))
  end.

End Codec.

(** ** Vocabulary of the properties *)

Module Props.
Import Tetris.

(** A board has [HEIGHT] rows of [WIDTH] cells. *)
Definition board_dims (b : matrix) : Prop :=
  length b = Z.to_nat HEIGHT ∧ Forall (λ row, length row = Z.to_nat WIDTH) b.

Definition cells_in_range (b : matrix) : Prop :=
  Forall (Forall (λ v, 0 ≤ v ≤ 8)) b.

Definition board_ok (b : matrix) : Prop := board_dims b ∧ cells_in_range b.

(** A shape matrix: every row is as long as the first one. *)
Definition rectangular (s : matrix) : Prop :=
  Forall (λ row, length row = length (default [] (head s))) s.

Definition has_filled_cell (s : matrix) : Prop :=
  ∃ row v, row ∈ s ∧ v ∈ row ∧ v ≠ 0.

Definition all_empty (s : matrix) : Prop :=
  Forall (Forall (λ v, v = 0)) s.

(** The cell in row [r], column [c], for indices inside the matrix. *)
Definition cell_at (m : matrix) (r c : Z) : Z :=
  default 0 (m !! Z.to_nat r ≫= λ row, row !! Z.to_nat c).

(** A position is blocked when it lies beyond a side wall or the floor, or
    on an occupied cell of the board; positions above the board are free. *)
Definition blocked (board : matrix) (nx ny : Z) : bool :=
  (nx <? 0) || (nx >=? WIDTH) || (ny >=? HEIGHT)
  || ((ny >=? 0) && truthy (cell_at board ny nx)).

(** Some filled cell of the shape, placed at [(x, y)], is blocked. *)
Definition overlaps (board s : matrix) (x y : Z) : bool :=
  existsb (λ r,
    existsb (λ c, truthy (cell_at s r c) && blocked board (x + c) (y + r))
      (range (length (default [] (head s)))))
    (range (length s)).

(** The operations on the board, with what the game guarantees when it
    applies them: a lock happens at a position where the piece does not
    collide, with the colour of a piece or of garbage. *)
Inductive board_op : Type :=
| OpLock (s : matrix) (x y color : Z)
| OpClear
| OpGarbage (hole_at : nat → Z) (n : Z).

Definition apply_op (op : board_op) (b : matrix) : result matrix :=
  match op with
  | OpLock s x y color => lock b s x y color
  | OpClear => Ret (clear_lines b).1
  | OpGarbage hole_at n => add_garbage hole_at b n
  end.

Definition op_allowed (op : board_op) (b : matrix) : Prop :=
  match op with
  | OpLock s x y color => collide b s x y = Ret false ∧ 1 ≤ color ≤ 8
  | OpClear => True
  | OpGarbage _ n => 0 ≤ n
  end.

Inductive reachable : matrix → Prop :=
| reachable_new : reachable new_board
| reachable_step b op b' :
    reachable b → op_allowed op b → apply_op op b = Ret b' → reachable b'.

(** The T-spin rule in the words of the specification. The corners of the
    3x3 box of a T piece at [(x, y)] are at offsets [(±1, ±1)] of its centre
    [(x + 1, y + 1)]. *)
Definition corner_filled (board : matrix) (x y : Z) (d : Z * Z) : bool :=
  let px := x + 1 + d.1 in
  let py := y + 1 + d.2 in
  (px <? 0) || (px >=? WIDTH) || (py >=? HEIGHT)
  || ((py >=? 0) && truthy (cell_at board py px)).

Definition corners_filled (board : matrix) (x y : Z) : Z :=
  Z.of_nat (length (List.filter (corner_filled board x y)
                      [(-1, -1); (1, -1); (-1, 1); (1, 1)])).

(** Rotation 0 points up (front: top-left, top-right), 1 right (top-right,
    bottom-right), 2 down (bottom-left, bottom-right), 3 left (top-left,
    bottom-left). *)
Definition front_pair (rotation : Z) : (Z * Z) * (Z * Z) :=
  if rotation =? 0 then ((-1, -1), (1, -1))
  else if rotation =? 1 then ((1, -1), (1, 1))
  else if rotation =? 2 then ((-1, 1), (1, 1))
  else ((-1, -1), (-1, 1)).

Definition both_front_filled (board : matrix) (x y rotation : Z) : bool :=
  corner_filled board x y (front_pair rotation).1
  && corner_filled board x y (front_pair rotation).2.

(** Cancellation in the words of the specification. [cancels n q q'] says
    that subtracting [n] lines from the front of the queue [q] leaves [q']:
    whole entries of at most the remaining amount are removed, the first
    larger entry is shrunk, and the subtraction stops when the amount is
    used up or the queue is empty. *)
Inductive cancels : Z → list entry → list entry → Prop :=
| cancels_exhausted q : cancels 0 q q
| cancels_empty n : cancels n [] []
| cancels_whole n e q q' :
    0 < n → e_lines e ≤ n → cancels (n - e_lines e) q q' → cancels n (e :: q) q'
| cancels_shrink n e q :
    0 < n → n < e_lines e →
    cancels n (e :: q) (Entry (e_lines e - n) (e_buffer e) (e_sender e) :: q).

(** [buffer_pieces] extended by [n]. *)
Definition extend_buffer (n : Z) (e : entry) : entry :=
  Entry (e_lines e) (e_buffer e + n) (e_sender e).

(** The ledger value for a peer; a peer never seen counts as 0. *)
Definition ledger_value (ledger : gmap string Z) (p : string) : Z :=
  default 0 (ledger !! p).

(** Lines in a garbage queue that were sent by [p]. *)
Definition lines_from (p : string) (q : list entry) : Z :=
  foldr (λ e acc, if bool_decide (e_sender e = p) then e_lines e + acc else acc) 0 q.

(** Lines in a returned garbage list that are attributed to [p]. *)
Definition credited (p : string) (garbage_list : list (Z * string)) : Z :=
  foldr (λ (g : Z * string) acc, if bool_decide (g.2 = p) then g.1 + acc else acc)
    0 garbage_list.

(** A scan (a [remote_states] dictionary) in which the peer [p] is alive
    with cumulative counter [c]. A dictionary has each key once. *)
Definition observes (p : string) (c : Z) (scan : list (string * peer_state)) : Prop :=
  NoDup (fst <$> scan)
  ∧ ∃ st, (p, st) ∈ scan
          ∧ default false (ps_is_dead st) = false
          ∧ default 0 (ps_cumulative_garbage st) = c.

(** The read step of the main loop, once per scan. *)
Definition read_all (scans : list (list (string * peer_state)))
    (st : gmap string Z * list entry) : gmap string Z * list entry :=
  fold_left (λ st scan, read_garbage scan st) scans st.

(** Counters that never decrease along the sequence. *)
Definition non_decreasing (cs : list Z) : Prop :=
  ∀ i j a b, (i ≤ j)%nat → cs !! i = Some a → cs !! j = Some b → a ≤ b.

(** The random source honours the contract of [random.shuffle]: the list
    is left in some order of its own elements. *)
Definition shuffles (shuffle : nat → list string → list string) : Prop :=
  ∀ k l, shuffle k l ≡ₚ l.

(** Width of a shape matrix: the length of its first row. *)
Definition shape_width (s : matrix) : Z :=
  Z.of_nat (length (default [] (head s))).

(** What the game keeps true of the pieces in play. *)
Definition game_ok (g : game) : Prop :=
  piece_bag g ≠ []
  ∧ Forall (λ n, n ∈ PIECE_NAMES) (piece_bag g)
  ∧ current_piece_name g ∈ PIECE_NAMES
  ∧ match held_shape g, held_piece_name g with
    | None, _ => True
    | Some _, Some h => h ∈ PIECE_NAMES
    | Some _, None => False
    end.

(** Where the code puts a piece that enters play. *)
Definition placed (g : game) : Prop :=
  x g = WIDTH `div` 2 - shape_width (shape g) `div` 2
  ∧ x g = (if bool_decide (current_piece_name g = "I"%string) then 3 else 4)
  ∧ y g = -1.

(** The spawn column in the words of the specification. *)
Definition centred (g : game) : Prop :=
  x g = (WIDTH - shape_width (shape g)) `div` 2 ∧ y g = -1.

(** [n] consecutive elements of a sequence, from position [i]. *)
Definition window {A} (i n : nat) (l : list A) : list A := take n (drop i l).

Definition event_ok (ev : event) : Prop :=
  match ev with
  | Spawn board => board_dims board
  | Hold => True
  end.

(** The pieces drawn so far, followed by the bag, are the first [k] bags
    that [refill_bag] produced, in order. *)
Definition bag_inv (shuffle : nat → list string → list string)
    (drawn bag : list string) (k : nat) : Prop :=
  drawn ++ bag = concat (refill_bag shuffle <$> seq 0 k).

(** Bits and bytes of the wire format. *)
Definition bit (b : Z) : Prop := b = 0 ∨ b = 1.

Definition byte (v : Z) : Prop := 0 ≤ v < 256.

(** The bit at a position, 0 beyond the end. *)
Definition bit_at (bits : list Z) (m : nat) : Z := default 0 (bits !! m).

(** The states that the codec is specified for: a board of 20 rows of 10
    cells with values 0..8, one of the seven piece names, rotation 0..3 and
    both coordinates in -4..27. *)
Definition codec_input (board : matrix) (name : string) (rotation x y : Z) : Prop :=
  board_ok board ∧ name ∈ PIECE_NAMES ∧ 0 ≤ rotation ≤ 3
  ∧ -4 ≤ x ≤ 27 ∧ -4 ≤ y ≤ 27.

(** *** Vocabulary for the further properties *)

Import Codec.

(** The number of rows of the board that are full. *)
Definition full_rows (board : matrix) : Z :=
  Z.of_nat (length (List.filter all_truthy board)).

(** A board with a piece resting on a full bottom row. *)
Definition board_with_full_row : matrix :=
  <[19%nat := [1; 2; 3; 4; 5; 6; 7; 1; 2; 3]]>
    (<[18%nat := [0; 0; 0; 0; 0; 3; 0; 0; 0; 0]]> new_board).

(** The spin names of the pieces other than T and O. *)
Definition all_spin_name (piece_name : string) : string := piece_name +:+ "-SPIN".

(** The rows that [add_garbage] appends for [n] lines. *)
Definition garbage_rows (hole_at : nat → Z) (n : nat) : matrix :=
  (λ k, garbage_line (hole_at k)) <$> seq 0 n.

(** The lines held in a garbage queue. *)
Definition total_lines (q : list entry) : Z :=
  foldr (λ e acc, e_lines e + acc) 0 q.

(** [k] locks in a row that clear nothing, seen from the garbage queue:
    [holes j] gives the holes for the [j]-th of them. *)
Fixpoint placements (holes : nat → nat → Z) (k : nat) (board : matrix)
    (q : list entry) : result (matrix * list entry) :=
  match k with
  | O => Ret (board, q)
  | S k' =>
      st ← placements holes k' board q;
      r ← place_garbage (holes k') st.1 st.2;
      Ret (r.1.1, r.1.2)
  end.

(** A queue entry after [k] locks. *)
Definition age (k : Z) (e : entry) : entry :=
  Entry (e_lines e) (e_buffer e - k) (e_sender e).

(** The peers that a [remote_states] dictionary shows dead. *)
Definition dead_peers (remote_states : list (string * peer_state)) : gset string :=
  list_to_set
    (fst <$> List.filter (λ kv : string * peer_state, default false (ps_is_dead kv.2))
               remote_states).

(** The peers that a [remote_states] dictionary shows alive. *)
Definition alive_peers (remote_states : list (string * peer_state)) : list string :=
  fst <$> List.filter (λ kv : string * peer_state,
                         negb (default false (ps_is_dead kv.2))) remote_states.

(** What the view keeps true of its two indices: both point into the list
    of players when there is one, at different players when there are
    two. *)
Definition view_ok (v : view) : Prop :=
  let n := Z.of_nat (length (player_list v)) in
  (1 ≤ n → 0 ≤ left_idx v < n ∧ 0 ≤ right_idx v < n)
  ∧ (2 ≤ n → left_idx v ≠ right_idx v).


(** A matrix of [h] rows of [w] cells. *)
Definition shape_dims (h w : nat) (m : matrix) : Prop :=
  length m = h ∧ Forall (λ row, length row = w) m.

(** The cell in row [i], column [j], if there is one. *)
Definition cell (m : matrix) (i j : nat) : option Z := m !! i ≫= (.!! j).

(** A list of wall kicks that starts with no kick at all and moves the
    piece by at most [bound] columns and rows. *)
Definition kicks_within (bound : Z) (kicks : list (Z * Z)) : Prop :=
  head kicks = Some (0, 0)
  ∧ Forall (λ k, -bound ≤ k.1 ≤ bound ∧ -bound ≤ k.2 ≤ bound) kicks.

(** Some filled cell of the shape, placed at [(x, y)], lies on row [R],
    column [C]. *)
Definition covers (s : matrix) (x y R C : Z) : bool :=
  existsb (λ r,
    existsb (λ c, truthy (cell_at s r c) && (y + r =? R) && (x + c =? C))
      (range (length (default [] (head s)))))
    (range (length s)).

(** What every decoded state satisfies: a board of 20 rows of 10 cells
    with values of 4 bits, a piece name of the game, a rotation of 2 bits
    and coordinates of 5 bits shifted by 4, the shape of that piece in
    that rotation and its colour. *)
Definition decoded_ok (d : decoded) : Prop :=
  board_dims (d_board d)
  ∧ Forall (Forall (λ v, 0 ≤ v ≤ 15)) (d_board d)
  ∧ d_piece_name d ∈ PIECE_NAMES
  ∧ 0 ≤ d_rotation d ≤ 3
  ∧ -4 ≤ d_piece_x d ≤ 27 ∧ -4 ≤ d_piece_y d ≤ 27
  ∧ (∃ base, dict_item TETROMINOES (d_piece_name d) = Ret base
             ∧ d_shape d = rotate_piece base (d_rotation d))
  ∧ dict_item COLORS (d_piece_name d) = Ret (d_color d).

(** The cell of row [r], column [c] of the shape is filled. *)
Definition filled_at (s : matrix) (r c : Z) : Prop :=
  r ∈ range (length s) ∧ c ∈ range (length (default [] (head s)))
  ∧ truthy (cell_at s r c) = true.

(** A character that a payload may hold: a letter, a digit, [-] or [_]. *)
Definition payload_char (ch : ascii) : bool :=
  let n := nat_of_ascii ch in
  ((65 <=? n) && (n <=? 90) || (97 <=? n) && (n <=? 122) || (48 <=? n) && (n <=? 57)
   || (n =? 45) || (n =? 95))%nat.

(** The preview shows the piece at the front of the bag. *)
Definition preview_ok (g : game) : Prop :=
  head (piece_bag g) = Some (next_piece_name g)
  ∧ dict_item TETROMINOES (next_piece_name g) = Ret (next_shape g).

(** A game in which an O piece is in play, the hold slot is empty and the
    bag holds a T and an S. *)
Definition example_game : game :=
  Game ["T"; "S"]%string 1 "O" 0 [[1; 1]; [1; 1]] "T"
    [[0; 1; 0]; [1; 1; 1]; [0; 0; 0]] None None true 2 4 (-1) 0 0 None false.

End Props.

Import Tetris Codec Props.

(* ===================================================================== *)
(** * Part II: properties                                                 *)
(* ===================================================================== *)

Example calculate_garbage_tetris : calculate_garbage 4 None false false false = 4.
Proof. reflexivity. Qed.

Example calculate_garbage_b2b_tetris : calculate_garbage 4 None false true false = 5.
Proof. reflexivity. Qed.

(** ** Attack calculator *)

Section attack.

Lemma calculate_garbage_perfect n st mini b2b :
  n ≠ 0 → 1 ≤ n ≤ 4 → calculate_garbage n st mini b2b true = 10.
Proof.
  intros Hn Hr. unfold calculate_garbage.
  destruct (n =? 0) eqn:E; [lia|].
  assert (n = 1 ∨ n = 2 ∨ n = 3 ∨ n = 4) as [->|[->|[->| ->]]] by lia; reflexivity.
Qed.

Lemma calculate_garbage_b2b_step n st mini :
  n ≠ 0 →
  calculate_garbage n st mini false false > 0 →
  calculate_garbage n st mini true false = calculate_garbage n st mini false false + 1.
Proof.
  intros Hn. unfold calculate_garbage.
  destruct (n =? 0) eqn:E; [lia|]. cbv zeta.
  rewrite andb_false_l, andb_true_l.
  intros Hpos. destruct (_ >? 0) eqn:E'; [done|lia].
Qed.

(** C1, as stated, fails: a perfect clear returns 10 before the back-to-back
    bonus is looked at, so the count with [back_to_back = true] equals the
    count with [back_to_back = false]. Here one line is cleared without a
    spin and the board is empty afterwards: both counts are 10. *)
Lemma C1_perfect_clear_ignores_b2b :
  ¬ (∀ n st mini pc, 1 ≤ n ≤ 4 →
       calculate_garbage n st mini false pc > 0 →
       calculate_garbage n st mini true pc
       = calculate_garbage n st mini false pc + 1).
Proof.
  intros H. specialize (H 1 None false true). vm_compute in H.
  assert (10 = 11)%Z as Habs by (apply H; [split; discriminate | reflexivity]).
  discriminate Habs.
Qed.

(** C1, amended: for 1 to 4 cleared lines and a positive count without the
    back-to-back flag, setting the flag adds exactly one when the clear is not
    a perfect clear; a perfect clear returns 10 with and without the flag. *)
Theorem C1_calculate_garbage_b2b (n : Z) (st : option string) (mini pc : bool) :
  1 ≤ n ≤ 4 →
  calculate_garbage n st mini false pc > 0 →
  calculate_garbage n st mini true pc
  = (if pc then 10 else calculate_garbage n st mini false pc + 1)
  ∧ (pc = true → calculate_garbage n st mini false pc = 10).
Proof.
  intros Hr Hpos. destruct pc.
  - split; [|intros _]; apply calculate_garbage_perfect; lia.
  - split; [|discriminate]. apply calculate_garbage_b2b_step; [lia|done].
Qed.

Lemma C1_calculate_garbage_b2b_witness :
  calculate_garbage 4 None false true false
  = calculate_garbage 4 None false false false + 1
  ∧ (false = true → calculate_garbage 4 None false false false = 10).
Proof.
  apply (C1_calculate_garbage_b2b 4 None false false); [lia | reflexivity].
Defined.

End attack.

(** ** Running Python code: general facts *)

Lemma bind_Ret_inv {A B} (m : result A) (f : A → result B) (b : B) :
  m ≫= f = Ret b → ∃ a, m = Ret a ∧ f a = Ret b.
Proof. destruct m as [a| |]; simpl; [eauto | discriminate..]. Qed.

Lemma fmap_Ret_inv {A B} (m : result A) (f : A → B) (b : B) :
  f <$> m = Ret b → ∃ a, m = Ret a ∧ b = f a.
Proof. destruct m as [a| |]; simpl; [|discriminate..]. intros [= <-]. eauto. Qed.

Section python.
Context {A B : Type}.

Lemma py_idx_nat (len n : nat) : (n < len)%nat → py_idx len (Z.of_nat n) = Some n.
Proof.
  intros Hn. unfold py_idx.
  destruct (Z.leb_spec 0 (Z.of_nat n)); [|lia].
  destruct (Z.ltb_spec (Z.of_nat n) (Z.of_nat len)); [|lia].
  by rewrite Nat2Z.id.
Qed.

Lemma py_idx_in_range (len : nat) (i : Z) :
  0 ≤ i < Z.of_nat len → py_idx len i = Some (Z.to_nat i).
Proof.
  intros Hi. rewrite <- (Z2Nat.id i) at 1 by lia. apply py_idx_nat. lia.
Qed.

Lemma py_get_in_range (l : list A) (i : Z) :
  0 ≤ i < Z.of_nat (length l) → ∃ a, l !! Z.to_nat i = Some a ∧ py_get l i = Ret a.
Proof.
  intros Hi. unfold py_get. rewrite py_idx_in_range by done. simpl.
  destruct (lookup_lt_is_Some_2 l (Z.to_nat i)) as [a Ha]; [lia|].
  exists a. by rewrite Ha.
Qed.

Lemma py_get_lookup (l : list A) (n : nat) (a : A) :
  l !! n = Some a → py_get l (Z.of_nat n) = Ret a.
Proof.
  intros Ha. unfold py_get. rewrite py_idx_nat by (by eapply lookup_lt_Some).
  simpl. by rewrite Ha.
Qed.

Lemma py_get_Ret_nonneg (l : list A) (i : Z) (a : A) :
  0 ≤ i → py_get l i = Ret a → l !! Z.to_nat i = Some a ∧ i < Z.of_nat (length l).
Proof.
  intros Hi. unfold py_get, py_idx.
  destruct (Z.leb_spec 0 i); [|lia].
  destruct (Z.ltb_spec i (Z.of_nat (length l))); simpl; [|discriminate].
  destruct (l !! Z.to_nat i); simpl; [|discriminate]. by intros [= ->].
Qed.

Lemma py_set_in_range (l : list A) (i : Z) (v : A) :
  0 ≤ i < Z.of_nat (length l) → py_set l i v = Ret (<[Z.to_nat i := v]> l).
Proof. intros Hi. unfold py_set. by rewrite py_idx_in_range. Qed.

Lemma elem_of_range (n : nat) (i : Z) : i ∈ range n ↔ 0 ≤ i < Z.of_nat n.
Proof.
  unfold range. rewrite list_elem_of_fmap. split.
  - intros (k & -> & Hk). apply elem_of_seq in Hk. lia.
  - intros Hi. exists (Z.to_nat i). split; [lia|]. apply elem_of_seq. lia.
Qed.

(** A loop with [return] that is never taken runs to its end. *)
Lemma for_return_None {I} (idxs : list I) (body : I → result (option B)) :
  (∀ i, i ∈ idxs → body i = Ret None) → for_return idxs body = Ret None.
Proof.
  induction idxs as [|i idxs IH]; intros Hb; [done|].
  simpl. rewrite Hb by left. simpl. apply IH. intros j Hj. apply Hb. by right.
Qed.

Lemma for_return_None_inv {I} (idxs : list I) (body : I → result (option B)) :
  for_return idxs body = Ret None → ∀ i, i ∈ idxs → body i = Ret None.
Proof.
  induction idxs as [|i idxs IH]; intros Hr j Hj; [by apply elem_of_nil in Hj|].
  simpl in Hr. apply bind_Ret_inv in Hr as (o & Ho & Hr).
  destruct o as [b|]; [discriminate|].
  apply elem_of_cons in Hj as [->|Hj]; [done|]. by apply IH.
Qed.

Lemma for_return_Some_inv {I} (idxs : list I) (body : I → result (option B)) b :
  for_return idxs body = Ret (Some b) → ∃ i, i ∈ idxs ∧ body i = Ret (Some b).
Proof.
  induction idxs as [|i idxs IH]; intros Hr; [discriminate|].
  simpl in Hr. apply bind_Ret_inv in Hr as (o & Ho & Hr).
  destruct o as [b'|].
  - injection Hr as ->. exists i. split; [left|done].
  - destruct (IH Hr) as (j & Hj & Hbj). exists j. split; [by right|done].
Qed.

(** A loop whose body answers a test [p]: it returns at the first index
    that passes the test. *)
Lemma for_return_existsb {I} (idxs : list I) (body : I → result (option bool))
    (p : I → bool) :
  (∀ i, i ∈ idxs → body i = Ret (if p i then Some true else None)) →
  for_return idxs body = Ret (if existsb p idxs then Some true else None).
Proof.
  induction idxs as [|i idxs IH]; intros Hb; [done|].
  simpl. rewrite Hb by left. destruct (p i); simpl; [done|].
  apply IH. intros j Hj. apply Hb. by right.
Qed.

(** A loop that keeps an invariant returns a state that satisfies it. *)
Lemma for_fold_invariant {I} (P : A → Prop) (idxs : list I)
    (body : A → I → result A) (s : A) :
  (∀ s i, i ∈ idxs → P s → ∃ s', body s i = Ret s' ∧ P s') →
  P s → ∃ s', for_fold idxs body s = Ret s' ∧ P s'.
Proof.
  revert s. induction idxs as [|i idxs IH]; intros s Hb Hs; [by exists s|].
  destruct (Hb s i) as (s1 & Hs1 & HP1); [left|done|].
  simpl. rewrite Hs1. simpl. apply IH; [|done].
  intros s2 j Hj. apply Hb. by right.
Qed.

End python.

Section while_facts.
Context {S : Type}.
Implicit Types (cond : S → result bool) (body : S → result S).

Lemma while_loop_stop fuel cond body s :
  cond s = Ret false → while_loop (Datatypes.S fuel) cond body s = Ret s.
Proof. intros H. simpl. by rewrite H. Qed.

Lemma while_loop_step fuel cond body s s' :
  cond s = Ret true → body s = Ret s' →
  while_loop (Datatypes.S fuel) cond body s = while_loop fuel cond body s'.
Proof. intros Hc Hb. simpl. rewrite Hc. simpl. by rewrite Hb. Qed.

(** More fuel does not change a result that was reached. *)
Lemma while_loop_mono fuel fuel' cond body s r :
  (fuel ≤ fuel')%nat →
  while_loop fuel cond body s = Ret r → while_loop fuel' cond body s = Ret r.
Proof.
  revert fuel' s. induction fuel as [|fuel IH]; intros fuel' s Hle; [discriminate|].
  destruct fuel' as [|fuel']; [lia|]. simpl.
  destruct (cond s) as [[]| |]; simpl; try done.
  destruct (body s) as [s'| |]; simpl; try done.
  apply IH. lia.
Qed.

(** A loop whose test never fails and whose body never raises cannot
    finish: it runs out of every budget. *)
Lemma while_loop_forever fuel cond body s :
  (∀ s, cond s = Ret true) → (∀ s, ∃ s', body s = Ret s') →
  while_loop fuel cond body s = OutOfFuel.
Proof.
  intros Hc Hb. revert s. induction fuel as [|fuel IH]; intros s; [done|].
  simpl. rewrite Hc. simpl. destruct (Hb s) as [s' ->]. simpl. apply IH.
Qed.

End while_facts.

(** ** The board *)

Section board.
Implicit Types (board s : matrix) (x y r c : Z).

Lemma cell_at_lookup (m : matrix) r c row v :
  0 ≤ r → 0 ≤ c → m !! Z.to_nat r = Some row → row !! Z.to_nat c = Some v →
  cell_at m r c = v.
Proof. intros _ _ Hr Hc. unfold cell_at. rewrite Hr. simpl. by rewrite Hc. Qed.

Lemma board_dims_row board ny :
  board_dims board → 0 ≤ ny < HEIGHT →
  ∃ brow, board !! Z.to_nat ny = Some brow ∧ py_get board ny = Ret brow
          ∧ length brow = Z.to_nat WIDTH.
Proof.
  intros [Hlen Hrows] Hny.
  destruct (py_get_in_range board ny) as (brow & Hl & Hg); [lia|].
  exists brow. split_and!; [done..|].
  rewrite Forall_forall in Hrows. apply Hrows. by eapply list_elem_of_lookup_2.
Qed.

Lemma board_dims_cell board nx ny :
  board_dims board → 0 ≤ ny < HEIGHT → 0 ≤ nx < WIDTH →
  ∃ brow, py_get board ny = Ret brow ∧ py_get brow nx = Ret (cell_at board ny nx).
Proof.
  intros Hd Hny Hnx.
  destruct (board_dims_row board ny Hd Hny) as (brow & Hl & Hg & Hw).
  destruct (py_get_in_range brow nx) as (v & Hv & Hgv); [lia|].
  exists brow. split; [done|]. by rewrite (cell_at_lookup board ny nx brow v) by (done || lia).
Qed.

Lemma rectangular_cell s r c :
  rectangular s → r ∈ range (length s) →
  c ∈ range (length (default [] (head s))) →
  ∃ srow, py_get s r = Ret srow ∧ py_get srow c = Ret (cell_at s r c).
Proof.
  intros Hrect Hr%elem_of_range Hc%elem_of_range.
  destruct (py_get_in_range s r) as (srow & Hl & Hg); [lia|].
  assert (length srow = length (default [] (head s))) as Hlen.
  { unfold rectangular in Hrect. rewrite Forall_forall in Hrect.
    apply Hrect. by eapply list_elem_of_lookup_2. }
  destruct (py_get_in_range srow c) as (v & Hv & Hgv); [lia|].
  exists srow. split; [done|]. by rewrite (cell_at_lookup s r c srow v) by (done || lia).
Qed.

Lemma collide_cell_blocked board s x y r c :
  board_dims board → rectangular s →
  r ∈ range (length s) → c ∈ range (length (default [] (head s))) →
  collide_cell board s x y r c
  = Ret (if truthy (cell_at s r c) && blocked board (x + c) (y + r)
         then Some true else None).
Proof.
  intros Hd Hrect Hr Hc.
  destruct (rectangular_cell s r c Hrect Hr Hc) as (srow & Hs & Hv).
  unfold collide_cell. rewrite Hs. simpl. rewrite Hv. simpl.
  destruct (truthy (cell_at s r c)); [|done]. simpl. unfold blocked.
  destruct ((x + c <? 0) || (x + c >=? WIDTH) || (y + r >=? HEIGHT)) eqn:Hout; [done|].
  simpl. destruct (Z.geb_spec (y + r) 0) as [Hny|Hny]; [|done]. simpl.
  apply orb_false_elim in Hout as [Hout Hbot].
  apply orb_false_elim in Hout as [Hleft Hright].
  destruct (board_dims_cell board (x + c) (y + r) Hd) as (brow & Hb & Hcell); [lia..|].
  rewrite Hb. simpl. rewrite Hcell. simpl. by destruct (truthy _).
Qed.

(** On a board of the right size and a rectangular shape, [collide] does
    not raise and answers whether a filled cell of the shape is blocked. *)
Lemma collide_overlaps board s x y :
  board_dims board → rectangular s → collide board s x y = Ret (overlaps board s x y).
Proof.
  intros Hd Hrect. unfold collide, overlaps.
  rewrite (for_return_existsb _ _
    (λ r, existsb (λ c, truthy (cell_at s r c) && blocked board (x + c) (y + r))
            (range (length (default [] (head s)))))).
  { simpl. by destruct (existsb _ _). }
  intros r Hr. destruct s as [|row0 s']; [by apply elem_of_nil in Hr|].
  assert (py_get (row0 :: s') 0 = Ret row0) as -> by done. simpl.
  apply for_return_existsb. intros c Hc.
  by apply collide_cell_blocked.
Qed.

Lemma overlaps_true board s x y :
  overlaps board s x y = true ↔
  ∃ r c, r ∈ range (length s) ∧ c ∈ range (length (default [] (head s)))
         ∧ truthy (cell_at s r c) = true ∧ blocked board (x + c) (y + r) = true.
Proof.
  unfold overlaps. rewrite existsb_exists. split.
  - intros (r & Hr & Hex). apply existsb_exists in Hex as (c & Hc & Hb).
    apply andb_true_iff in Hb as [Hv Hb].
    exists r, c. by rewrite !list_elem_of_In.
  - intros (r & c & Hr & Hc & Hv & Hb). exists r. split; [by apply list_elem_of_In|].
    apply existsb_exists. exists c. split; [by apply list_elem_of_In|].
    by rewrite Hv, Hb.
Qed.

End board.

(** ** Ghost projection *)

Section ghost.
Implicit Types (board s : matrix) (x y : Z).

Lemma least_true (p : nat → bool) (N : nat) :
  p N = true →
  ∃ k, (k ≤ N)%nat ∧ p k = true ∧ ∀ j, (j < k)%nat → p j = false.
Proof.
  revert p. induction N as [|N IH]; intros p HN.
  - exists 0%nat. split_and!; [lia|done|lia].
  - destruct (p 0%nat) eqn:H0.
    + exists 0%nat. split_and!; [lia|done|lia].
    + destruct (IH (λ k, p (S k)) HN) as (k & Hk & Hpk & Hlt).
      exists (S k). split_and!; [lia|done|].
      intros [|j] Hj; [done|]. apply Hlt. lia.
Qed.

Lemma has_filled_cell_index s :
  rectangular s → has_filled_cell s →
  ∃ r c, r ∈ range (length s) ∧ c ∈ range (length (default [] (head s)))
         ∧ truthy (cell_at s r c) = true.
Proof.
  intros Hrect (row & v & Hrow & Hv & Hne).
  apply list_elem_of_lookup in Hrow as [i Hi].
  apply list_elem_of_lookup in Hv as [j Hj].
  assert (length row = length (default [] (head s))) as Hlen.
  { unfold rectangular in Hrect. rewrite Forall_forall in Hrect.
    apply Hrect. by eapply list_elem_of_lookup_2. }
  exists (Z.of_nat i), (Z.of_nat j).
  pose proof (lookup_lt_Some _ _ _ Hi). pose proof (lookup_lt_Some _ _ _ Hj).
  split_and!; [apply elem_of_range; lia..|].
  rewrite (cell_at_lookup s _ _ row v); rewrite ?Nat2Z.id; [|lia|lia|done|done].
  unfold truthy. by destruct (Z.eqb_spec v 0).
Qed.

(** Far enough down, a shape with a filled cell hits the floor. *)
Lemma overlaps_below board s x y :
  rectangular s → has_filled_cell s → HEIGHT ≤ y → overlaps board s x y = true.
Proof.
  intros Hrect Hfill Hy.
  destruct (has_filled_cell_index s Hrect Hfill) as (r & c & Hr & Hc & Hv).
  apply overlaps_true. exists r, c. split_and!; [done..|].
  apply elem_of_range in Hr. unfold blocked.
  destruct (Z.geb_spec (y + r) HEIGHT); [|lia].
  by rewrite orb_true_r.
Qed.

Lemma all_empty_cell s r c : all_empty s → cell_at s r c = 0.
Proof.
  intros He. unfold cell_at.
  destruct (s !! Z.to_nat r) as [row|] eqn:Hrow; [|done]. simpl.
  destruct (row !! Z.to_nat c) as [v|] eqn:Hv; [|done]. simpl.
  unfold all_empty in He. rewrite Forall_forall in He.
  specialize (He row (list_elem_of_lookup_2 _ _ _ Hrow)).
  rewrite Forall_forall in He. apply He. by eapply list_elem_of_lookup_2.
Qed.

Lemma overlaps_all_empty board s x y : all_empty s → overlaps board s x y = false.
Proof.
  intros He. apply not_true_is_false. intros (r & c & _ & _ & Hv & _)%overlaps_true.
  by rewrite all_empty_cell in Hv.
Qed.

(** The loop of [get_ghost_y] stops at the first row below which the
    shape is blocked. *)
Lemma get_ghost_y_first board s x y (k extra : nat) :
  board_dims board → rectangular s →
  (∀ j, (j < k)%nat → overlaps board s x (y + 1 + Z.of_nat j) = false) →
  overlaps board s x (y + 1 + Z.of_nat k) = true →
  get_ghost_y (S (k + extra)) board s x y = Ret (y + Z.of_nat k).
Proof.
  intros Hd Hrect. revert y. induction k as [|k IH]; intros y Hfree Hhit.
  - unfold get_ghost_y. rewrite while_loop_stop; [f_equal; lia|].
    rewrite collide_overlaps by done. simpl. f_equal.
    replace (y + 1) with (y + 1 + Z.of_nat 0) by lia. by rewrite Hhit.
  - change (S (S k + extra)) with (S (S (k + extra))).
    unfold get_ghost_y.
    rewrite (while_loop_step _ _ _ _ (y + 1)); [| |done].
    + fold (get_ghost_y (S (k + extra)) board s x (y + 1)).
      rewrite IH; [f_equal; lia| |].
      * intros j Hj. specialize (Hfree (S j) ltac:(lia)).
        by replace (y + 1 + 1 + Z.of_nat j) with (y + 1 + Z.of_nat (S j)) by lia.
      * by replace (y + 1 + 1 + Z.of_nat k) with (y + 1 + Z.of_nat (S k)) by lia.
    + rewrite collide_overlaps by done. simpl. f_equal.
      specialize (Hfree 0%nat ltac:(lia)).
      replace (y + 1) with (y + 1 + Z.of_nat 0) by lia. by rewrite Hfree.
Qed.

(** C10: on a board of 20 rows of 10 cells and a rectangular shape matrix
    with at least one filled cell, [get_ghost_y] terminates (every large
    enough loop budget gives the same result) and returns the unique
    [y' >= y] such that the shape collides at none of [(x, y+1)] to
    [(x, y')] and collides at [(x, y'+1)]. For a shape without a filled cell
    the collision test is never true and the loop does not terminate. *)
Theorem C10_get_ghost_y board s x y :
  board_dims board → rectangular s →
  (has_filled_cell s →
     ∃ y' fuel,
       (∀ fuel', (fuel ≤ fuel')%nat → get_ghost_y fuel' board s x y = Ret y')
       ∧ y ≤ y'
       ∧ (∀ z, y < z ≤ y' → collide board s x z = Ret false)
       ∧ collide board s x (y' + 1) = Ret true
       ∧ (∀ y2, y ≤ y2 →
            (∀ z, y < z ≤ y2 → collide board s x z = Ret false) →
            collide board s x (y2 + 1) = Ret true → y2 = y'))
  ∧ (all_empty s →
       (∀ z, collide board s x z = Ret false)
       ∧ (∀ fuel, get_ghost_y fuel board s x y = OutOfFuel)).
Proof.
  intros Hd Hrect. split.
  - intros Hfill.
    set (p := λ j : nat, overlaps board s x (y + 1 + Z.of_nat j)).
    destruct (least_true p (Z.to_nat (HEIGHT - (y + 1)))) as (k & _ & Hk & Hlt).
    { unfold p. apply overlaps_below; [done..|lia]. }
    exists (y + Z.of_nat k), (S k). split_and!.
    + intros fuel' Hle. replace fuel' with (S (k + (fuel' - S k)))%nat by lia.
      by apply get_ghost_y_first.
    + lia.
    + intros z Hz. rewrite collide_overlaps by done. f_equal.
      replace z with (y + 1 + Z.of_nat (Z.to_nat (z - y - 1))) by lia.
      apply Hlt. lia.
    + rewrite collide_overlaps by done. f_equal.
      by replace (y + Z.of_nat k + 1) with (y + 1 + Z.of_nat k) by lia.
    + intros y2 Hy2 Hfree Hhit.
      rewrite collide_overlaps in Hhit by done. injection Hhit as Hhit.
      destruct (Z.lt_trichotomy y2 (y + Z.of_nat k)) as [Hlt2|[->|Hgt]]; [|done|].
      * specialize (Hlt (Z.to_nat (y2 - y)) ltac:(lia)). unfold p in Hlt.
        replace (y + 1 + Z.of_nat (Z.to_nat (y2 - y))) with (y2 + 1) in Hlt by lia.
        congruence.
      * specialize (Hfree (y + 1 + Z.of_nat k) ltac:(lia)).
        rewrite collide_overlaps in Hfree by done. unfold p in Hk. congruence.
  - intros He. split.
    + intros z. rewrite collide_overlaps by done. by rewrite overlaps_all_empty.
    + intros fuel. unfold get_ghost_y. apply while_loop_forever.
      * intros gy. rewrite collide_overlaps by done. by rewrite overlaps_all_empty.
      * intros gy. by eexists.
Qed.

End ghost.

(** ** Board invariant *)

Section board_invariant.
Implicit Types (b board s : matrix) (x y r c color : Z).

Lemma board_dims_new : board_dims new_board.
Proof. split; [reflexivity|]. repeat constructor. Qed.

Lemma board_ok_new : board_ok new_board.
Proof.
  split; [apply board_dims_new|]. unfold cells_in_range, new_board.
  apply Forall_replicate, Forall_replicate. lia.
Qed.

Lemma collide_cell_not_false board s x y r c :
  collide_cell board s x y r c ≠ Ret (Some false).
Proof.
  unfold collide_cell. intros H.
  apply bind_Ret_inv in H as (srow & _ & H).
  apply bind_Ret_inv in H as (v & _ & H).
  destruct (truthy v); [|discriminate].
  destruct (_ || _); [discriminate|].
  destruct (_ >=? _); [|discriminate].
  apply bind_Ret_inv in H as (brow & _ & H).
  apply bind_Ret_inv in H as (cell & _ & H).
  by destruct (truthy cell).
Qed.

(** What a cell of the shape satisfies when the scan of [collide] has
    passed it without returning. *)
Lemma collide_cell_None board s x y r c :
  collide_cell board s x y r c = Ret None →
  ∃ srow v, py_get s r = Ret srow ∧ py_get srow c = Ret v
            ∧ (truthy v = true → 0 ≤ x + c < WIDTH ∧ y + r < HEIGHT).
Proof.
  unfold collide_cell. intros H.
  apply bind_Ret_inv in H as (srow & Hs & H).
  apply bind_Ret_inv in H as (v & Hv & H).
  exists srow, v. split_and!; [done..|]. intros Ht. rewrite Ht in H.
  destruct (Z.ltb_spec (x + c) 0); [discriminate|].
  destruct (Z.geb_spec (x + c) WIDTH); [discriminate|].
  destruct (Z.geb_spec (y + r) HEIGHT); [discriminate|]. lia.
Qed.

Lemma collide_false_scan board s x y :
  collide board s x y = Ret false →
  ∀ r, r ∈ range (length s) →
    ∃ row0, py_get s 0 = Ret row0
            ∧ ∀ c, c ∈ range (length row0) → collide_cell board s x y r c = Ret None.
Proof.
  unfold collide. intros H r Hr.
  apply bind_Ret_inv in H as (o & Ho & H). injection H as H.
  destruct o as [[]|]; [discriminate| |].
  - apply for_return_Some_inv in Ho as (r' & _ & Hbody).
    apply bind_Ret_inv in Hbody as (row0 & _ & Hin).
    apply for_return_Some_inv in Hin as (c & _ & Hc).
    by apply collide_cell_not_false in Hc.
  - pose proof (for_return_None_inv _ _ Ho r Hr) as Hbody.
    apply bind_Ret_inv in Hbody as (row0 & H0 & Hin).
    exists row0. split; [done|]. by apply for_return_None_inv.
Qed.

Lemma board_ok_insert b (ny nx : nat) color (brow : list Z) :
  board_ok b → b !! ny = Some brow → 0 ≤ color ≤ 8 →
  board_ok (<[ny := <[nx := color]> brow]> b).
Proof.
  intros [[Hlen Hrows] Hcells] Hb Hcol. unfold board_ok, board_dims, cells_in_range.
  rewrite length_insert. split_and!; [done| |].
  - apply Forall_insert; [done|]. rewrite length_insert.
    rewrite Forall_forall in Hrows. apply Hrows. by eapply list_elem_of_lookup_2.
  - apply Forall_insert; [done|]. apply Forall_insert; [|done].
    unfold cells_in_range in Hcells. rewrite Forall_forall in Hcells. apply Hcells.
    by eapply list_elem_of_lookup_2.
Qed.

Lemma lock_cell_ok s x y color r c b srow v :
  board_ok b → 0 ≤ color ≤ 8 →
  py_get s r = Ret srow → py_get srow c = Ret v →
  (truthy v = true → 0 ≤ x + c < WIDTH ∧ y + r < HEIGHT) →
  ∃ b', lock_cell s x y color r c b = Ret b' ∧ board_ok b'.
Proof.
  intros Hok Hcol Hs Hv Hin. unfold lock_cell. rewrite Hs. simpl. rewrite Hv. simpl.
  destruct (truthy v); [|by exists b]. simpl.
  destruct (Z.geb_spec (y + r) 0) as [Hny|Hny]; [|by exists b].
  destruct Hin as [Hx Hy]; [done|].
  destruct (board_dims_row b (y + r) (proj1 Hok)) as (brow & Hl & Hg & Hw); [lia|].
  rewrite Hg. simpl. rewrite py_set_in_range by lia. simpl.
  rewrite py_set_in_range by (destruct Hok as [[-> _] _]; lia).
  eexists. split; [done|]. by apply board_ok_insert.
Qed.

(** Locking at a position where the shape does not collide succeeds and
    keeps the board well formed. *)
Lemma lock_ok b s x y color :
  board_ok b → collide b s x y = Ret false → 0 ≤ color ≤ 8 →
  ∃ b', lock b s x y color = Ret b' ∧ board_ok b'.
Proof.
  intros Hok Hfree Hcol. unfold lock.
  pose proof (collide_false_scan b s x y Hfree) as Hscan.
  apply for_fold_invariant; [|done].
  intros b1 r Hr Hok1. destruct (Hscan r Hr) as (row0 & H0 & Hcells).
  rewrite H0. simpl. apply for_fold_invariant; [|done].
  intros b2 c Hc Hok2.
  destruct (collide_cell_None b s x y r c (Hcells c Hc)) as (srow & v & Hs & Hv & Hin).
  by eapply lock_cell_ok.
Qed.

Lemma filter_length_bound {A} (f : A → bool) (l : list A) :
  (length (List.filter f l) ≤ length l)%nat.
Proof. induction l as [|a l IH]; simpl; [lia|]. destruct (f a); simpl; lia. Qed.

Lemma Forall_list_filter {A} (P : A → Prop) (f : A → bool) (l : list A) :
  Forall P l → Forall P (List.filter f l).
Proof.
  induction 1 as [|a l Ha Hl IH]; simpl; [constructor|].
  destruct (f a); [by constructor|done].
Qed.

Lemma clear_lines_ok b : board_ok b → board_ok (clear_lines b).1.
Proof.
  intros [[Hlen Hrows] Hcells]. unfold clear_lines. cbv zeta. cbn [fst].
  pose proof (filter_length_bound (λ row, negb (all_truthy row)) b) as Hle.
  split; [split|].
  - rewrite length_app, length_replicate. unfold HEIGHT in *. lia.
  - apply Forall_app. split; [|by apply Forall_list_filter].
    apply Forall_replicate. apply length_replicate.
  - apply Forall_app. split; [|by apply Forall_list_filter].
    apply Forall_replicate, Forall_replicate. lia.
Qed.

Lemma garbage_line_ok hole :
  length (garbage_line hole) = Z.to_nat WIDTH
  ∧ Forall (λ v, 0 ≤ v ≤ 8) (garbage_line hole).
Proof.
  unfold garbage_line, range. split.
  - by rewrite !length_fmap, length_seq.
  - apply Forall_fmap, Forall_fmap, Forall_forall. intros k _. simpl.
    case_bool_decide; lia.
Qed.

Lemma add_garbage_ok hole_at b n :
  board_ok b → ∃ b', add_garbage hole_at b n = Ret b' ∧ board_ok b'.
Proof.
  intros Hok. unfold add_garbage. apply for_fold_invariant; [|done].
  intros b1 k _ [[Hlen Hrows] Hcells].
  destruct b1 as [|row b1]; [discriminate|].
  destruct (garbage_line_ok (hole_at k)) as [Hgl Hgc].
  eexists. split; [done|]. split; [split|].
  - rewrite length_app. simpl in *. lia.
  - apply Forall_app. split; [by inversion Hrows|]. by apply Forall_singleton.
  - apply Forall_app. split; [by inversion Hcells|]. by apply Forall_singleton.
Qed.

Lemma apply_op_ok op b :
  board_ok b → op_allowed op b → ∃ b', apply_op op b = Ret b' ∧ board_ok b'.
Proof.
  intros Hok Hallowed. destruct op as [s x y color| |hole_at n]; simpl in *.
  - destruct Hallowed as [Hfree Hcol]. apply lock_ok; [done..|lia].
  - eexists. split; [done|]. by apply clear_lines_ok.
  - by apply add_garbage_ok.
Qed.

(** C9: every board reached from the empty board by locks at non-colliding
    positions with a colour in 1..8, line clears and garbage injections has
    exactly 20 rows of exactly 10 cells with every value in 0..8; on such a
    board each of these operations returns (it does not raise) a board of
    the same kind. *)
Theorem C9_board_invariant b :
  reachable b →
  board_ok b
  ∧ ∀ op, op_allowed op b → ∃ b', apply_op op b = Ret b' ∧ board_ok b'.
Proof.
  intros Hreach. assert (board_ok b) as Hok.
  { induction Hreach as [|b op b' _ IH Hallowed Happ]; [apply board_ok_new|].
    destruct (apply_op_ok op b IH Hallowed) as (b1 & Hb1 & Hok1). congruence. }
  split; [done|]. intros op. by apply apply_op_ok.
Qed.

End board_invariant.

Section board_witnesses.

Lemma C10_get_ghost_y_witness :
  (∃ y' fuel,
     (∀ fuel', (fuel ≤ fuel')%nat →
        get_ghost_y fuel' new_board [[0; 1; 0]; [1; 1; 1]; [0; 0; 0]] 4 (-1) = Ret y')
     ∧ -1 ≤ y'
     ∧ (∀ z, -1 < z ≤ y' →
          collide new_board [[0; 1; 0]; [1; 1; 1]; [0; 0; 0]] 4 z = Ret false)
     ∧ collide new_board [[0; 1; 0]; [1; 1; 1]; [0; 0; 0]] 4 (y' + 1) = Ret true
     ∧ (∀ y2, -1 ≤ y2 →
          (∀ z, -1 < z ≤ y2 →
             collide new_board [[0; 1; 0]; [1; 1; 1]; [0; 0; 0]] 4 z = Ret false) →
          collide new_board [[0; 1; 0]; [1; 1; 1]; [0; 0; 0]] 4 (y2 + 1) = Ret true →
          y2 = y'))
  ∧ ((∀ z, collide new_board [[0; 0]; [0; 0]] 4 z = Ret false)
     ∧ (∀ fuel, get_ghost_y fuel new_board [[0; 0]; [0; 0]] 4 (-1) = OutOfFuel)).
Proof.
  split.
  - apply (C10_get_ghost_y new_board [[0; 1; 0]; [1; 1; 1]; [0; 0; 0]] 4 (-1)).
    + split; [reflexivity|]. repeat constructor.
    + repeat constructor.
    + exists [0; 1; 0], 1. split_and!; [left| right; left |lia].
  - apply (C10_get_ghost_y new_board [[0; 0]; [0; 0]] 4 (-1)).
    + split; [reflexivity|]. repeat constructor.
    + repeat constructor.
    + repeat constructor.
Defined.

Lemma C9_board_invariant_witness :
  board_ok (<[19%nat := [0; 0; 0; 0; 3; 3; 3; 0; 0; 0]]>
              (<[18%nat := [0; 0; 0; 0; 0; 3; 0; 0; 0; 0]]> new_board)).
Proof.
  apply (C9_board_invariant
           (<[19%nat := [0; 0; 0; 0; 3; 3; 3; 0; 0; 0]]>
              (<[18%nat := [0; 0; 0; 0; 0; 3; 0; 0; 0; 0]]> new_board))).
  apply (reachable_step new_board (OpLock [[0; 1; 0]; [1; 1; 1]; [0; 0; 0]] 4 18 3)).
  - apply reachable_new.
  - split; [reflexivity|lia].
  - reflexivity.
Defined.

End board_witnesses.

(** ** T-spin classification *)

Section tspin.
Implicit Types (board s : matrix) (x y rotation kick : Z).

(** The test that [check_tspin] makes for one corner. *)
Lemma corner_probe board x y dx dy :
  board_dims board →
  (if (x + 1 + dx <? 0) || (x + 1 + dx >=? WIDTH) || (y + 1 + dy >=? HEIGHT)
   then Ret true
   else if y + 1 + dy >=? 0 then
     brow ← py_get board (y + 1 + dy); cell ← py_get brow (x + 1 + dx);
     Ret (truthy cell)
   else Ret false)
  = Ret (corner_filled board x y (dx, dy)).
Proof.
  intros Hd. unfold corner_filled. cbn [fst snd].
  destruct ((x + 1 + dx <? 0) || (x + 1 + dx >=? WIDTH) || (y + 1 + dy >=? HEIGHT))
    eqn:Hout; [done|].
  simpl. destruct (Z.geb_spec (y + 1 + dy) 0) as [Hpy|Hpy]; [|done]. simpl.
  apply orb_false_elim in Hout as [Hout Hbot].
  apply orb_false_elim in Hout as [Hleft Hright].
  destruct (board_dims_cell board (x + 1 + dx) (y + 1 + dy) Hd)
    as (brow & Hb & Hcell); [lia..|].
  rewrite Hb. simpl. by rewrite Hcell.
Qed.

Lemma check_tspin_corners board x y rotation :
  board_dims board → 0 ≤ rotation ≤ 3 →
  check_tspin board x y rotation
  = Ret (if corners_filled board x y <? 3 then (false, false)
         else (true, negb (both_front_filled board x y rotation))).
Proof.
  intros Hd Hr. unfold check_tspin. cbn [for_fold fst snd].
  rewrite !corner_probe by done.
  unfold corners_filled, both_front_filled. cbn [List.filter].
  assert (rotation = 0 ∨ rotation = 1 ∨ rotation = 2 ∨ rotation = 3)
    as [->|[->|[->| ->]]] by lia;
  unfold front_pair; simpl (_ =? _); cbn [fst snd];
  generalize (corner_filled board x y (-1, -1)) (corner_filled board x y (1, -1))
             (corner_filled board x y (-1, 1)) (corner_filled board x y (1, 1));
  intros [] [] [] []; vm_compute; reflexivity.
Qed.

(** A corner beyond a side wall counts as filled at any height, also next
    to the rows above the board; a corner above the board and between the
    side walls does not count. *)
Lemma corner_filled_above_board board x y d :
  y + 1 + d.2 < 0 →
  corner_filled board x y d
  = (x + 1 + d.1 <? 0) || (x + 1 + d.1 >=? WIDTH).
Proof.
  intros Hy. unfold corner_filled.
  destruct (Z.geb_spec (y + 1 + d.2) HEIGHT); [unfold HEIGHT in *; lia|].
  destruct (Z.geb_spec (y + 1 + d.2) 0); [lia|].
  by rewrite !orb_false_r.
Qed.

(** C5: for a lock of a T piece whose last action was a rotation, on a
    board of 20 rows of 10 cells and with rotation in 0..3: at least three
    filled corners and both front corners filled give a full T-spin; at
    least three filled corners, not both front corners filled and a kick
    index other than 4 give a mini T-spin; with kick index 4 that mini is a
    full T-spin; fewer than three filled corners give no spin. *)
Theorem C5_tspin_three_corner_rule board s x y rotation kick dir :
  board_dims board → 0 ≤ rotation ≤ 3 →
  (3 ≤ corners_filled board x y → both_front_filled board x y rotation = true →
     classify_lock board s x y "T" rotation kick dir true
     = Ret (Some "T-SPIN"%string, false))
  ∧ (3 ≤ corners_filled board x y → both_front_filled board x y rotation = false →
     kick ≠ 4 →
     classify_lock board s x y "T" rotation kick dir true
     = Ret (Some "T-SPIN"%string, true))
  ∧ (3 ≤ corners_filled board x y → both_front_filled board x y rotation = false →
     kick = 4 →
     classify_lock board s x y "T" rotation kick dir true
     = Ret (Some "T-SPIN"%string, false))
  ∧ (corners_filled board x y < 3 →
     classify_lock board s x y "T" rotation kick dir true = Ret (None, false)).
Proof.
  intros Hd Hr. unfold classify_lock, check_spin.
  rewrite bool_decide_eq_false_2 by discriminate.
  rewrite bool_decide_eq_true_2 by reflexivity.
  rewrite check_tspin_corners by done.
  split_and!.
  - intros Hn Hfront. destruct (Z.ltb_spec (corners_filled board x y) 3); [lia|].
    rewrite Hfront. simpl. by destruct (kick =? 4).
  - intros Hn Hfront Hk. destruct (Z.ltb_spec (corners_filled board x y) 3); [lia|].
    rewrite Hfront. simpl. by destruct (Z.eqb_spec kick 4).
  - intros Hn Hfront ->. destruct (Z.ltb_spec (corners_filled board x y) 3); [lia|].
    by rewrite Hfront.
  - intros Hn. by destruct (Z.ltb_spec (corners_filled board x y) 3); [|lia].
Qed.

(** A board with the bottom row filled except column 1 and one block above
    its left end: a T piece pointing down at [(0, 17)] has the corners
    [(0, 17)], [(0, 19)] and [(2, 19)] filled. *)
Lemma C5_tspin_three_corner_rule_witness :
  classify_lock
    (<[19%nat := [1; 0; 1; 1; 1; 1; 1; 1; 1; 1]]>
       (<[17%nat := [1; 0; 0; 0; 0; 0; 0; 0; 0; 0]]> new_board))
    [[0; 0; 0]; [1; 1; 1]; [0; 1; 0]] 0 17 "T" 2 0 (Some "cw"%string) true
  = Ret (Some "T-SPIN"%string, false).
Proof.
  refine (proj1 (C5_tspin_three_corner_rule
           (<[19%nat := [1; 0; 1; 1; 1; 1; 1; 1; 1; 1]]>
              (<[17%nat := [1; 0; 0; 0; 0; 0; 0; 0; 0; 0]]> new_board))
           [[0; 0; 0]; [1; 1; 1]; [0; 1; 0]] 0 17 2 0 (Some "cw"%string) _ _) _ _).
  - split; [reflexivity|]. repeat constructor.
  - lia.
  - vm_compute. discriminate.
  - reflexivity.
Defined.

End tspin.

(** ** Cancelling queued garbage *)

Section cancellation.
Implicit Types (q : list entry) (n : Z) (e : entry).

Lemma reduce_loop_cancels q n : 0 ≤ n → cancels n q (reduce_loop n q).2.
Proof.
  revert n. induction q as [|e q IH]; intros n Hn; simpl.
  - apply cancels_empty.
  - destruct (Z.gtb_spec n 0) as [Hpos|Hzero].
    + destruct (Z.leb_spec (e_lines e) n) as [Hle|Hgt].
      * apply cancels_whole; [lia|done|]. apply IH. lia.
      * simpl. apply cancels_shrink; lia.
    + assert (n = 0) as -> by lia. apply cancels_exhausted.
Qed.

Lemma cancels_deterministic n q q1 q2 : cancels n q q1 → cancels n q q2 → q1 = q2.
Proof.
  intros H1. revert q2.
  induction H1 as [q|n|n e q q' Hn Hle H1 IH|n e q Hn Hlt]; intros q2 H2.
  - inversion H2; subst; try done; lia.
  - by inversion H2.
  - inversion H2; subst; try lia. by apply IH.
  - inversion H2; subst; try lia. done.
Qed.

Lemma reduce_garbage_queue_loop q n :
  1 ≤ n → reduce_garbage_queue n q = extend_buffer n <$> (reduce_loop n q).2.
Proof.
  intros Hn. unfold reduce_garbage_queue.
  destruct (Z.leb_spec n 0); [lia|]. simpl.
  case_bool_decide as Hq; [by subst|done].
Qed.

(** C8: for every garbage queue and every [n >= 1], [reduce_garbage_queue]
    subtracts [n] from the front of the queue (whole entries of at most the
    remaining amount are removed, the first larger entry is shrunk, until
    [n] is used up or the queue is empty) and then adds [n] to the
    [buffer_pieces] of every entry that remains. In particular
    [[(3, b1), (2, b2)]] becomes [[(1, b2 + 4)]] after a 4-line clear. *)
Theorem C8_reduce_garbage_queue q n :
  1 ≤ n →
  (∃ q', cancels n q q'
         ∧ (∀ q'', cancels n q q'' → q'' = q')
         ∧ reduce_garbage_queue n q = extend_buffer n <$> q')
  ∧ (∀ b1 b2 s1 s2,
       reduce_garbage_queue 4 [Entry 3 b1 s1; Entry 2 b2 s2]
       = [Entry 1 (b2 + 4) s2]).
Proof.
  intros Hn. split; [|done].
  exists (reduce_loop n q).2.
  pose proof (reduce_loop_cancels q n ltac:(lia)) as Hc. split_and!; [done| |].
  - intros q'' Hc'. by apply (cancels_deterministic n q).
  - by apply reduce_garbage_queue_loop.
Qed.

Lemma C8_reduce_garbage_queue_witness :
  (∃ q', cancels 2 [Entry 1 3 "a"; Entry 4 2 "b"; Entry 1 3 "c"]%string q'
         ∧ (∀ q'', cancels 2 [Entry 1 3 "a"; Entry 4 2 "b"; Entry 1 3 "c"]%string q''
                   → q'' = q')
         ∧ reduce_garbage_queue 2 [Entry 1 3 "a"; Entry 4 2 "b"; Entry 1 3 "c"]%string
           = extend_buffer 2 <$> q')
  ∧ (∀ b1 b2 s1 s2,
       reduce_garbage_queue 4 [Entry 3 b1 s1; Entry 2 b2 s2]
       = [Entry 1 (b2 + 4) s2]).
Proof.
  apply (C8_reduce_garbage_queue [Entry 1 3 "a"; Entry 4 2 "b"; Entry 1 3 "c"]%string 2).
  lia.
Defined.

End cancellation.

(** ** Incoming garbage *)

Section incoming.
Implicit Types (p : string) (ledger : gmap string Z) (q : list entry)
  (scan : list (string * peer_state)) (gl : list (Z * string)).

Lemma credited_app p gl1 gl2 : credited p (gl1 ++ gl2) = credited p gl1 + credited p gl2.
Proof.
  induction gl1 as [|g gl1 IH]; simpl; [done|]. rewrite IH. case_bool_decide; lia.
Qed.

Lemma lines_from_app p q1 q2 : lines_from p (q1 ++ q2) = lines_from p q1 + lines_from p q2.
Proof.
  induction q1 as [|e q1 IH]; simpl; [done|]. rewrite IH. case_bool_decide; lia.
Qed.

(** The loop only appends to the list it returns. *)
Lemma incoming_fold_app scan gl ledger :
  fold_left incoming_step scan (gl, ledger)
  = (gl ++ (fold_left incoming_step scan ([], ledger)).1,
     (fold_left incoming_step scan ([], ledger)).2).
Proof.
  revert gl ledger. induction scan as [|[pl st] scan IH]; intros gl ledger; simpl.
  - by rewrite app_nil_r.
  - destruct (default false (ps_is_dead st)); [apply IH|].
    destruct (_ >? _); [|apply IH].
    rewrite IH. rewrite (IH [_]). simpl. by rewrite <- app_assoc.
Qed.

Lemma process_incoming_garbage_cons pl st scan ledger :
  process_incoming_garbage ((pl, st) :: scan) ledger
  = ((incoming_step ([], ledger) (pl, st)).1
       ++ (process_incoming_garbage scan (incoming_step ([], ledger) (pl, st)).2).1,
     (process_incoming_garbage scan (incoming_step ([], ledger) (pl, st)).2).2).
Proof.
  unfold process_incoming_garbage. cbn [fold_left].
  destruct (incoming_step ([], ledger) (pl, st)) as [g1 l1]. apply incoming_fold_app.
Qed.

(** Every amount in the returned list is positive. *)
Lemma process_incoming_garbage_positive scan ledger :
  Forall (λ g, 0 < g.1) (process_incoming_garbage scan ledger).1.
Proof.
  revert ledger. induction scan as [|[pl st] scan IH]; intros ledger.
  - constructor.
  - rewrite process_incoming_garbage_cons. cbn [fst].
    apply Forall_app. split; [|apply IH]. simpl.
    destruct (default false (ps_is_dead st)); [constructor|].
    destruct (Z.gtb_spec (default 0 (ps_cumulative_garbage st))
                (default 0 (ledger !! pl))); [|constructor].
    apply Forall_singleton. simpl. lia.
Qed.

(** A peer that is not in the scan gets nothing and keeps its entry. *)
Lemma process_incoming_garbage_absent p scan ledger :
  p ∉ fst <$> scan →
  credited p (process_incoming_garbage scan ledger).1 = 0
  ∧ (process_incoming_garbage scan ledger).2 !! p = ledger !! p.
Proof.
  revert ledger. induction scan as [|[pl st] scan IH]; intros ledger Hp; [done|].
  rewrite fmap_cons, not_elem_of_cons in Hp. destruct Hp as [Hne Hp]. simpl in Hne.
  rewrite process_incoming_garbage_cons. cbn [fst snd]. rewrite credited_app.
  destruct (IH (incoming_step ([], ledger) (pl, st)).2 Hp) as [-> ->].
  simpl. destruct (default false (ps_is_dead st)); [done|].
  destruct (_ >? _); [|done]. simpl.
  rewrite bool_decide_eq_false_2 by done. by rewrite lookup_insert_ne.
Qed.

(** One call on a scan that shows [p] alive with counter [c]: the amount
    attributed to [p] is the advance of [c] over the ledger value, if any,
    and the ledger moves to the larger of the two. *)
Lemma process_incoming_garbage_observed p c scan ledger :
  observes p c scan →
  credited p (process_incoming_garbage scan ledger).1
  = Z.max 0 (c - ledger_value ledger p)
  ∧ ledger_value (process_incoming_garbage scan ledger).2 p
    = Z.max (ledger_value ledger p) c
  ∧ (c ≤ ledger_value ledger p →
     (process_incoming_garbage scan ledger).2 !! p = ledger !! p).
Proof.
  intros (Hnd & st & Hin & Halive & Hc). revert ledger Hnd Hin.
  induction scan as [|[pl st'] scan IH]; intros ledger Hnd Hin;
    [by apply elem_of_nil in Hin|].
  rewrite fmap_cons in Hnd. apply NoDup_cons in Hnd as [Hfresh Hnd].
  rewrite process_incoming_garbage_cons. cbn [fst snd]. rewrite credited_app.
  apply elem_of_cons in Hin as [[= <- <-]|Hin].
  - destruct (process_incoming_garbage_absent p scan
                (incoming_step ([], ledger) (p, st)).2 Hfresh) as [-> Hl].
    unfold ledger_value in *. rewrite Hl. simpl. rewrite Halive, Hc.
    destruct (Z.gtb_spec c (default 0 (ledger !! p))) as [Hgt|Hle]; simpl.
    + rewrite bool_decide_eq_true_2 by done. rewrite lookup_insert_eq. simpl.
      split_and!; lia.
    + split_and!; [lia|lia|done].
  - assert (pl ≠ p) as Hne.
    { intros ->. apply Hfresh. apply list_elem_of_fmap. by exists (p, st). }
    destruct (IH (incoming_step ([], ledger) (pl, st')).2 Hnd Hin) as (-> & -> & Hl).
    assert (credited p (incoming_step ([], ledger) (pl, st')).1 = 0
            ∧ (incoming_step ([], ledger) (pl, st')).2 !! p = ledger !! p) as [-> Hsame].
    { simpl. destruct (default false (ps_is_dead st')); [done|].
      destruct (_ >? _); [|done]. simpl.
      rewrite bool_decide_eq_false_2 by done. by rewrite lookup_insert_ne. }
    unfold ledger_value in *. rewrite Hsame in *. split_and!; [lia|done|].
    intros Hle. by rewrite Hl.
Qed.

(** Queueing a list of positive amounts adds, for each sender, what the
    list attributes to it. *)
Lemma queue_all_lines_from p gl q :
  Forall (λ g, 0 < g.1) gl →
  lines_from p (fold_left (λ q (g : Z * string), queue_garbage g.1 g.2 q) gl q)
  = lines_from p q + credited p gl.
Proof.
  intros Hpos. revert q. induction Hpos as [|[amount sender] gl Hg Hpos IH]; intros q.
  - simpl. lia.
  - simpl in *. rewrite IH. unfold queue_garbage.
    destruct (Z.leb_spec amount 0); [lia|].
    rewrite lines_from_app. simpl. case_bool_decide; lia.
Qed.

Lemma read_garbage_observed p c scan ledger q :
  observes p c scan →
  lines_from p (read_garbage scan (ledger, q)).2
  = lines_from p q + Z.max 0 (c - ledger_value ledger p)
  ∧ ledger_value (read_garbage scan (ledger, q)).1 p = Z.max (ledger_value ledger p) c.
Proof.
  intros Hobs. unfold read_garbage. cbn [fst snd].
  pose proof (process_incoming_garbage_observed p c scan ledger Hobs) as (Hcr & Hl & _).
  pose proof (process_incoming_garbage_positive scan ledger) as Hpos.
  destruct (process_incoming_garbage scan ledger) as [gl ledger']. cbn [fst snd] in *.
  rewrite queue_all_lines_from by done. by rewrite Hcr.
Qed.

(** Over a sequence of scans the ledger ends at the largest counter seen
    and the queue has received the total advance. *)
Lemma read_all_observed p cs scans ledger q :
  Forall2 (observes p) cs scans →
  lines_from p (read_all scans (ledger, q)).2
  = lines_from p q + (fold_left Z.max cs (ledger_value ledger p) - ledger_value ledger p)
  ∧ ledger_value (read_all scans (ledger, q)).1 p
    = fold_left Z.max cs (ledger_value ledger p).
Proof.
  intros Hobs. revert ledger q.
  induction Hobs as [|c scan cs scans Hc Hobs IH]; intros ledger q.
  - simpl. split; [lia|done].
  - unfold read_all in *. simpl fold_left.
    destruct (read_garbage_observed p c scan ledger q Hc) as [Hq Hl].
    destruct (read_garbage scan (ledger, q)) as [ledger1 q1]. cbn [fst snd] in *.
    destruct (IH ledger1 q1) as [-> ->]. rewrite Hq, Hl.
    assert (ledger_value ledger p ≤ fold_left Z.max cs (Z.max (ledger_value ledger p) c)).
    { generalize (Z.max (ledger_value ledger p) c) (Z.le_max_l (ledger_value ledger p) c).
      clear. induction cs as [|c' cs IH]; intros m Hm; simpl; [done|].
      apply IH. lia. }
    split; [lia|done].
Qed.

Lemma fold_max_lower cs A : A ≤ fold_left Z.max cs A.
Proof.
  revert A. induction cs as [|c cs IH]; intros A; simpl; [done|].
  specialize (IH (Z.max A c)). lia.
Qed.

Lemma fold_max_elem cs A c : c ∈ cs → c ≤ fold_left Z.max cs A.
Proof.
  revert A. induction cs as [|c' cs IH]; intros A Hc; [by apply elem_of_nil in Hc|].
  simpl. apply elem_of_cons in Hc as [->|Hc]; [|by apply IH].
  pose proof (fold_max_lower cs (Z.max A c')). lia.
Qed.

Lemma fold_max_upper cs A B :
  Forall (λ c, c ≤ B) cs → A ≤ B → fold_left Z.max cs A ≤ B.
Proof.
  intros Hle. revert A. induction Hle as [|c cs Hc Hle IH]; intros A HA; simpl; [done|].
  apply IH. lia.
Qed.

Lemma fold_max_non_decreasing cs A B :
  non_decreasing cs → last cs = Some B → A < B → fold_left Z.max cs A = B.
Proof.
  intros Hmono Hlast HAB. rewrite last_lookup in Hlast.
  apply Z.le_antisymm.
  - apply fold_max_upper; [|lia].
    apply Forall_forall. intros c [i Hi]%list_elem_of_lookup.
    apply (Hmono i (pred (length cs)) c B); [|done..].
    apply lookup_lt_Some in Hi. lia.
  - apply fold_max_elem. by eapply list_elem_of_lookup_2.
Qed.

Lemma credited_zero_no_entry p gl :
  Forall (λ g, 0 < g.1) gl → credited p gl = 0 → Forall (λ g, g.2 ≠ p) gl.
Proof.
  induction 1 as [|g gl Hg Hpos IH]; simpl; [constructor|].
  assert (0 ≤ credited p gl) as Hnn.
  { clear -Hpos. induction Hpos as [|g' gl Hg' _ IH]; simpl; [done|].
    case_bool_decide; lia. }
  case_bool_decide as Hs; [lia|]. intros Hz. constructor; [done|by apply IH].
Qed.

(** C2: an observer whose ledger value for the alive peer [p] is [A]
    processes a finite sequence of scans that show [p] alive with counters
    that never decrease and end at [B], with [A < B]. Whatever the
    intermediate counters are, the garbage queue receives exactly [B - A]
    lines sent by [p]. *)
Theorem C2_garbage_exactly_once p A B ledger q cs scans :
  ledger_value ledger p = A →
  Forall2 (observes p) cs scans →
  non_decreasing cs → last cs = Some B → A < B →
  lines_from p (read_all scans (ledger, q)).2 = lines_from p q + (B - A).
Proof.
  intros HA Hobs Hmono Hlast HAB.
  destruct (read_all_observed p cs scans ledger q Hobs) as [-> _].
  rewrite HA. by rewrite (fold_max_non_decreasing cs A B).
Qed.

(** The counters 3, 7 and 12 of scenario S6, seen by an observer that has
    already received 3 lines; another peer shows up in the last scan. *)
Lemma C2_garbage_exactly_once_witness :
  lines_from "p"
    (read_all
       [[("p", PeerState (Some false) (Some 3))];
        [("p", PeerState (Some false) (Some 7))];
        [("o", PeerState (Some false) (Some 2));
         ("p", PeerState (Some false) (Some 12))]]%string
       ({["p"%string := 3]}, [])).2
  = lines_from "p" [] + (12 - 3).
Proof.
  apply (C2_garbage_exactly_once "p" 3 12 {["p"%string := 3]} [] [3; 7; 12]).
  - reflexivity.
  - constructor; [|constructor; [|constructor; [|constructor]]].
    + split; [compute_done|].
      eexists. split_and!; [left|reflexivity..].
    + split; [compute_done|].
      eexists. split_and!; [left|reflexivity..].
    + split; [compute_done|].
      eexists. split_and!; [right; left|reflexivity..].
  - intros [|[|[|i]]] [|[|[|j]]] a b Hij Ha Hb; simplify_eq/=; lia.
  - reflexivity.
  - lia.
Defined.

(** C7, as stated, fails: a counter below the remembered value leaves the
    ledger at the remembered value; it is not lowered to the new counter.
    Here the ledger holds 5 for the peer and the scanned counter is 3: the
    ledger still holds 5 afterwards. *)
Lemma C7_ledger_keeps_larger_value :
  ¬ (∀ p c scan ledger,
       observes p c scan → c < ledger_value ledger p →
       credited p (process_incoming_garbage scan ledger).1 = 0
       ∧ (process_incoming_garbage scan ledger).2 !! p = Some c).
Proof.
  intros H.
  destruct (H "p"%string 3 [("p"%string, PeerState (Some false) (Some 3))]
              {["p"%string := 5]}) as [_ Hl].
  - split; [compute_done|].
    eexists. split_and!; [left|reflexivity..].
  - vm_compute. reflexivity.
  - vm_compute in Hl. discriminate Hl.
Qed.

(** C7, amended: when a scanned alive peer state carries a counter strictly
    smaller than the remembered ledger value for that peer, processing it
    credits that peer nothing, no returned amount is negative or zero, and
    the ledger entry of the peer is left as it was. *)
Theorem C7_counter_decrease p c scan ledger :
  observes p c scan → c < ledger_value ledger p →
  credited p (process_incoming_garbage scan ledger).1 = 0
  ∧ Forall (λ g, 0 < g.1 ∧ g.2 ≠ p) (process_incoming_garbage scan ledger).1
  ∧ (process_incoming_garbage scan ledger).2 !! p = ledger !! p.
Proof.
  intros Hobs Hlt.
  destruct (process_incoming_garbage_observed p c scan ledger Hobs) as (Hcr & _ & Hl).
  pose proof (process_incoming_garbage_positive scan ledger) as Hpos.
  assert (credited p (process_incoming_garbage scan ledger).1 = 0) as Hz by lia.
  split_and!; [done| |apply Hl; lia].
  pose proof (credited_zero_no_entry p _ Hpos Hz) as Hno.
  rewrite Forall_forall in Hpos, Hno. apply Forall_forall. intros g Hg. auto.
Qed.

Lemma C7_counter_decrease_witness :
  credited "p"
    (process_incoming_garbage
       [("p", PeerState (Some false) (Some 3))]%string {["p"%string := 5]}).1 = 0
  ∧ Forall (λ g, 0 < g.1 ∧ g.2 ≠ "p"%string)
      (process_incoming_garbage
         [("p", PeerState (Some false) (Some 3))]%string {["p"%string := 5]}).1
  ∧ (process_incoming_garbage
       [("p", PeerState (Some false) (Some 3))]%string {["p"%string := 5]}).2
      !! "p"%string
    = ({["p"%string := 5]} : gmap string Z) !! "p"%string.
Proof.
  apply (C7_counter_decrease "p" 3).
  - split; [compute_done|].
    eexists. split_and!; [left|reflexivity..].
  - vm_compute. reflexivity.
Defined.

End incoming.

(** ** Pieces in play: the bag and the spawn position *)

Section pieces.
Variable shuffle : nat → list string → list string.
Hypothesis shuffle_perm : shuffles shuffle.

Lemma piece_name_cases (n : string) :
  n ∈ PIECE_NAMES →
  n = "I"%string ∨ n = "O"%string ∨ n = "T"%string ∨ n = "S"%string
  ∨ n = "Z"%string ∨ n = "J"%string ∨ n = "L"%string.
Proof.
  unfold PIECE_NAMES. rewrite !elem_of_cons, elem_of_nil. tauto. 
Qed.

(** What the tables hold for a piece name. *)
Lemma piece_tables (n : string) :
  n ∈ PIECE_NAMES →
  ∃ s color row0,
    dict_item TETROMINOES n = Ret s ∧ dict_item COLORS n = Ret color
    ∧ py_get s 0 = Ret row0 ∧ rectangular s
    ∧ shape_width s = Z.of_nat (length row0)
    ∧ WIDTH `div` 2 - Z.of_nat (length row0) `div` 2
      = (if bool_decide (n = "I"%string) then 3 else 4).
Proof.
  intros Hn.
  destruct (piece_name_cases n Hn) as [->|[->|[->|[->|[->|[->| ->]]]]]];
    (eexists _, _, _; split_and!;
     [reflexivity | reflexivity | reflexivity | repeat constructor
     | reflexivity | reflexivity ]).
Qed.

Lemma refill_bag_names k :
  refill_bag shuffle k ≠ [] ∧ Forall (λ n, n ∈ PIECE_NAMES) (refill_bag shuffle k)
  ∧ refill_bag shuffle k ≡ₚ PIECE_NAMES.
Proof.
  pose proof (shuffle_perm k (dict_keys TETROMINOES)) as Hp.
  change (dict_keys TETROMINOES) with PIECE_NAMES in Hp.
  unfold refill_bag. change (dict_keys TETROMINOES) with PIECE_NAMES.
  split_and!; [|by rewrite Hp; apply Forall_forall|done].
  intros Hnil. rewrite Hnil in Hp. by apply Permutation_nil_l in Hp.
Qed.

Lemma draw_piece bag k :
  bag ≠ [] → Forall (λ n, n ∈ PIECE_NAMES) bag →
  ∃ n rest,
    bag = n :: rest
    ∧ refill_if_empty shuffle (bag, k) = (bag, k)
    ∧ pop_front (bag, k) = Ret (n, (rest, k))
    ∧ n ∈ PIECE_NAMES
    ∧ (refill_if_empty shuffle (rest, k)).1 ≠ []
    ∧ Forall (λ n, n ∈ PIECE_NAMES) (refill_if_empty shuffle (rest, k)).1
    ∧ (∀ drawn, bag_inv shuffle drawn bag k →
         bag_inv shuffle (drawn ++ [n]) (refill_if_empty shuffle (rest, k)).1
           (refill_if_empty shuffle (rest, k)).2)
    ∧ ∃ nn, py_get (refill_if_empty shuffle (rest, k)).1 0 = Ret nn
            ∧ nn ∈ PIECE_NAMES.
Proof.
  intros Hne Hnames. destruct bag as [|n rest]; [done|].
  apply Forall_cons in Hnames as [Hn Hrest].
  exists n, rest. split_and!; [done..| | | |].
  - destruct rest; [apply refill_bag_names|done].
  - destruct rest; [apply refill_bag_names|done].
  - intros drawn Hinv. unfold bag_inv in *.
    destruct rest as [|n' rest]; unfold refill_if_empty; cbn [fst snd].
    + rewrite seq_S, fmap_app, concat_app. cbn [fmap list_fmap concat Nat.add].
      rewrite <- Hinv. by rewrite app_nil_r.
    + by rewrite <- app_assoc.
  - assert (∃ nn l, (refill_if_empty shuffle (rest, k)).1 = nn :: l ∧ nn ∈ PIECE_NAMES)
      as (nn & l & -> & Hnn).
    { destruct rest as [|n' rest]; simpl.
      - destruct (refill_bag_names k) as (Hne' & Hall & _).
        destruct (refill_bag shuffle k) as [|nn l]; [done|].
        apply Forall_cons in Hall as [? _]. eauto.
      - apply Forall_cons in Hrest as [? _]. eauto. }
    by exists nn.
Qed.


Lemma spawn_new_piece_ok board g :
  board_dims board → game_ok g →
  ∃ g' alive,
    spawn_new_piece shuffle board g = Ret (g', alive)
    ∧ game_ok g' ∧ placed g'
    ∧ ∀ drawn, bag_inv shuffle drawn (piece_bag g) (refills g) →
        bag_inv shuffle (drawn ++ [current_piece_name g']) (piece_bag g') (refills g').
Proof.
  intros Hd (Hne & Hnames & Hcur & Hheld).
  destruct (draw_piece (piece_bag g) (refills g) Hne Hnames)
    as (n & rest & Hb & Hr1 & Hpop & Hn & Hne2 & Hnames2 & Hinv & nn & Hnext & Hnn).
  destruct (piece_tables n Hn) as (s & color & row0 & Hs & Hc & H0 & Hrect & Hw & Hx).
  destruct (piece_tables nn Hnn) as (s' & color' & row0' & Hs' & _).
  unfold spawn_new_piece. rewrite Hr1, Hpop. cbn [mbind result_bind].
  rewrite Hs. cbn [mbind result_bind]. rewrite Hnext. cbn [mbind result_bind].
  rewrite Hs'. cbn [mbind result_bind]. rewrite Hc. cbn [mbind result_bind].
  rewrite H0. cbn [mbind result_bind]. rewrite collide_overlaps by done.
  cbn [mbind result_bind]. eexists _, _. split; [reflexivity|].
  split_and!; cbn; try done.
  unfold placed. cbn. by rewrite Hw.
Qed.

Lemma main_hold_ok g :
  game_ok g →
  ∃ g', main_hold shuffle g = Ret g'
        ∧ game_ok g'
        ∧ (can_hold g = true → placed g')
        ∧ ∀ drawn, bag_inv shuffle drawn (piece_bag g) (refills g) →
            bag_inv shuffle
              (drawn ++ (if draws Hold g then [current_piece_name g'] else []))
              (piece_bag g') (refills g').
Proof.
  intros (Hne & Hnames & Hcur & Hheld). unfold main_hold. cbn [draws].
  destruct (can_hold g) eqn:Hcan.
  2:{ exists g. split_and!; [done..|]. intros drawn. by rewrite app_nil_r. }
  destruct (piece_tables _ Hcur) as (sc & colc & row0c & Hsc & _).
  destruct (held_shape g) as [hs|] eqn:Hhs.
  - destruct (held_piece_name g) as [h|] eqn:Hh; [|done].
    destruct (piece_tables h Hheld) as (s & color & row0 & Hs & Hc & H0 & Hrect & Hw & Hx).
    rewrite Hs. cbn [mbind result_bind]. rewrite Hsc. cbn [mbind result_bind].
    cbn [current_piece_name shape]. rewrite Hc. cbn [mbind result_bind].
    rewrite H0. cbn [mbind result_bind]. eexists. split; [reflexivity|].
    split_and!; cbn; try done.
    + intros _. unfold placed. cbn. by rewrite Hw.
    + intros drawn. by rewrite app_nil_r.
  - destruct (draw_piece (piece_bag g) (refills g) Hne Hnames)
      as (n & rest & Hb & Hr1 & Hpop & Hn & Hne2 & Hnames2 & Hinv & nn & Hnext & Hnn).
    destruct (piece_tables n Hn) as (s & color & row0 & Hs & Hc & H0 & Hrect & Hw & Hx).
    destruct (piece_tables nn Hnn) as (s' & color' & row0' & Hs' & _).
    rewrite Hsc. cbn [mbind result_bind]. rewrite Hr1, Hpop. cbn [mbind result_bind].
    rewrite Hs. cbn [mbind result_bind]. rewrite Hnext. cbn [mbind result_bind].
    rewrite Hs'. cbn [mbind result_bind]. cbn [current_piece_name shape].
    rewrite Hc. cbn [mbind result_bind]. rewrite H0. cbn [mbind result_bind].
    eexists. split; [reflexivity|].
    split_and!; cbn; try done.
    intros _. unfold placed. cbn. by rewrite Hw.
Qed.

Lemma skip_empty_rows_pieces (n : string) s fuel :
  n ∈ PIECE_NAMES → dict_item TETROMINOES n = Ret s → (2 ≤ fuel)%nat →
  ∃ s' y', skip_empty_rows fuel s 0 = Ret (s', y') ∧ shape_width s' = shape_width s.
Proof.
  intros Hn Hs Hfuel. destruct fuel as [|[|fuel]]; [lia..|].
  destruct (piece_name_cases n Hn) as [->|[->|[->|[->|[->|[->| ->]]]]]];
    injection Hs as <-; eexists _, _; split; reflexivity.
Qed.

Lemma main_init_ok :
  ∃ g0, (∀ fuel, (2 ≤ fuel)%nat → main_init shuffle fuel = Ret g0)
        ∧ game_ok g0 ∧ placed g0
        ∧ bag_inv shuffle [current_piece_name g0] (piece_bag g0) (refills g0).
Proof.
  destruct (refill_bag_names 0) as (Hne & Hnames & _).
  destruct (draw_piece (refill_bag shuffle 0) 1 Hne Hnames)
    as (n & rest & Hb & Hr1 & Hpop & Hn & Hne2 & Hnames2 & Hinv & nn & Hnext & Hnn).
  destruct (piece_tables n Hn) as (s & color & row0 & Hs & Hc & H0 & Hrect & Hw & Hx).
  destruct (piece_tables nn Hnn) as (s' & color' & row0' & Hs' & _).
  destruct (skip_empty_rows_pieces n s 2 Hn Hs ltac:(lia)) as (s2 & y2 & Hskip & Hw2).
  eexists (Game _ _ n 0 s2 nn s' None None true color _ (-1) 0 0 None false).
  split_and!.
  - intros fuel Hfuel.
    destruct (skip_empty_rows_pieces n s fuel Hn Hs Hfuel) as (s3 & y3 & Hskip3 & _).
    assert ((s3, y3) = (s2, y2)) as [= -> ->].
    { unfold skip_empty_rows in *.
      apply (while_loop_mono 2 fuel) in Hskip; [congruence|done]. }
    unfold main_init. rewrite Hpop. cbn [mbind result_bind].
    rewrite Hs. cbn [mbind result_bind]. rewrite Hnext. cbn [mbind result_bind].
    rewrite Hs'. cbn [mbind result_bind]. rewrite Hc. cbn [mbind result_bind].
    rewrite H0. cbn [mbind result_bind]. rewrite Hskip3. cbn [mbind result_bind].
    reflexivity.
  - split_and!; cbn; done.
  - unfold placed. cbn. rewrite Hw2, Hw. done.
  - cbn. apply (Hinv []). unfold bag_inv. cbn. by rewrite app_nil_r.
Qed.

Lemma spawned_ok evs g :
  game_ok g → Forall event_ok evs →
  ∃ l, spawned shuffle evs g = Ret l
       ∧ ∀ drawn, bag_inv shuffle drawn (piece_bag g) (refills g) →
           ∃ bag k, bag_inv shuffle (drawn ++ l) bag k.
Proof.
  intros Hok Hevs. revert g Hok.
  induction Hevs as [|ev evs Hev Hevs IH]; intros g Hok.
  - exists []. split; [done|]. intros drawn Hinv. rewrite app_nil_r. eauto.
  - assert (∃ g', play shuffle ev g = Ret g' ∧ game_ok g'
             ∧ ∀ drawn, bag_inv shuffle drawn (piece_bag g) (refills g) →
                 bag_inv shuffle
                   (drawn ++ (if draws ev g then [current_piece_name g'] else []))
                   (piece_bag g') (refills g')) as (g' & Hplay & Hok' & Hstep).
    { destruct ev as [board|]; cbn [play draws].
      - destruct (spawn_new_piece_ok board g Hev Hok) as (g' & alive & -> & ? & _ & ?).
        by exists g'.
      - destruct (main_hold_ok g Hok) as (g' & -> & ? & _ & ?). by exists g'. }
    destruct (IH g' Hok') as (l & Hl & Hfinal).
    cbn [spawned]. rewrite Hplay. cbn [mbind result_bind]. rewrite Hl.
    cbn [mbind result_bind]. eexists. split; [reflexivity|].
    intros drawn Hinv. destruct (Hfinal _ (Hstep drawn Hinv)) as (bag & k & Hbk).
    exists bag, k. rewrite <- app_assoc in Hbk. by destruct (draws ev g).
Qed.

Lemma concat_block {A} (blocks : list (list A)) (n j : nat) (b : list A) :
  Forall (λ b, length b = n) blocks → blocks !! j = Some b →
  take n (drop (n * j) (concat blocks)) = b.
Proof.
  intros Hlen. revert j. induction Hlen as [|b0 blocks Hb0 Hlen IH]; intros j Hj; [done|].
  cbn [concat]. destruct j as [|j].
  - injection Hj as ->. rewrite Nat.mul_0_r, drop_0. by rewrite take_app_length'.
  - replace (n * S j)%nat with (length b0 + n * j)%nat by lia.
    rewrite drop_app_add'; [|done]. by apply IH.
Qed.

Lemma concat_blocks_length {A} (blocks : list (list A)) (n : nat) :
  Forall (λ b, length b = n) blocks → length (concat blocks) = (n * length blocks)%nat.
Proof.
  induction 1 as [|b blocks Hb _ IH]; cbn [concat length]; [lia|].
  rewrite length_app, IH. lia.
Qed.

Lemma bag_windows (s bag : list string) k j :
  bag_inv shuffle s bag k → (7 * j + 7 ≤ length s)%nat →
  window (7 * j) 7 s ≡ₚ PIECE_NAMES.
Proof.
  intros Hinv Hj. unfold window, bag_inv in *.
  assert (Forall (λ b : list string, length b = 7%nat)
            (refill_bag shuffle <$> seq 0 k)) as Hlen.
  { apply Forall_fmap, Forall_forall. intros i _. simpl.
    destruct (refill_bag_names i) as (_ & _ & Hp). by rewrite Hp. }
  assert (length (s ++ bag) = (7 * k)%nat) as Htotal.
  { rewrite Hinv, (concat_blocks_length _ 7) by done.
    by rewrite length_fmap, length_seq. }
  rewrite length_app in Htotal.
  assert (take 7 (drop (7 * j) s) = take 7 (drop (7 * j) (s ++ bag))) as ->.
  { rewrite drop_app_le by lia. rewrite take_app_le; [done|]. rewrite length_drop. lia. }
  rewrite Hinv. rewrite (concat_block _ 7 j (refill_bag shuffle j)); [|done|].
  - apply refill_bag_names.
  - rewrite list_lookup_fmap, lookup_seq_lt by lia. done.
Qed.

End pieces.

(** C3, amended: on every spawn of an active piece (the first spawn, the
    spawn after a lock and the re-spawn after a hold) the code returns and
    the piece is at [x = WIDTH / 2 - shape_width / 2] (both integer
    divisions) and [y = -1]; that is column 3 for I and column 4 for O, T,
    S, Z, J and L. *)
Theorem C3_spawn_position (shuffle : nat → list string → list string) :
  shuffles shuffle →
  (∃ g0, (∀ fuel, (2 ≤ fuel)%nat → main_init shuffle fuel = Ret g0)
         ∧ game_ok g0 ∧ placed g0)
  ∧ (∀ board g, board_dims board → game_ok g →
       ∃ g' alive, spawn_new_piece shuffle board g = Ret (g', alive)
                   ∧ game_ok g' ∧ placed g')
  ∧ (∀ g, game_ok g → can_hold g = true →
       ∃ g', main_hold shuffle g = Ret g' ∧ game_ok g' ∧ placed g').
Proof.
  intros Hshuffle. split_and!.
  - destruct (main_init_ok shuffle Hshuffle) as (g0 & Hinit & Hok & Hplaced & _).
    by exists g0.
  - intros board g Hd Hok.
    destruct (spawn_new_piece_ok shuffle Hshuffle board g Hd Hok)
      as (g' & alive & Hs & Hok' & Hp & _).
    by exists g', alive.
  - intros g Hok Hcan.
    destruct (main_hold_ok shuffle Hshuffle g Hok) as (g' & Hh & Hok' & Hp & _).
    exists g'. auto.
Qed.

(** C4, amended: at every point of a game, the pieces taken from the front
    of the bag (by the first spawn, by the spawns after a lock and by a hold
    with an empty hold slot), cut into consecutive groups of seven from the
    first piece on, have each of the seven names exactly once in every
    complete group. *)
Theorem C4_seven_bag (shuffle : nat → list string → list string) (evs : list event) :
  shuffles shuffle →
  Forall event_ok evs →
  ∃ g0 l,
    (∀ fuel, (2 ≤ fuel)%nat → main_init shuffle fuel = Ret g0)
    ∧ spawned shuffle evs g0 = Ret l
    ∧ ∀ k, (7 * k + 7 ≤ length (current_piece_name g0 :: l))%nat →
        window (7 * k) 7 (current_piece_name g0 :: l) ≡ₚ PIECE_NAMES.
Proof.
  intros Hshuffle Hevs.
  destruct (main_init_ok shuffle Hshuffle) as (g0 & Hinit & Hok & _ & Hbag).
  destruct (spawned_ok shuffle Hshuffle evs g0 Hok Hevs) as (l & Hl & Hfinal).
  exists g0, l. split_and!; [done..|].
  intros k Hk. destruct (Hfinal _ Hbag) as (bag & n & Hinv).
  by apply (bag_windows shuffle Hshuffle _ bag n).
Qed.

(** C3, as stated, fails: a three-wide piece is put at column 4, while
    [(WIDTH - 3) / 2] is 3. Here the first piece of the game is an L. *)
Lemma C3_three_wide_pieces_off_centre :
  ¬ (∀ shuffle, shuffles shuffle →
       ∀ fuel g0, main_init shuffle fuel = Ret g0 → centred g0).
Proof.
  intros H.
  assert (shuffles (λ _ l, reverse l)) as Hs.
  { intros k l. apply reverse_Permutation. }
  pose proof (H _ Hs 2%nat) as H2. vm_compute in H2.
  destruct (H2 _ eq_refl) as [Hx _]. discriminate Hx.
Qed.

(** C4, as stated, fails: a window of seven pieces that starts inside one
    bag and ends in the next can hold a name twice. Here the first bag is
    I O T S Z J L and the second starts with L. *)
Lemma C4_window_across_bags :
  ¬ (∀ shuffle evs fuel g0 l,
       shuffles shuffle → main_init shuffle fuel = Ret g0 →
       spawned shuffle evs g0 = Ret l →
       ∀ i, (i + 7 ≤ length (current_piece_name g0 :: l))%nat →
         window i 7 (current_piece_name g0 :: l) ≡ₚ PIECE_NAMES).
Proof.
  intros H.
  set (sh := λ (k : nat) (l : list string), if (k =? 1)%nat then reverse l else l).
  assert (shuffles sh) as Hs.
  { intros k l. unfold sh. destruct (k =? 1)%nat; [apply reverse_Permutation|done]. }
  destruct (main_init sh 2) as [g0| |] eqn:Hg0; [|by vm_compute in Hg0..].
  destruct (spawned sh (replicate 7 (Spawn new_board)) g0) as [l| |] eqn:Hl;
    [|vm_compute in Hg0; injection Hg0 as <-; by vm_compute in Hl..].
  pose proof (H sh _ 2%nat g0 l Hs Hg0 Hl 1%nat) as Hp.
  vm_compute in Hg0. injection Hg0 as <-. vm_compute in Hl. injection Hl as <-.
  vm_compute in Hp. specialize (Hp ltac:(repeat constructor)).
  assert ("I"%string ∈ ["O"; "T"; "S"; "Z"; "J"; "L"; "L"]%string) as Hin.
  { rewrite Hp. left. }
  repeat (apply elem_of_cons in Hin as [Hin|Hin]; [discriminate Hin|]).
  by apply elem_of_nil in Hin.
Qed.

Lemma C3_spawn_position_witness :
  (∃ g0, (∀ fuel, (2 ≤ fuel)%nat → main_init (λ _ l, l) fuel = Ret g0)
         ∧ game_ok g0 ∧ placed g0)
  ∧ (∀ board g, board_dims board → game_ok g →
       ∃ g' alive, spawn_new_piece (λ _ l, l) board g = Ret (g', alive)
                   ∧ game_ok g' ∧ placed g')
  ∧ (∀ g, game_ok g → can_hold g = true →
       ∃ g', main_hold (λ _ l, l) g = Ret g' ∧ game_ok g' ∧ placed g').
Proof.
  apply (C3_spawn_position (λ _ l, l)). intros k l. reflexivity.
Defined.

Lemma C4_seven_bag_witness :
  ∃ g0 l,
    (∀ fuel, (2 ≤ fuel)%nat → main_init (λ _ l, l) fuel = Ret g0)
    ∧ spawned (λ _ l, l) (Hold :: replicate 7 (Spawn new_board)) g0 = Ret l
    ∧ ∀ k, (7 * k + 7 ≤ length (current_piece_name g0 :: l))%nat →
        window (7 * k) 7 (current_piece_name g0 :: l) ≡ₚ PIECE_NAMES.
Proof.
  apply (C4_seven_bag (λ _ l, l)).
  - intros k l. reflexivity.
  - repeat constructor.
Defined.

(** ** State codec *)

Section base64.
Import Base64.

(** The URL-safe character of every sextet is an ASCII character other
    than the pad, and decodes to the sextet. *)
Lemma sextet_table :
  forallb (λ n,
    let ch := urlsafe_encode_translation (b2a n) in
    negb (bool_decide (ch = "="%char))
    && (nat_of_ascii ch <? 128)%nat
    && bool_decide (a2b (urlsafe_decode_translation ch) = Some n)) (range 64) = true.
Proof. by vm_compute. Qed.

Lemma sextet_char n :
  0 ≤ n < 64 →
  urlsafe_encode_translation (b2a n) ≠ "="%char
  ∧ (nat_of_ascii (urlsafe_encode_translation (b2a n)) <? 128)%nat = true
  ∧ a2b (urlsafe_decode_translation (urlsafe_encode_translation (b2a n))) = Some n.
Proof.
  intros Hn. pose proof sextet_table as Ht. rewrite forallb_forall in Ht.
  specialize (Ht n). cbv zeta in Ht.
  rewrite !andb_true_iff, negb_true_iff in Ht.
  destruct Ht as [[H1 H2] H3]; [apply list_elem_of_In, elem_of_range; lia|].
  apply bool_decide_eq_false in H1. apply bool_decide_eq_true in H3. done.
Qed.

(** How three bytes are spread over four sextets, and gathered again. *)
Lemma sextets_first :
  forallb (λ a, forallb (λ b,
    let s1 := Z.shiftr a 2 in
    let s2 := Z.lor (Z.shiftl (Z.land a 3) 4) (Z.shiftr b 4) in
    (s1 <? 64) && (s2 <? 64) && (0 <=? s1) && (0 <=? s2)
    && (Z.lor (Z.shiftl s1 2) (Z.shiftr s2 4) =? a)
    && (Z.land s2 15 =? Z.shiftr b 4)) (range 256)) (range 256) = true.
Proof. by vm_compute. Qed.

Lemma sextets_second :
  forallb (λ b, forallb (λ c,
    let s3 := Z.lor (Z.shiftl (Z.land b 15) 2) (Z.shiftr c 6) in
    let s4 := Z.land c 63 in
    (s3 <? 64) && (s4 <? 64) && (0 <=? s3) && (0 <=? s4)
    && (Z.lor (Z.shiftl (Z.shiftr b 4) 4) (Z.shiftr s3 2) =? b)
    && (Z.lor (Z.shiftl (Z.land s3 3) 6) s4 =? c)) (range 256)) (range 256) = true.
Proof. by vm_compute. Qed.

Lemma sextets_of_bytes a b c :
  byte a → byte b → byte c →
  let s1 := Z.shiftr a 2 in
  let s2 := Z.lor (Z.shiftl (Z.land a 3) 4) (Z.shiftr b 4) in
  let s3 := Z.lor (Z.shiftl (Z.land b 15) 2) (Z.shiftr c 6) in
  let s4 := Z.land c 63 in
  (0 ≤ s1 < 64 ∧ 0 ≤ s2 < 64 ∧ 0 ≤ s3 < 64 ∧ 0 ≤ s4 < 64)
  ∧ Z.lor (Z.shiftl s1 2) (Z.shiftr s2 4) = a
  ∧ Z.lor (Z.shiftl (Z.land s2 15) 4) (Z.shiftr s3 2) = b
  ∧ Z.lor (Z.shiftl (Z.land s3 3) 6) s4 = c.
Proof.
  intros Ha Hb Hc.
  pose proof sextets_first as H1. pose proof sextets_second as H2.
  rewrite forallb_forall in H1, H2.
  specialize (H1 a ltac:(apply list_elem_of_In, elem_of_range; unfold byte in *; lia)).
  specialize (H2 b ltac:(apply list_elem_of_In, elem_of_range; unfold byte in *; lia)).
  rewrite forallb_forall in H1, H2.
  specialize (H1 b ltac:(apply list_elem_of_In, elem_of_range; unfold byte in *; lia)).
  specialize (H2 c ltac:(apply list_elem_of_In, elem_of_range; unfold byte in *; lia)).
  cbv zeta in *. rewrite !andb_true_iff in H1, H2.
  destruct H1 as [[[[[? ?] ?] ?] E1] E2], H2 as [[[[[? ?] ?] ?] E3] E4].
  apply Z.eqb_eq in E1, E2, E3, E4. rewrite E2.
  split_and!; try done; lia.
Qed.

(** One step of the parser on the character of a sextet. *)
Lemma a2b_base64_sextet n data quad_pos leftchar pads out :
  0 ≤ n < 64 →
  a2b_base64
    (urlsafe_decode_translation (urlsafe_encode_translation (b2a n)) :: data)
    quad_pos leftchar pads out
  = if quad_pos =? 0 then a2b_base64 data 1 n 0 out
    else if quad_pos =? 1 then
      a2b_base64 data 2 (Z.land n 15) 0
        (out ++ [Z.lor (Z.shiftl leftchar 2) (Z.shiftr n 4)])
    else if quad_pos =? 2 then
      a2b_base64 data 3 (Z.land n 3) 0
        (out ++ [Z.lor (Z.shiftl leftchar 4) (Z.shiftr n 2)])
    else a2b_base64 data 0 0 0 (out ++ [Z.lor (Z.shiftl leftchar 6) n]).
Proof.
  intros Hn. destruct (sextet_char n Hn) as (Hpad & _ & Hdec).
  cbn [a2b_base64]. rewrite Hdec.
  rewrite bool_decide_eq_false_2; [done|].
  intros Heq. 
  assert (a2b "="%char = Some n) as Habs by (by rewrite <- Heq).
  vm_compute in Habs. discriminate.
Qed.

Lemma b64_roundtrip (k : nat) : ∀ bs out,
  length bs = (3 * k)%nat → Forall byte bs →
  a2b_base64 (urlsafe_decode_translation <$> urlsafe_b64encode bs) 0 0 0 out
  = Some (out ++ bs).
Proof.
  induction k as [|k IH]; intros bs out Hlen Hbytes.
  - destruct bs; [|done]. cbn. by rewrite app_nil_r.
  - destruct bs as [|a [|b [|c bs]]]; simpl in Hlen; try lia.
    apply Forall_cons in Hbytes as [Ha Hbytes].
    apply Forall_cons in Hbytes as [Hb Hbytes].
    apply Forall_cons in Hbytes as [Hc Hbytes].
    destruct (sextets_of_bytes a b c Ha Hb Hc) as ((R1 & R2 & R3 & R4) & E1 & E2 & E3).
    unfold urlsafe_b64encode in *. cbn [b64encode fmap list_fmap].
    rewrite (a2b_base64_sextet _ _ 0) by done. cbn [Z.eqb].
    rewrite (a2b_base64_sextet _ _ 1) by done. cbn [Z.eqb Pos.eqb].
    rewrite (a2b_base64_sextet _ _ 2) by done. cbn [Z.eqb Pos.eqb].
    rewrite (a2b_base64_sextet _ _ 3) by done. cbn [Z.eqb Pos.eqb].
    rewrite E1, E2, E3. rewrite IH by (done || lia).
    by rewrite <- !app_assoc.
Qed.

Lemma b64encode_length (k : nat) : ∀ bs,
  length bs = (3 * k)%nat → length (b64encode bs) = (4 * k)%nat.
Proof.
  induction k as [|k IH]; intros bs Hlen.
  - by destruct bs.
  - destruct bs as [|a [|b [|c bs]]]; simpl in Hlen; try lia.
    cbn [b64encode length]. rewrite IH by lia. lia.
Qed.

Lemma b64encode_chars (k : nat) : ∀ bs,
  length bs = (3 * k)%nat → Forall byte bs →
  Forall (λ ch, ch ≠ "="%char ∧ (nat_of_ascii ch <? 128)%nat = true)
    (urlsafe_b64encode bs).
Proof.
  induction k as [|k IH]; intros bs Hlen Hbytes.
  - destruct bs; [constructor|done].
  - destruct bs as [|a [|b [|c bs]]]; simpl in Hlen; try lia.
    apply Forall_cons in Hbytes as [Ha Hbytes].
    apply Forall_cons in Hbytes as [Hb Hbytes].
    apply Forall_cons in Hbytes as [Hc Hbytes].
    destruct (sextets_of_bytes a b c Ha Hb Hc) as ((R1 & R2 & R3 & R4) & _).
    unfold urlsafe_b64encode in *. cbn [b64encode fmap list_fmap].
    apply Forall_cons; split; [by destruct (sextet_char _ R1) as (? & ? & _)|].
    apply Forall_cons; split; [by destruct (sextet_char _ R2) as (? & ? & _)|].
    apply Forall_cons; split; [by destruct (sextet_char _ R3) as (? & ? & _)|].
    apply Forall_cons; split; [by destruct (sextet_char _ R4) as (? & ? & _)|].
    apply IH; [lia|done].
Qed.

Lemma rstrip_pad_id (s : list ascii) :
  Forall (λ ch, ch ≠ "="%char) s → rstrip_pad s = s.
Proof.
  intros Hs. unfold rstrip_pad.
  assert (drop_while (λ ch, bool_decide (ch = "="%char)) (reverse s) = reverse s) as ->.
  { apply Forall_reverse in Hs. destruct Hs as [|ch l Hch _]; [done|].
    simpl. by rewrite bool_decide_eq_false_2. }
  apply reverse_involutive.
Qed.

(** Bytes in groups of three survive the trip through the file name. *)
Lemma urlsafe_b64_roundtrip (k : nat) bs :
  length bs = (3 * k)%nat → Forall byte bs →
  let encoded := rstrip_pad (urlsafe_b64encode bs) in
  length encoded = (4 * k)%nat
  ∧ urlsafe_b64decode encoded = Some bs.
Proof.
  intros Hlen Hbytes.
  pose proof (b64encode_chars k bs Hlen Hbytes) as Hchars.
  cbv zeta. rewrite rstrip_pad_id.
  2:{ eapply Forall_impl; [exact Hchars|]. by intros ch [? _]. }
  split.
  - unfold urlsafe_b64encode. rewrite length_fmap. by apply b64encode_length.
  - unfold urlsafe_b64decode.
    assert (forallb (λ ch, (nat_of_ascii ch <? 128)%nat) (urlsafe_b64encode bs) = true)
      as ->.
    { apply forallb_forall. intros ch Hch%list_elem_of_In.
      rewrite Forall_forall in Hchars. by apply Hchars. }
    by rewrite (b64_roundtrip k).
Qed.
End base64.

Section packing.
Implicit Types (bits : list Z).

Lemma fold_left_ext_in {A B} (f g : A → B → A) (l : list B) (a : A) :
  (∀ acc j, j ∈ l → f acc j = g acc j) → fold_left f l a = fold_left g l a.
Proof.
  revert a. induction l as [|j l IH]; intros a Hfg; [done|].
  cbn [fold_left]. rewrite Hfg by left. apply IH. intros acc j' Hj'. apply Hfg. by right.
Qed.

Lemma flat_map_fmap {A B C} (f : B → list C) (g : A → B) (l : list A) :
  flat_map f (g <$> l) = flat_map (λ a, f (g a)) l.
Proof. induction l as [|a l IH]; [done|]. cbn [fmap list_fmap flat_map]. by f_equal. Qed.

Lemma flat_map_ext_in {A B} (f g : A → list B) (l : list A) :
  (∀ a, a ∈ l → f a = g a) → flat_map f l = flat_map g l.
Proof.
  induction l as [|a l IH]; intros Hfg; [done|]. cbn [flat_map].
  rewrite Hfg by left. f_equal. apply IH. intros a' Ha'. apply Hfg. by right.
Qed.

Lemma bit_at_bit bits (m : nat) : Forall bit bits → bit (bit_at bits m).
Proof.
  intros Hb. unfold bit_at. destruct (bits !! m) as [b|] eqn:Hm; simpl; [|by left].
  rewrite Forall_forall in Hb. apply Hb. by eapply list_elem_of_lookup_2.
Qed.

(** The guard of the packing loop only skips bits that would be 0. *)
Lemma pack_byte_chunk bits (k : nat) :
  pack_byte bits (8 * Z.of_nat k)
  = fold_left (λ byte_val j,
      Z.lor byte_val (Z.shiftl (bit_at bits (8 * k + Z.to_nat j)) (7 - j)))
      (range 8) 0.
Proof.
  unfold pack_byte. apply fold_left_ext_in. intros acc j Hj%elem_of_range.
  replace (Z.to_nat (8 * Z.of_nat k + j)) with (8 * k + Z.to_nat j)%nat by lia.
  destruct (Z.ltb_spec (8 * Z.of_nat k + j) (Z.of_nat (length bits))) as [Hlt|Hge];
    [done|].
  unfold bit_at. rewrite lookup_ge_None_2 by lia. simpl.
  by rewrite Z.shiftl_0_l, Z.lor_0_r.
Qed.

(** Eight bits make a byte, and the byte gives the eight bits back. *)
Lemma byte_of_bits (B : nat → Z) :
  (∀ j, bit (B j)) →
  let v := fold_left (λ byte_val j,
             Z.lor byte_val (Z.shiftl (B (Z.to_nat j)) (7 - j))) (range 8) 0 in
  byte v ∧ (λ j, Z.land (Z.shiftr v (7 - j)) 1) <$> range 8 = B <$> seq 0 8.
Proof.
  intros HB. cbn [range fmap list_fmap seq fold_left]. 
  change (Z.to_nat (Z.of_nat 0)) with 0%nat. change (Z.to_nat (Z.of_nat 1)) with 1%nat.
  change (Z.to_nat (Z.of_nat 2)) with 2%nat. change (Z.to_nat (Z.of_nat 3)) with 3%nat.
  change (Z.to_nat (Z.of_nat 4)) with 4%nat. change (Z.to_nat (Z.of_nat 5)) with 5%nat.
  change (Z.to_nat (Z.of_nat 6)) with 6%nat. change (Z.to_nat (Z.of_nat 7)) with 7%nat.
  destruct (HB 0%nat) as [-> | ->], (HB 1%nat) as [-> | ->],
    (HB 2%nat) as [-> | ->], (HB 3%nat) as [-> | ->],
    (HB 4%nat) as [-> | ->], (HB 5%nat) as [-> | ->],
    (HB 6%nat) as [-> | ->], (HB 7%nat) as [-> | ->];
    (split; [by vm_compute | reflexivity]).
Qed.

Lemma blocks_of_8 {A} (g : nat → A) (n : nat) :
  flat_map (λ k, (λ j, g (8 * k + j)%nat) <$> seq 0 8) (seq 0 n) = g <$> seq 0 (8 * n).
Proof.
  induction n as [|n IH]; [done|].
  rewrite (seq_S n 0), flat_map_app, IH. cbn [flat_map]. rewrite app_nil_r.
  replace (8 * S n)%nat with (8 * n + 8)%nat by lia.
  rewrite seq_app, fmap_app. f_equal. cbn [Nat.add].
  replace (seq (8 * n) 8) with (Nat.add (8 * n) <$> seq 0 8)
    by (rewrite fmap_add_seq; f_equal; lia).
  by rewrite <- list_fmap_compose.
Qed.

Lemma bit_at_seq bits (n : nat) :
  (length bits ≤ n)%nat →
  bit_at bits <$> seq 0 n = bits ++ replicate (n - length bits) 0.
Proof.
  intros Hn. apply list_eq. intros i. rewrite list_lookup_fmap.
  destruct (decide (i < length bits)%nat) as [Hi|Hi].
  - rewrite lookup_seq_lt by lia. rewrite lookup_app_l by done. simpl. unfold bit_at.
    destruct (lookup_lt_is_Some_2 bits i Hi) as [b ->]. done.
  - rewrite lookup_app_r by lia. destruct (decide (i < n)%nat) as [Hin|Hin].
    + rewrite lookup_seq_lt by lia. rewrite lookup_replicate_2 by lia. simpl.
      unfold bit_at. by rewrite lookup_ge_None_2 by lia.
    + rewrite lookup_seq_ge by lia. symmetry. apply lookup_replicate_None. lia.
Qed.

(** Packing bits into bytes and unpacking them gives the bits back,
    followed by the zeros that fill the last byte; every packed value is a
    byte. *)
Lemma unpack_pack_bits bits :
  Forall bit bits →
  let n := Nat.div (length bits + 7) 8 in
  length (pack_bits bits) = n
  ∧ Forall byte (pack_bits bits)
  ∧ unpack_bits (pack_bits bits) = bits ++ replicate (8 * n - length bits) 0.
Proof.
  intros Hbits n. unfold pack_bits, range_by_8, range. fold n.
  rewrite <- !list_fmap_compose. split_and!.
  - by rewrite length_fmap, length_seq.
  - apply Forall_fmap, Forall_forall. intros k _. cbn [compose].
    rewrite pack_byte_chunk.
    apply (byte_of_bits (λ j, bit_at bits (8 * k + j))).
    intros j. by apply bit_at_bit.
  - unfold unpack_bits. rewrite flat_map_fmap.
    rewrite (flat_map_ext_in _ (λ k, (λ j, bit_at bits (8 * k + j)) <$> seq 0 8)).
    + rewrite (blocks_of_8 (bit_at bits)). apply bit_at_seq.
      pose proof (Nat.div_mod_eq (length bits + 7) 8).
      pose proof (Nat.mod_upper_bound (length bits + 7) 8). unfold n. lia.
    + intros k _. cbn [compose]. rewrite pack_byte_chunk.
      apply (byte_of_bits (λ j, bit_at bits (8 * k + j))).
      intros j. by apply bit_at_bit.
Qed.
End packing.

Section decoding.
Implicit Types (bits pre mid post : list Z).

Lemma py_get_mid {A} (pre mid post : list A) (i idx : Z) :
  idx = Z.of_nat (length pre) + i → 0 ≤ i < Z.of_nat (length mid) →
  py_get (pre ++ mid ++ post) idx = py_get mid i.
Proof.
  intros -> Hi.
  destruct (py_get_in_range mid i Hi) as (a & Ha & ->).
  destruct (py_get_in_range (pre ++ mid ++ post) (Z.of_nat (length pre) + i))
    as (a' & Ha' & ->).
  { rewrite !length_app. lia. }
  replace (Z.to_nat (Z.of_nat (length pre) + i)) with (length pre + Z.to_nat i)%nat
    in Ha' by lia.
  rewrite lookup_app_r, lookup_app_l in Ha' by lia.
  replace (length pre + Z.to_nat i - length pre)%nat with (Z.to_nat i) in Ha' by lia.
  congruence.
Qed.

Lemma for_fold_ext_in {I S} (f g : S → I → result S) (idxs : list I) (s : S) :
  (∀ s i, i ∈ idxs → f s i = g s i) → for_fold idxs f s = for_fold idxs g s.
Proof.
  revert s. induction idxs as [|i idxs IH]; intros s Hfg; [done|].
  cbn [for_fold]. rewrite Hfg by left. destruct (g s i); [|done..]. simpl.
  apply IH. intros s' j Hj. apply Hfg. by right.
Qed.

Lemma read_bits_mid pre mid post (n : nat) (idx : Z) :
  idx = Z.of_nat (length pre) → (n ≤ length mid)%nat →
  read_bits (pre ++ mid ++ post) idx n = read_bits mid 0 n.
Proof.
  intros -> Hn. unfold read_bits. apply for_fold_ext_in.
  intros acc i Hi%elem_of_range. rewrite (py_get_mid pre mid post i); [done..|lia].
Qed.

Lemma read_bits_of_3 v : 0 ≤ v ≤ 7 → read_bits (bits_of 3 v) 0 3 = Ret v.
Proof.
  intros Hv.
  assert (v ∈ range 8) as Hin by (apply elem_of_range; lia).
  revert Hin. clear. revert v. apply Forall_forall. by vm_compute; repeat constructor.
Qed.

Lemma read_bits_of_4 v : 0 ≤ v ≤ 15 → read_bits (bits_of 4 v) 0 4 = Ret v.
Proof.
  intros Hv.
  assert (v ∈ range 16) as Hin by (apply elem_of_range; lia).
  revert Hin. clear. revert v. apply Forall_forall. by vm_compute; repeat constructor.
Qed.

Lemma read_bits_of_5 v : 0 ≤ v ≤ 31 → read_bits (bits_of 5 v) 0 5 = Ret v.
Proof.
  intros Hv.
  assert (v ∈ range 32) as Hin by (apply elem_of_range; lia).
  revert Hin. clear. revert v. apply Forall_forall. by vm_compute; repeat constructor.
Qed.

Lemma length_flat_map_const {A B} (f : A → list B) (n : nat) (l : list A) :
  Forall (λ a, length (f a) = n) l → length (flat_map f l) = (n * length l)%nat.
Proof.
  induction 1 as [|a l Ha _ IH]; cbn [flat_map length]; [lia|].
  rewrite length_app, IH, Ha. lia.
Qed.

(** The loop over the cells of a row reads back the cells that were
    written, and leaves the bit index after them. *)
Lemma decode_row_cells (row : list Z) : ∀ (idxs : list Z) acc pre post,
  length idxs = length row → Forall (λ v, 0 ≤ v ≤ 8) row →
  for_fold idxs (λ (st : list Z * Z) c,
      cell_val ← read_bits
        (pre ++ flat_map (λ cell, bits_of 4 (Z.min 15 (Z.max 0 cell))) row ++ post)
        st.2 4;
      Ret (st.1 ++ [cell_val], st.2 + 4))
    (acc, Z.of_nat (length pre))
  = Ret (acc ++ row,
         Z.of_nat (length (pre ++ flat_map (λ cell, bits_of 4 (Z.min 15 (Z.max 0 cell))) row))).
Proof.
  induction row as [|v row IH]; intros idxs acc pre post Hlen Hrow.
  - destruct idxs; [|done]. cbn. by rewrite !app_nil_r.
  - destruct idxs as [|i idxs]; [done|]. injection Hlen as Hlen.
    apply Forall_cons in Hrow as [Hv Hrow].
    cbn [for_fold flat_map fst snd]. rewrite <- (app_assoc (bits_of 4 _)).
    rewrite (read_bits_mid pre (bits_of 4 _)) by done.
    replace (Z.min 15 (Z.max 0 v)) with v by lia.
    rewrite read_bits_of_4 by lia. cbn [mbind result_bind].
    replace (Z.of_nat (length pre) + 4) with (Z.of_nat (length (pre ++ bits_of 4 v)))
      by (rewrite length_app; cbn; lia).
    rewrite (app_assoc pre (bits_of 4 v)).
    rewrite (IH idxs (acc ++ [v]) (pre ++ bits_of 4 v) post Hlen Hrow).
    by rewrite <- !app_assoc.
Qed.

Lemma decode_row_written (row : list Z) pre post :
  length row = Z.to_nat WIDTH → Forall (λ v, 0 ≤ v ≤ 8) row →
  decode_row
    (pre ++ flat_map (λ cell, bits_of 4 (Z.min 15 (Z.max 0 cell))) row ++ post)
    (Z.of_nat (length pre))
  = Ret (row,
         Z.of_nat (length (pre ++ flat_map (λ cell, bits_of 4 (Z.min 15 (Z.max 0 cell))) row))).
Proof.
  intros Hlen Hrow. unfold decode_row.
  rewrite (decode_row_cells row); [done| |done].
  unfold range. by rewrite length_fmap, length_seq.
Qed.

Lemma decode_board_rows (rows : matrix) : ∀ (idxs : list Z) acc pre post,
  length idxs = length rows →
  Forall (λ row, length row = Z.to_nat WIDTH) rows →
  Forall (Forall (λ v, 0 ≤ v ≤ 8)) rows →
  for_fold idxs (λ (st : matrix * Z) r,
      '(row, bit_idx) ← decode_row
        (pre ++ flat_map (flat_map (λ cell, bits_of 4 (Z.min 15 (Z.max 0 cell)))) rows
             ++ post) st.2;
      Ret (st.1 ++ [row], bit_idx))
    (acc, Z.of_nat (length pre))
  = Ret (acc ++ rows,
         Z.of_nat (length (pre ++ flat_map (flat_map
                      (λ cell, bits_of 4 (Z.min 15 (Z.max 0 cell)))) rows))).
Proof.
  induction rows as [|row rows IH]; intros idxs acc pre post Hlen Hdims Hcells.
  - destruct idxs; [|done]. cbn. by rewrite !app_nil_r.
  - destruct idxs as [|i idxs]; [done|]. injection Hlen as Hlen.
    apply Forall_cons in Hdims as [Hrow Hdims].
    apply Forall_cons in Hcells as [Hvals Hcells].
    cbn [for_fold flat_map fst snd]. rewrite <- (app_assoc (flat_map _ row)).
    rewrite decode_row_written by done. cbn [mbind result_bind].
    rewrite (app_assoc pre (flat_map _ row)).
    rewrite (IH idxs (acc ++ [row]) _ post Hlen Hdims Hcells).
    by rewrite <- !app_assoc.
Qed.

Lemma decode_board_written (board : matrix) post :
  board_ok board →
  decode_board
    (flat_map (flat_map (λ cell, bits_of 4 (Z.min 15 (Z.max 0 cell)))) board ++ post)
  = Ret (board, 800).
Proof.
  intros [[Hlen Hdims] Hcells]. unfold decode_board.
  rewrite (decode_board_rows board _ [] [] post); [| |done..].
  - cbn [app]. do 2 f_equal.
    rewrite (length_flat_map_const _ 40).
    + rewrite Hlen. done.
    + eapply Forall_impl; [exact Hdims|]. intros row Hrow. cbn beta.
      rewrite (length_flat_map_const _ 4); [by rewrite Hrow|].
      apply Forall_forall. by intros.
  - unfold range. by rewrite length_fmap, length_seq.
Qed.

Lemma land_1_bit a : bit (Z.land a 1).
Proof.
  change 1 with (Z.ones 1) at 1. rewrite Z.land_ones by lia.
  pose proof (Z.mod_pos_bound a (2 ^ 1) ltac:(lia)). unfold bit.
  change (2 ^ 1) with 2 in *. lia.
Qed.

Lemma bits_of_bits n v : Forall bit (bits_of n v) ∧ length (bits_of n v) = n.
Proof.
  unfold bits_of. split.
  - apply Forall_fmap, Forall_forall. intros i _. apply land_1_bit.
  - unfold range. by rewrite length_fmap, length_reverse, length_fmap, length_seq.
Qed.

(** The bits that [encode_game_state] writes for a valid state. *)
Lemma encode_bits_layout board name rotation x y :
  codec_input board name rotation x y →
  encode_bits board name rotation x y
  = flat_map (flat_map (λ cell, bits_of 4 (Z.min 15 (Z.max 0 cell)))) board
    ++ bits_of 3 (index_of PIECE_NAMES name)
    ++ [Z.land (Z.shiftr rotation 1) 1; Z.land rotation 1]
    ++ bits_of 5 (x + 4) ++ bits_of 5 (y + 4).
Proof.
  intros (Hok & Hname & Hrot & Hx & Hy). unfold encode_bits.
  rewrite bool_decide_eq_true_2 by done.
  rewrite (Z.mod_small rotation 4) by lia.
  replace (Z.max 0 (Z.min 31 (x + 4))) with (x + 4) by lia.
  replace (Z.max 0 (Z.min 31 (y + 4))) with (y + 4) by lia.
  by rewrite <- !app_assoc.
Qed.

Lemma encode_bits_bits board name rotation x y :
  codec_input board name rotation x y →
  Forall bit (encode_bits board name rotation x y)
  ∧ length (encode_bits board name rotation x y) = 815%nat.
Proof.
  intros Hin. rewrite encode_bits_layout by done.
  destruct Hin as ([[Hlen Hdims] Hcells] & _). split.
  - rewrite !Forall_app. split_and!; try apply bits_of_bits.
    + apply Forall_flat_map, Forall_forall. intros row _.
      apply Forall_flat_map, Forall_forall. intros cell _. apply bits_of_bits.
    + apply Forall_cons. split; [apply land_1_bit|].
      apply Forall_singleton, land_1_bit.
  - rewrite !length_app. rewrite (length_flat_map_const _ 40).
    + rewrite Hlen. rewrite !(proj2 (bits_of_bits _ _)). done.
    + eapply Forall_impl; [exact Hdims|]. intros row Hrow. cbn beta.
      rewrite (length_flat_map_const _ 4); [by rewrite Hrow|].
      apply Forall_forall. intros cell _. apply bits_of_bits.
Qed.


Lemma py_get_at {A} (pre mid post : list A) (i : nat) (idx : Z) (a : A) :
  idx = Z.of_nat (length pre + i) → mid !! i = Some a →
  py_get (pre ++ mid ++ post) idx = Ret a.
Proof.
  intros -> Ha. rewrite (py_get_mid pre mid post (Z.of_nat i)).
  - by apply py_get_lookup.
  - lia.
  - apply lookup_lt_Some in Ha. lia.
Qed.

(** C6: for every board of 20 rows of 10 cells with values in 0..8, every
    piece name among the seven, every rotation in 0..3 and every x and y in
    -4..27, decoding the encoded state returns a state (it neither fails
    nor raises) with the same board, piece name, rotation, x and y. *)
Theorem C6_codec_round_trip board name rotation x y :
  codec_input board name rotation x y →
  ∃ d, decode_game_state (encode_game_state board name rotation x y) = Ret (Some d)
       ∧ d_board d = board ∧ d_piece_name d = name ∧ d_rotation d = rotation
       ∧ d_piece_x d = x ∧ d_piece_y d = y.
Proof.
  intros Hin.
  destruct (encode_bits_bits board name rotation x y Hin) as [Hbits Hlen].
  destruct (unpack_pack_bits _ Hbits) as (Hnb & Hbytes & Hunpack).
  rewrite Hlen in Hnb, Hunpack.
  change (Nat.div (815 + 7) 8) with (3 * 34)%nat in Hnb.
  change (replicate _ 0) with [0] in Hunpack.
  destruct (urlsafe_b64_roundtrip 34 _ Hnb Hbytes) as [Hel Hdec].
  unfold decode_game_state, encode_game_state. cbv zeta.
  rewrite Hel.
  change ((4 - Z.of_nat (4 * 34) `mod` 4) `mod` 4) with 0.
  change (replicate (Z.to_nat 0) "="%char) with (@nil ascii). rewrite app_nil_r.
  rewrite Hdec, Hunpack. rewrite length_app, Hlen.
  change (Z.of_nat (815 + length [0]) <? 815) with false. cbv iota.
  rewrite encode_bits_layout in * by done. rewrite <- !app_assoc.
  rewrite decode_board_written by apply Hin.
  cbn [mbind result_bind].
  rewrite !length_app in Hlen. rewrite !(proj2 (bits_of_bits _ _)) in Hlen.
  cbn [length] in Hlen.
  set (B := flat_map _ board) in *.
  assert (length B = 800%nat) as HB by lia.
  destruct Hin as (Hok & Hname & Hrot & Hx & Hy).
  assert (rotation = 0 ∨ rotation = 1 ∨ rotation = 2 ∨ rotation = 3) as Hrots by lia.
  pose proof (bits_of_bits 3 (index_of PIECE_NAMES name)) as [_ HS3].
  pose proof (bits_of_bits 5 (x + 4)) as [_ HX].
  pose proof (bits_of_bits 5 (y + 4)) as [_ HY].
  rewrite (app_assoc B), (app_assoc (B ++ _) [_; _]).
  rewrite (read_bits_mid (_ ++ [_; _]) (bits_of 5 (x + 4)) _ 5 (800 + 3 + 2));
    [|rewrite !length_app, HB, HS3; reflexivity|by rewrite HX].
  rewrite (app_assoc (_ ++ [_; _]) (bits_of 5 (x + 4))).
  rewrite (read_bits_mid (_ ++ bits_of 5 (x + 4)) (bits_of 5 (y + 4)) _ 5
             (800 + 3 + 2 + 5));
    [|rewrite !length_app, HB, HS3, HX; reflexivity|by rewrite HY].
  rewrite !read_bits_of_5 by lia.
  rewrite <- !app_assoc.
  destruct (piece_name_cases name Hname) as [->|[->|[->|[->|[->|[->| ->]]]]]];
    destruct Hrots as [->|[->|[->| ->]]];
    (erewrite (py_get_at B _ _ 0 800); [|by rewrite HB|reflexivity]);
    (erewrite (py_get_at B _ _ 1 (800 + 1)); [|by rewrite HB|reflexivity]);
    (erewrite (py_get_at B _ _ 2 (800 + 2)); [|by rewrite HB|reflexivity]);
    rewrite (app_assoc B);
    (erewrite (py_get_at (B ++ _) _ _ 0 (800 + 3));
       [|by rewrite length_app, HB, HS3|reflexivity]);
    (erewrite (py_get_at (B ++ _) _ _ 1 (800 + 3 + 1));
       [|by rewrite length_app, HB, HS3|reflexivity]);
    (eexists; split; [reflexivity|]; cbn; split_and!; try done; lia).
Qed.
End decoding.

Lemma C6_codec_round_trip_witness :
  ∃ d, decode_game_state (encode_game_state new_board "T" 3 (-4) 27) = Ret (Some d)
       ∧ d_board d = new_board ∧ d_piece_name d = "T"%string ∧ d_rotation d = 3
       ∧ d_piece_x d = -4 ∧ d_piece_y d = 27.
Proof.
  apply (C6_codec_round_trip new_board "T" 3 (-4) 27).
  split_and!; [apply board_ok_new | compute_done | lia..].
Defined.

(* ===================================================================== *)
(** * Part III: further properties of the code                            *)
(* ===================================================================== *)

(** ** Line clears *)

Section lines.

Lemma filter_split_length {A} (f : A → bool) (l : list A) :
  (length (List.filter f l) + length (List.filter (λ a, negb (f a)) l) = length l)%nat.
Proof. induction l as [|a l IH]; simpl; [done|]. destruct (f a); simpl; lia. Qed.

Lemma list_filter_id {A} (f : A → bool) (l : list A) :
  Forall (λ a, f a = true) l → List.filter f l = l.
Proof. induction 1 as [|a l Ha _ IH]; simpl; [done|]. by rewrite Ha, IH. Qed.

Lemma Forall_list_filter_true {A} (f : A → bool) (l : list A) :
  Forall (λ a, f a = true) (List.filter f l).
Proof.
  induction l as [|a l IH]; simpl; [constructor|].
  destruct (f a) eqn:E; [by constructor|done].
Qed.

Lemma clear_lines_rows (board : matrix) :
  Forall (λ row, all_truthy row = false) (clear_lines board).1.
Proof.
  unfold clear_lines; cbn [fst]. apply Forall_app; split.
  - by apply Forall_replicate.
  - eapply Forall_impl; [apply (Forall_list_filter_true (λ row, negb (all_truthy row)))|].
    intros row H; cbn in H. by apply negb_true_iff.
Qed.

Lemma clear_lines_cleared (board : matrix) :
  length board = Z.to_nat HEIGHT → (clear_lines board).2 = full_rows board.
Proof.
  intros Hlen. unfold clear_lines, full_rows; cbn [snd].
  pose proof (filter_split_length all_truthy board) as H.
  rewrite Hlen in H. unfold HEIGHT in *. lia.
Qed.

Lemma clear_lines_length (board : matrix) :
  length board = Z.to_nat HEIGHT → length (clear_lines board).1 = Z.to_nat HEIGHT.
Proof.
  intros Hlen. unfold clear_lines; cbn [fst].
  pose proof (filter_split_length all_truthy board) as H.
  rewrite length_app, length_replicate. unfold HEIGHT in *. lia.
Qed.

(** X1. On a board of [HEIGHT] rows, [clear_lines] reports the number of
    full rows, puts that many empty rows on top of the rows that are not
    full, kept in their order, and returns [HEIGHT] rows again. *)
Theorem clear_lines_counts_full_rows (board : matrix) :
  length board = Z.to_nat HEIGHT →
  (clear_lines board).2 = full_rows board
  ∧ (clear_lines board).1
    = replicate (Z.to_nat (full_rows board)) (replicate (Z.to_nat WIDTH) 0)
      ++ List.filter (λ row, negb (all_truthy row)) board
  ∧ length (clear_lines board).1 = Z.to_nat HEIGHT.
Proof.
  intros Hlen. split_and!.
  - by apply clear_lines_cleared.
  - rewrite <- (clear_lines_cleared board Hlen). reflexivity.
  - by apply clear_lines_length.
Qed.

Lemma clear_lines_counts_full_rows_witness :
  (clear_lines board_with_full_row).2 = full_rows board_with_full_row
  ∧ (clear_lines board_with_full_row).1
    = replicate (Z.to_nat (full_rows board_with_full_row))
        (replicate (Z.to_nat WIDTH) 0)
      ++ List.filter (λ row, negb (all_truthy row)) board_with_full_row
  ∧ length (clear_lines board_with_full_row).1 = Z.to_nat HEIGHT.
Proof. apply (clear_lines_counts_full_rows board_with_full_row). reflexivity. Defined.

Lemma clear_lines_no_full_row (board : matrix) :
  length board = Z.to_nat HEIGHT →
  Forall (λ row, all_truthy row = false) board →
  clear_lines board = (board, 0).
Proof.
  intros Hl Hno. unfold clear_lines.
  rewrite (list_filter_id (λ row, negb (all_truthy row)) board).
  2:{ eapply Forall_impl; [exact Hno|]. intros row H; cbn in *. by rewrite H. }
  rewrite Hl. rewrite Z2Nat.id by (unfold HEIGHT; lia).
  by rewrite Z.sub_diag.
Qed.

(** X2. After [clear_lines] on a board of [HEIGHT] rows no row is full,
    and a second call changes nothing and reports 0 cleared rows. *)
Theorem clear_lines_idempotent (board : matrix) :
  length board = Z.to_nat HEIGHT →
  Forall (λ row, all_truthy row = false) (clear_lines board).1
  ∧ clear_lines (clear_lines board).1 = ((clear_lines board).1, 0).
Proof.
  intros Hlen. split; [apply clear_lines_rows|].
  apply clear_lines_no_full_row; [by apply clear_lines_length|apply clear_lines_rows].
Qed.

Lemma clear_lines_idempotent_witness :
  Forall (λ row, all_truthy row = false) (clear_lines board_with_full_row).1
  ∧ clear_lines (clear_lines board_with_full_row).1
    = ((clear_lines board_with_full_row).1, 0).
Proof. apply (clear_lines_idempotent board_with_full_row). reflexivity. Defined.

End lines.

(** ** Scoring of a lock *)

Section scoring.

Lemma forallb_replicate_iff {A} (f : A → bool) (l : list A) (a : A) :
  f a = true → (∀ b, f b = true → b = a) →
  (forallb f l = true ↔ l = replicate (length l) a).
Proof.
  intros Ha Huniq. induction l as [|b l IH]; simpl; [done|].
  rewrite andb_true_iff, IH. split.
  - intros [Hb ->]. rewrite length_replicate. by rewrite (Huniq b Hb).
  - intros [= -> Hl]. by rewrite <- Hl.
Qed.

Lemma check_perfect_clear_all_empty (board : matrix) :
  check_perfect_clear board = true ↔ all_empty board.
Proof.
  unfold check_perfect_clear, all_empty.
  rewrite forallb_forall, Forall_forall.
  split; intros H row Hrow.
  - apply Forall_forall. intros v Hv.
    specialize (H row (proj1 (list_elem_of_In _ _) Hrow)).
    rewrite forallb_forall in H. specialize (H v (proj1 (list_elem_of_In _ _) Hv)).
    unfold truthy in H. apply negb_true_iff, negb_false_iff, Z.eqb_eq in H. done.
  - apply forallb_forall. intros v Hv.
    specialize (H row (proj2 (list_elem_of_In _ _) Hrow)).
    rewrite Forall_forall in H. rewrite (H v (proj2 (list_elem_of_In _ _) Hv)). done.
Qed.

(** X3. [check_perfect_clear] holds exactly when every cell is 0; on a
    board of 20 rows of 10 cells, exactly for the empty board. *)
Theorem check_perfect_clear_new_board (board : matrix) :
  board_dims board →
  (check_perfect_clear board = true ↔ board = new_board).
Proof.
  intros [Hlen Hrows]. rewrite check_perfect_clear_all_empty. split.
  - intros Hall. unfold new_board. rewrite <- Hlen.
    apply list_eq_same_length with (length board); [by rewrite length_replicate|done|].
    intros i row row' Hi Hrow Hrow'.
    apply lookup_replicate in Hrow' as [-> _].
    pose proof (Forall_lookup_1 _ _ _ _ Hrows Hrow) as Hw. cbn in Hw.
    pose proof (Forall_lookup_1 _ _ _ _ Hall Hrow) as He. cbn in He.
    rewrite <- Hw.
    apply list_eq_same_length with (length row); [by rewrite length_replicate|done|].
    intros j v v' Hj Hv Hv'. apply lookup_replicate in Hv' as [-> _].
    exact (Forall_lookup_1 _ _ _ _ He Hv).
  - intros ->. repeat constructor.
Qed.

Lemma check_perfect_clear_new_board_witness :
  check_perfect_clear new_board = true ↔ new_board = new_board.
Proof.
  apply (check_perfect_clear_new_board new_board).
  split; [reflexivity|]. repeat constructor.
Defined.

(** X4. A lock that clears no row sends nothing and leaves the
    back-to-back flag as it was, whatever the spin. *)
Theorem score_lock_without_clear (board : matrix) (cleared : Z)
    (spin_type : option string) (is_mini back_to_back : bool) :
  cleared ≤ 0 →
  score_lock board cleared spin_type is_mini back_to_back = (0, back_to_back).
Proof.
  intros Hc. unfold score_lock.
  assert ((cleared >? 0) = false) as -> by lia.
  assert ((cleared =? 4) = false) as -> by lia.
  rewrite andb_false_r, andb_false_r. cbn [orb].
  unfold calculate_garbage.
  destruct (cleared =? 0) eqn:E0; [done|].
  unfold dict_get. cbn [find fst snd].
  rewrite !(bool_decide_eq_false_2 (_ = cleared)) by lia.
  cbn [fmap option_fmap option_map default].
  by repeat case_bool_decide; destruct is_mini.
Qed.

Lemma score_lock_without_clear_witness :
  score_lock new_board 0 (Some "T-SPIN"%string) false true = (0, true).
Proof.
  apply (score_lock_without_clear new_board 0 (Some "T-SPIN"%string) false true). lia.
Defined.

(** X5. A lock that clears rows sets the back-to-back flag exactly when
    it is difficult (four rows, or a spin). The flag of the previous lock
    adds at most one line; it adds nothing when this lock is not difficult
    or the clear is a perfect clear, and one line when this lock is
    difficult, not a perfect clear, and sends something without the flag. *)
Theorem score_lock_chain (board : matrix) (cleared : Z)
    (spin_type : option string) (is_mini : bool) :
  1 ≤ cleared →
  let plain := (score_lock board cleared spin_type is_mini false).1 in
  let chained := score_lock board cleared spin_type is_mini true in
  (chained.2 = true ↔ cleared = 4 ∨ spin_type ≠ None)
  ∧ (score_lock board cleared spin_type is_mini false).2 = chained.2
  ∧ (chained.2 = false → chained.1 = plain)
  ∧ (check_perfect_clear board = true → chained.1 = plain ∧ plain = 10)
  ∧ (chained.2 = true → check_perfect_clear board = false →
     chained.1 = if plain >? 0 then plain + 1 else plain).
Proof.
  intros Hc plain chained. subst plain chained. unfold score_lock.
  assert ((cleared >? 0) = true) as -> by lia. rewrite andb_true_r.
  cbn [fst snd andb].
  split_and!.
  - rewrite orb_true_iff, Z.eqb_eq, bool_decide_eq_true. done.
  - done.
  - intros ->. done.
  - intros ->. split.
    + unfold calculate_garbage. by destruct (cleared =? 0).
    + unfold calculate_garbage. assert ((cleared =? 0) = false) as -> by lia.
      unfold dict_get. cbn [find fst snd].
      by repeat (case_bool_decide; cbn [fmap option_fmap option_map default snd]).
  - intros -> ->. unfold calculate_garbage.
    assert ((cleared =? 0) = false) as -> by lia. cbn [andb].
    done.
Qed.

(** A tetris on a board that is not left empty, after a difficult clear. *)
Lemma score_lock_chain_witness :
  (score_lock board_with_full_row 4 None false true).2 = true
  ∧ (score_lock board_with_full_row 4 None false true).1
    = (score_lock board_with_full_row 4 None false false).1 + 1.
Proof.
  destruct (score_lock_chain board_with_full_row 4 None false)
    as (Hflag & _ & _ & _ & Hbonus); [lia|].
  split; [apply Hflag; by left|].
  exact (Hbonus (proj2 Hflag (or_introl eq_refl)) eq_refl).
Defined.

(** X6. For the pieces S, Z, I, J and L [check_spin] never looks at the
    board: a lock after a rotation that needed a kick is a mini spin of
    the piece, any other is no spin; for O there is never a spin. What
    [calculate_garbage] gives for such a spin is what it gives for a
    clear without spin. *)
Theorem check_spin_all_spin (board shape : matrix) (x y : Z) (piece_name : string)
    (rotation kick_idx : Z) (rotation_direction : option string) :
  piece_name ∈ ["S"; "Z"; "I"; "J"; "L"; "O"]%string →
  ∃ spin_type is_mini,
    check_spin board shape x y piece_name rotation kick_idx rotation_direction
    = Ret (spin_type, is_mini)
    ∧ (spin_type, is_mini)
      = (if (kick_idx =? 0) || bool_decide (piece_name = "O"%string) then (None, false)
         else (Some (all_spin_name piece_name), true))
    ∧ ∀ n b2b pc,
        calculate_garbage n spin_type is_mini b2b pc
        = calculate_garbage n None false b2b pc.
Proof.
  intros Hn.
  assert (piece_name = "S" ∨ piece_name = "Z" ∨ piece_name = "I" ∨ piece_name = "J"
          ∨ piece_name = "L" ∨ piece_name = "O")%string as Hcases.
  { repeat (apply elem_of_cons in Hn as [->|Hn]; [tauto|]). by apply elem_of_nil in Hn. }
  destruct (kick_idx =? 0) eqn:Ek.
  - exists None, false. split_and!; [|done|done].
    unfold check_spin. rewrite Ek.
    destruct Hcases as [->|[->|[->|[->|[->| ->]]]]]; reflexivity.
  - destruct Hcases as [->|[->|[->|[->|[->| ->]]]]];
      [eexists _, _; (split_and!;
        [unfold check_spin; rewrite Ek; reflexivity | reflexivity |
         intros n b2b pc; unfold calculate_garbage; reflexivity]) .. |].
    exists None, false. split_and!; [reflexivity|reflexivity|done].
Qed.

Lemma check_spin_all_spin_witness :
  ∃ spin_type is_mini,
    check_spin new_board [[0; 1; 1]; [1; 1; 0]; [0; 0; 0]] 3 17 "S" 1 2 (Some "cw"%string)
    = Ret (spin_type, is_mini)
    ∧ (spin_type, is_mini)
      = (if (2 =? 0) || bool_decide ("S" = "O")%string then (None, false)
         else (Some (all_spin_name "S"), true))
    ∧ ∀ n b2b pc,
        calculate_garbage n spin_type is_mini b2b pc
        = calculate_garbage n None false b2b pc.
Proof.
  apply (check_spin_all_spin new_board [[0; 1; 1]; [1; 1; 0]; [0; 0; 0]] 3 17 "S" 1 2
           (Some "cw"%string)).
  compute_done.
Defined.

End scoring.

(** ** Counting corners *)

Section corners.
Implicit Types (board : matrix) (x y rotation : Z).

(** The step that [count_corners_filled] makes for one corner. *)
Lemma count_probe board x y dx dy (n : Z) :
  board_dims board →
  (if (x + 1 + dx <? 0) || (x + 1 + dx >=? WIDTH) || (y + 1 + dy >=? HEIGHT)
   then Ret (n + 1)
   else if y + 1 + dy <? 0 then Ret n
   else
     brow ← py_get board (y + 1 + dy); cell ← py_get brow (x + 1 + dx);
     if truthy cell then Ret (n + 1) else Ret n)
  = Ret (if corner_filled board x y (dx, dy) then n + 1 else n).
Proof.
  intros Hd. unfold corner_filled. cbn [fst snd].
  destruct ((x + 1 + dx <? 0) || (x + 1 + dx >=? WIDTH) || (y + 1 + dy >=? HEIGHT))
    eqn:Hout; [done|].
  cbn [orb].
  destruct (Z.ltb_spec (y + 1 + dy) 0) as [Hpy|Hpy].
  - by destruct (Z.geb_spec (y + 1 + dy) 0); [lia|].
  - destruct (Z.geb_spec (y + 1 + dy) 0); [|lia]. cbn [andb].
    apply orb_false_elim in Hout as [Hout Hbot].
    apply orb_false_elim in Hout as [Hleft Hright].
    destruct (board_dims_cell board (x + 1 + dx) (y + 1 + dy) Hd)
      as (brow & Hb & Hcell); [lia..|].
    rewrite Hb. cbn [mbind result_bind]. rewrite Hcell. cbn [mbind result_bind].
    by destruct (truthy _).
Qed.

(** X7. On a board of 20 rows of 10 cells [count_corners_filled], called
    with the centre of the box of a T piece, returns the number of filled
    corners that [check_tspin] counts: [check_tspin] reports a T-spin
    exactly when that number is at least 3, for every rotation value. *)
Theorem count_corners_filled_check_tspin board x y rotation :
  board_dims board →
  count_corners_filled board (x + 1) (y + 1) = Ret (corners_filled board x y)
  ∧ 0 ≤ corners_filled board x y ≤ 4
  ∧ ∃ is_mini,
      check_tspin board x y rotation
      = Ret (3 <=? corners_filled board x y, is_mini).
Proof.
  intros Hd. split; [|split].
  - unfold count_corners_filled. cbn [for_fold fst snd mbind].
    rewrite (count_probe board x y (-1) (-1) 0 Hd). cbn [mbind result_bind].
    rewrite (count_probe board x y 1 (-1) _ Hd). cbn [mbind result_bind].
    rewrite (count_probe board x y (-1) 1 _ Hd). cbn [mbind result_bind].
    rewrite (count_probe board x y 1 1 _ Hd).
    unfold corners_filled. cbn [List.filter].
    by destruct (corner_filled board x y (-1, -1)), (corner_filled board x y (1, -1)),
      (corner_filled board x y (-1, 1)), (corner_filled board x y (1, 1)).
  - unfold corners_filled. cbn [List.filter].
    destruct (corner_filled board x y (-1, -1)), (corner_filled board x y (1, -1)),
      (corner_filled board x y (-1, 1)), (corner_filled board x y (1, 1));
      cbn [length]; lia.
  - unfold check_tspin. cbn [for_fold fst snd].
    rewrite !corner_probe by done.
    unfold corners_filled. cbn [List.filter].
    destruct (corner_filled board x y (-1, -1)), (corner_filled board x y (1, -1)),
      (corner_filled board x y (-1, 1)), (corner_filled board x y (1, 1));
      cbn [mbind result_bind fst snd length]; eexists; reflexivity.
Qed.

Lemma count_corners_filled_check_tspin_witness :
  count_corners_filled
    (<[19%nat := [1; 0; 1; 1; 1; 1; 1; 1; 1; 1]]>
       (<[17%nat := [1; 0; 0; 0; 0; 0; 0; 0; 0; 0]]> new_board)) (0 + 1) (17 + 1)
  = Ret 3.
Proof.
  refine (proj1 (count_corners_filled_check_tspin
           (<[19%nat := [1; 0; 1; 1; 1; 1; 1; 1; 1; 1]]>
              (<[17%nat := [1; 0; 0; 0; 0; 0; 0; 0; 0; 0]]> new_board)) 0 17 2 _)).
  split; [reflexivity|]. repeat constructor.
Defined.

End corners.

(** ** Garbage rows and the garbage queue *)

Section garbage.
Implicit Types (board : matrix) (q : list entry).

Lemma for_fold_app {I S} (l1 l2 : list I) (body : S → I → result S) (s : S) :
  for_fold (l1 ++ l2) body s = (s' ← for_fold l1 body s; for_fold l2 body s').
Proof.
  revert s. induction l1 as [|i l1 IH]; intros s; cbn [for_fold app]; [done|].
  destruct (body s i); cbn [mbind result_bind]; [apply IH|done..].
Qed.

Lemma garbage_line_outside hole :
  ¬ (0 ≤ hole < WIDTH) → garbage_line hole = replicate (Z.to_nat WIDTH) 8.
Proof.
  intros Hh. unfold garbage_line.
  assert (∀ n, (n ≤ Z.to_nat WIDTH)%nat →
            (λ i : Z, if bool_decide (i ≠ hole) then 8 else 0) <$> range n
            = replicate n 8) as H.
  2:{ by apply H. }
  unfold range. induction n as [|n IH]; intros Hn; [done|].
  rewrite seq_S, fmap_app, fmap_app, IH, replicate_S_end by lia.
  cbn. rewrite bool_decide_eq_true_2; [done|]. unfold WIDTH in *. lia.
Qed.

Lemma garbage_line_inside hole :
  0 ≤ hole < WIDTH →
  garbage_line hole = <[Z.to_nat hole := 0]> (replicate (Z.to_nat WIDTH) 8).
Proof.
  intros Hh. unfold WIDTH in Hh.
  assert (hole = 0 ∨ hole = 1 ∨ hole = 2 ∨ hole = 3 ∨ hole = 4 ∨ hole = 5 ∨ hole = 6
          ∨ hole = 7 ∨ hole = 8 ∨ hole = 9) as Hc by lia.
  destruct Hc as [->|[->|[->|[->|[->|[->|[->|[->|[->| ->]]]]]]]]]; reflexivity.
Qed.

Lemma garbage_line_not_full hole : 0 ≤ hole < WIDTH → all_truthy (garbage_line hole) = false.
Proof.
  intros Hh. unfold WIDTH in Hh.
  assert (hole = 0 ∨ hole = 1 ∨ hole = 2 ∨ hole = 3 ∨ hole = 4 ∨ hole = 5 ∨ hole = 6
          ∨ hole = 7 ∨ hole = 8 ∨ hole = 9) as Hc by lia.
  destruct Hc as [->|[->|[->|[->|[->|[->|[->|[->|[->| ->]]]]]]]]]; reflexivity.
Qed.

(** X8. A garbage row is a row of 8s with one empty cell at the hole
    when the hole is a column of the board, as [randint(0, WIDTH - 1)]
    gives it: such a row is never full. Any other hole value would give a
    full row. *)
Theorem garbage_line_one_hole (hole : Z) :
  (0 ≤ hole < WIDTH →
     garbage_line hole = <[Z.to_nat hole := 0]> (replicate (Z.to_nat WIDTH) 8))
  ∧ (all_truthy (garbage_line hole) = false ↔ 0 ≤ hole < WIDTH).
Proof.
  split; [apply garbage_line_inside|]. split.
  - intros Hf. destruct (decide (0 ≤ hole < WIDTH)) as [|Hout]; [done|].
    by rewrite (garbage_line_outside hole Hout) in Hf.
  - apply garbage_line_not_full.
Qed.

Lemma garbage_line_one_hole_witness :
  garbage_line 4 = [8; 8; 8; 8; 0; 8; 8; 8; 8; 8]
  ∧ all_truthy (garbage_line 4) = false.
Proof.
  split.
  - apply (garbage_line_one_hole 4). unfold WIDTH. lia.
  - apply (garbage_line_one_hole 4). unfold WIDTH. lia.
Defined.

Lemma add_garbage_steps hole_at board (k : nat) :
  board ≠ [] →
  for_fold (seq 0 k) (λ b j,
    match b with
    | [] => Raise
    | _ :: b' => Ret (b' ++ [garbage_line (hole_at j)])
    end) board
  = Ret (drop k (board ++ garbage_rows hole_at k)).
Proof.
  intros Hb. induction k as [|k IH].
  - cbn. by rewrite app_nil_r.
  - rewrite seq_S, for_fold_app, IH. cbn [mbind result_bind for_fold Nat.add].
    assert (garbage_rows hole_at (S k)
            = garbage_rows hole_at k ++ [garbage_line (hole_at k)]) as ->.
    { unfold garbage_rows. by rewrite seq_S, fmap_app. }
    rewrite app_assoc.
    assert (length (board ++ garbage_rows hole_at k) = (length board + k)%nat) as Hl.
    { rewrite length_app. unfold garbage_rows. by rewrite length_fmap, length_seq. }
    assert (length board ≠ 0%nat) as Hl0 by (by destruct board).
    generalize dependent (board ++ garbage_rows hole_at k). intros L _ Hl.
    replace (S k) with (k + 1)%nat by lia.
    rewrite <- (drop_drop _ 1 k), drop_app_le by lia.
    destruct (drop k L) as [|r rest] eqn:E; [|done].
    apply (f_equal length) in E. rewrite length_drop in E. cbn in E. lia.
Qed.

Lemma add_garbage_drop hole_at board n :
  board ≠ [] →
  add_garbage hole_at board n
  = Ret (drop (Z.to_nat n) (board ++ garbage_rows hole_at (Z.to_nat n))).
Proof. intros Hb. unfold add_garbage. by apply add_garbage_steps. Qed.

(** X9. [add_garbage] on a board that has a row never fails: it drops
    the [n] top rows of the board followed by [n] garbage rows, so the
    number of rows stays; up to the height of the board the rows that are
    left move up and the garbage fills the bottom, beyond it only garbage
    is left. *)
Theorem add_garbage_shifts_board (hole_at : nat → Z) board (n : Z) :
  board ≠ [] →
  ∃ board',
    add_garbage hole_at board n = Ret board'
    ∧ board' = drop (Z.to_nat n) (board ++ garbage_rows hole_at (Z.to_nat n))
    ∧ length board' = length board
    ∧ (n ≤ Z.of_nat (length board) →
       board' = drop (Z.to_nat n) board ++ garbage_rows hole_at (Z.to_nat n))
    ∧ (Z.of_nat (length board) ≤ n →
       board' = drop (Z.to_nat n - length board) (garbage_rows hole_at (Z.to_nat n))).
Proof.
  intros Hb. eexists. split; [by apply add_garbage_drop|]. split_and!; [done| | |].
  - rewrite length_drop, length_app. unfold garbage_rows.
    rewrite length_fmap, length_seq. lia.
  - intros Hn. rewrite drop_app_le by lia. done.
  - intros Hn. rewrite drop_app_ge by lia. done.
Qed.

Lemma add_garbage_shifts_board_witness :
  ∃ board',
    add_garbage (λ k, Z.of_nat k) board_with_full_row 2 = Ret board'
    ∧ length board' = length board_with_full_row
    ∧ board' = drop (Z.to_nat 2) board_with_full_row
               ++ garbage_rows (λ k, Z.of_nat k) (Z.to_nat 2).
Proof.
  destruct (add_garbage_shifts_board (λ k, Z.of_nat k) board_with_full_row 2)
    as (board' & Hadd & _ & Hlen & Hshift & _); [discriminate|].
  exists board'. split_and!; [done|done|]. apply Hshift.
  change (2 ≤ 20). lia.
Defined.

(** X10. Garbage is not cleared on arrival: on a board of [HEIGHT] rows
    without a full row, with the holes in the columns of the board,
    [clear_lines] after [add_garbage] changes nothing and reports 0. *)
Theorem add_garbage_then_clear_lines (hole_at : nat → Z) board (n : Z) :
  length board = Z.to_nat HEIGHT →
  Forall (λ row, all_truthy row = false) board →
  (∀ k, 0 ≤ hole_at k < WIDTH) →
  ∃ board', add_garbage hole_at board n = Ret board'
            ∧ clear_lines board' = (board', 0).
Proof.
  intros Hlen Hrows Hholes.
  assert (board ≠ []) as Hb by (by destruct board).
  eexists. split; [by apply add_garbage_drop|].
  apply clear_lines_no_full_row.
  - rewrite length_drop, length_app. unfold garbage_rows.
    rewrite length_fmap, length_seq. lia.
  - apply Forall_drop, Forall_app. split; [done|].
    unfold garbage_rows. apply Forall_fmap, Forall_forall. intros k _. cbn.
    by apply garbage_line_not_full.
Qed.

Lemma add_garbage_then_clear_lines_witness :
  ∃ board', add_garbage (λ k, Z.of_nat k `mod` 10) new_board 3 = Ret board'
            ∧ clear_lines board' = (board', 0).
Proof.
  apply (add_garbage_then_clear_lines (λ k, Z.of_nat k `mod` 10) new_board 3).
  - reflexivity.
  - by apply Forall_replicate.
  - intros k. unfold WIDTH. apply Z.mod_pos_bound. lia.
Defined.

Lemma total_lines_cons e q : total_lines (e :: q) = e_lines e + total_lines q.
Proof. reflexivity. Qed.

Lemma ready_fold q (t0 : Z) (q0 : list entry) :
  fold_left (λ (acc : Z * list entry) e,
    if e_buffer e <=? 0 then (acc.1 + e_lines e, acc.2)
    else (acc.1, acc.2 ++ [e])) q (t0, q0)
  = (t0 + total_lines (List.filter (λ e, e_buffer e <=? 0) q),
     q0 ++ List.filter (λ e, 0 <? e_buffer e) q).
Proof.
  revert t0 q0. induction q as [|e q IH]; intros t0 q0; cbn [fold_left List.filter].
  - cbn. by rewrite Z.add_0_r, app_nil_r.
  - destruct (Z.leb_spec (e_buffer e) 0) as [Hb|Hb]; cbn [fst snd]; rewrite IH.
    + destruct (Z.ltb_spec 0 (e_buffer e)); [lia|]. rewrite total_lines_cons.
      f_equal. lia.
    + destruct (Z.ltb_spec 0 (e_buffer e)); [|lia]. by rewrite <- app_assoc.
Qed.

Lemma total_lines_split q (p : entry → bool) :
  total_lines q
  = total_lines (List.filter p q) + total_lines (List.filter (λ e, negb (p e)) q).
Proof.
  induction q as [|e q IH]; [done|]. cbn [List.filter].
  destruct (p e); cbn [negb]; rewrite !total_lines_cons; lia.
Qed.

Lemma list_filter_ext {A} (f g : A → bool) (l : list A) :
  (∀ a, f a = g a) → List.filter f l = List.filter g l.
Proof. intros H. induction l as [|a l IH]; cbn; [done|]. by rewrite H, IH. Qed.

Lemma apply_ready_garbage_result hole_at board q :
  board ≠ [] →
  ∃ board',
    apply_ready_garbage hole_at board q
    = Ret (board', List.filter (λ e, 0 <? e_buffer e) q,
           total_lines (List.filter (λ e, e_buffer e <=? 0) q))
    ∧ length board' = length board
    ∧ (Forall (λ e, 0 < e_buffer e) q → board' = board).
Proof.
  intros Hb. unfold apply_ready_garbage. rewrite ready_fold.
  rewrite Z.add_0_l, app_nil_l.
  set (t := total_lines _).
  destruct (t >? 0) eqn:Et.
  - rewrite (add_garbage_drop hole_at board t Hb). cbn [mbind result_bind].
    eexists. split; [done|]. split.
    + rewrite length_drop, length_app. unfold garbage_rows.
      rewrite length_fmap, length_seq. lia.
    + intros Hall. exfalso. subst t.
      revert Et. clear -Hall. induction Hall as [|e q He _ IH]; cbn [List.filter].
      * done.
      * destruct (Z.leb_spec (e_buffer e) 0); [lia|]. exact IH.
  - cbn [mbind result_bind]. by exists board.
Qed.

(** X11. [apply_ready_garbage] on a board that has a row never fails. It
    takes out of the queue exactly the entries whose buffer has run out,
    keeps the others in their order, and returns the lines of the entries
    taken out: no line is lost. The board keeps its number of rows. *)
Theorem apply_ready_garbage_conserves hole_at board q :
  board ≠ [] →
  ∃ board' q' total,
    apply_ready_garbage hole_at board q = Ret (board', q', total)
    ∧ q' = List.filter (λ e, 0 <? e_buffer e) q
    ∧ total = total_lines (List.filter (λ e, e_buffer e <=? 0) q)
    ∧ total_lines q = total + total_lines q'
    ∧ length board' = length board.
Proof.
  intros Hb.
  destruct (apply_ready_garbage_result hole_at board q Hb) as (board' & Hr & Hl & _).
  eexists _, _, _. split; [exact Hr|]. split_and!; [done|done| |done].
  rewrite (total_lines_split q (λ e, e_buffer e <=? 0)). f_equal. f_equal.
  apply list_filter_ext. intros e. lia.
Qed.

Lemma apply_ready_garbage_conserves_witness :
  ∃ board' q' total,
    apply_ready_garbage (λ k, Z.of_nat k) new_board
      [Entry 2 0 "a"; Entry 1 2 "b"; Entry 3 (-1) "c"]%string
    = Ret (board', q', total)
    ∧ q' = List.filter (λ e, 0 <? e_buffer e)
             [Entry 2 0 "a"; Entry 1 2 "b"; Entry 3 (-1) "c"]%string
    ∧ total = total_lines (List.filter (λ e, e_buffer e <=? 0)
                [Entry 2 0 "a"; Entry 1 2 "b"; Entry 3 (-1) "c"]%string)
    ∧ total_lines [Entry 2 0 "a"; Entry 1 2 "b"; Entry 3 (-1) "c"]%string
      = total + total_lines q'
    ∧ length board' = length new_board.
Proof.
  apply (apply_ready_garbage_conserves (λ k, Z.of_nat k) new_board
           [Entry 2 0 "a"; Entry 1 2 "b"; Entry 3 (-1) "c"]%string).
  discriminate.
Defined.

Lemma list_filter_fmap {A B} (p : B → bool) (f : A → B) (l : list A) :
  List.filter p (f <$> l) = f <$> List.filter (λ a, p (f a)) l.
Proof.
  induction l as [|a l IH]; [done|]. cbn [fmap list_fmap List.filter].
  fold (f <$> l). rewrite IH. by destruct (p (f a)).
Qed.

Lemma list_filter_filter {A} (p r : A → bool) (l : list A) :
  List.filter p (List.filter r l) = List.filter (λ a, r a && p a) l.
Proof.
  induction l as [|a l IH]; [done|]. cbn [List.filter].
  destruct (r a); cbn [andb List.filter]; rewrite IH; done.
Qed.

Lemma age_zero q : age 0 <$> q = q.
Proof.
  induction q as [|e q IH]; [done|]. rewrite fmap_cons, IH. f_equal.
  destruct e. unfold age. cbn. f_equal. lia.
Qed.

Lemma age_age (a b : Z) q : age a <$> (age b <$> q) = age (b + a) <$> q.
Proof.
  induction q as [|e q IH]; [done|]. rewrite !fmap_cons, IH. f_equal.
  unfold age. cbn. f_equal. lia.
Qed.

Lemma total_lines_age (a : Z) q : total_lines (age a <$> q) = total_lines q.
Proof.
  induction q as [|e q IH]; [done|]. rewrite fmap_cons, !total_lines_cons, IH. done.
Qed.

Lemma place_garbage_result hole_at board q :
  board ≠ [] →
  ∃ board',
    place_garbage hole_at board q
    = Ret (board', age 1 <$> List.filter (λ e, 1 <? e_buffer e) q,
           total_lines (List.filter (λ e, e_buffer e <=? 1) q))
    ∧ length board' = length board
    ∧ (Forall (λ e, 1 < e_buffer e) q → board' = board).
Proof.
  intros Hb. unfold place_garbage, process_garbage_queue_on_placement.
  fold (age 1).
  destruct (apply_ready_garbage_result hole_at board (age 1 <$> q) Hb)
    as (board' & Hr & Hl & Hsame).
  exists board'. split_and!; [|done|].
  - rewrite Hr. do 2 f_equal.
    + f_equal. rewrite list_filter_fmap. f_equal. apply list_filter_ext.
      intros e. cbn. lia.
    + rewrite list_filter_fmap.
      rewrite (list_filter_ext _ (λ e, e_buffer e <=? 1)) by (intros e; cbn; lia).
      apply total_lines_age.
  - intros Hall. apply Hsame. apply Forall_fmap.
    eapply Forall_impl; [exact Hall|]. intros e He. cbn in *. lia.
Qed.

(** X12. Queued garbage waits for its buffer: after [k] locks that clear
    nothing, on a board that has a row and from a queue whose buffers are
    all at least 1, the queue holds exactly the entries whose buffer was
    more than [k], in their order and with the buffer reduced by [k]; the
    board keeps its number of rows, and is untouched while no buffer has
    run out. *)
Theorem garbage_waits_for_buffer (holes : nat → nat → Z) (k : nat) board q :
  board ≠ [] →
  Forall (λ e, 1 ≤ e_buffer e) q →
  ∃ board',
    placements holes k board q
    = Ret (board',
           age (Z.of_nat k) <$> List.filter (λ e, Z.of_nat k <? e_buffer e) q)
    ∧ length board' = length board
    ∧ (Forall (λ e, Z.of_nat k < e_buffer e) q → board' = board).
Proof.
  intros Hb Hq. induction k as [|k IH].
  - exists board. split_and!; [|done..]. cbn [placements]. do 2 f_equal.
    rewrite (list_filter_id _ q).
    2:{ eapply Forall_impl; [exact Hq|]. intros e He. cbv beta in He. change (Z.of_nat 0) with 0. lia. }
    change (Z.of_nat 0) with 0. by rewrite age_zero.
  - destruct IH as (bk & Hk & Hlk & Hsamek).
    cbn [placements]. rewrite Hk. cbn [mbind result_bind fst snd].
    assert (bk ≠ []) as Hbk.
    { intros ->. destruct board; [done|]. discriminate. }
    destruct (place_garbage_result (holes k) bk
                (age (Z.of_nat k) <$> List.filter (λ e, Z.of_nat k <? e_buffer e) q) Hbk)
      as (b' & Hr & Hl' & Hsame').
    rewrite Hr. cbn [mbind result_bind fst snd].
    exists b'. split_and!.
    + do 2 f_equal. rewrite list_filter_fmap, list_filter_filter.
      rewrite (list_filter_ext _ (λ e, Z.of_nat (S k) <? e_buffer e)).
      2:{ intros e. unfold age. cbn [e_buffer]. destruct (Z.ltb_spec (Z.of_nat k) (e_buffer e)), (Z.ltb_spec 1 (e_buffer e - Z.of_nat k)), (Z.ltb_spec (Z.of_nat (S k)) (e_buffer e)); cbn [andb]; (done || lia). }
      rewrite age_age. by replace (Z.of_nat (S k)) with (Z.of_nat k + 1) by lia.
    + congruence.
    + intros Hall. rewrite Hsame'.
      * apply Hsamek. eapply Forall_impl; [exact Hall|]. intros e He. cbn in *. lia.
      * apply Forall_fmap. rewrite Forall_forall. intros e He.
        apply list_elem_of_In, filter_In in He as [He _].
        apply list_elem_of_In in He.
        rewrite Forall_forall in Hall. specialize (Hall e He). cbn in *. lia.
Qed.

(** Two lines from [a], pushed back by a one-line clear, then four lines
    from [b]: after two locks both entries still wait and the board is
    untouched. *)
Lemma garbage_waits_for_buffer_witness :
  ∃ board',
    placements (λ _ j, Z.of_nat j) 2 new_board
      (queue_garbage 4 "b" (reduce_garbage_queue 1 (queue_garbage 2 "a" [])))
    = Ret (board',
           age (Z.of_nat 2) <$> List.filter (λ e, Z.of_nat 2 <? e_buffer e)
             (queue_garbage 4 "b" (reduce_garbage_queue 1 (queue_garbage 2 "a" []))))
    ∧ length board' = length new_board
    ∧ board' = new_board.
Proof.
  destruct (garbage_waits_for_buffer (λ _ j, Z.of_nat j) 2 new_board
              (queue_garbage 4 "b" (reduce_garbage_queue 1 (queue_garbage 2 "a" []))))
    as (board' & Hp & Hl & Hsame).
  - discriminate.
  - change (Forall (λ e, 1 ≤ e_buffer e) [Entry 1 4 "a"; Entry 4 3 "b"]%string).
    apply Forall_cons; split; [cbn; lia|]. apply Forall_cons; split; [cbn; lia|].
    apply Forall_nil. done.
  - exists board'. split_and!; [done|done|]. apply Hsame.
    change (Forall (λ e, Z.of_nat 2 < e_buffer e) [Entry 1 4 "a"; Entry 4 3 "b"]%string).
    apply Forall_cons; split; [cbn; lia|]. apply Forall_cons; split; [cbn; lia|].
    apply Forall_nil. done.
Defined.

Lemma total_lines_nonneg q : Forall (λ e, 0 < e_lines e) q → 0 ≤ total_lines q.
Proof.
  induction 1 as [|e q He _ IH]; [done|]. rewrite total_lines_cons. lia.
Qed.

Lemma reduce_loop_total q : ∀ n,
  0 ≤ n → Forall (λ e, 0 < e_lines e) q →
  total_lines (reduce_loop n q).2 = Z.max 0 (total_lines q - n)
  ∧ Forall (λ e, 0 < e_lines e) (reduce_loop n q).2
  ∧ (length (reduce_loop n q).2 ≤ length q)%nat.
Proof.
  induction q as [|e q IH]; intros n Hn Hq.
  - cbn. split_and!; [lia|done|done].
  - apply Forall_cons in Hq as [He Hq].
    pose proof (total_lines_nonneg q Hq) as Hq0.
    cbn [reduce_loop]. rewrite total_lines_cons.
    destruct (Z.gtb_spec n 0) as [Hpos|Hzero].
    + destruct (Z.leb_spec (e_lines e) n) as [Hle|Hgt].
      * destruct (IH (n - e_lines e) ltac:(lia) Hq) as (Ht & Hf & Hl).
        split_and!; [rewrite Ht; lia|done|cbn [length]; lia].
      * cbn [snd]. rewrite total_lines_cons. cbn [e_lines].
        split_and!; [lia| |done].
        apply Forall_cons; split; [cbn; lia|done].
    + cbn [snd]. rewrite total_lines_cons.
      split_and!; [lia| |done]. by apply Forall_cons.
Qed.

(** X13. Cancelling [n >= 1] cleared rows against a queue whose entries
    all hold at least one line takes [n] lines out of the queue, or all
    of them when it holds fewer: the lines left are
    [max 0 (total - n)]. Every entry left still holds at least one line,
    and no entry is added. *)
Theorem reduce_garbage_queue_total (n : Z) q :
  1 ≤ n →
  Forall (λ e, 0 < e_lines e) q →
  total_lines (reduce_garbage_queue n q) = Z.max 0 (total_lines q - n)
  ∧ Forall (λ e, 0 < e_lines e) (reduce_garbage_queue n q)
  ∧ (length (reduce_garbage_queue n q) ≤ length q)%nat.
Proof.
  intros Hn Hq. unfold reduce_garbage_queue.
  destruct (Z.leb_spec n 0); [lia|]. cbn [orb].
  case_bool_decide as Hnil.
  - subst q. cbn. split_and!; [lia|done|done].
  - destruct (reduce_loop_total q n ltac:(lia) Hq) as (Ht & Hf & Hl).
    split_and!.
    + rewrite <- Ht. generalize (reduce_loop n q).2. intros l.
      induction l as [|e l IHl]; [done|].
      rewrite fmap_cons, !total_lines_cons, IHl. done.
    + apply Forall_fmap. eapply Forall_impl; [exact Hf|]. by intros e He.
    + by rewrite length_fmap.
Qed.

Lemma reduce_garbage_queue_total_witness :
  total_lines (reduce_garbage_queue 4 [Entry 3 1 "a"; Entry 2 3 "b"; Entry 5 3 "c"]%string)
  = Z.max 0 (total_lines [Entry 3 1 "a"; Entry 2 3 "b"; Entry 5 3 "c"]%string - 4)
  ∧ Forall (λ e, 0 < e_lines e)
      (reduce_garbage_queue 4 [Entry 3 1 "a"; Entry 2 3 "b"; Entry 5 3 "c"]%string)
  ∧ (length (reduce_garbage_queue 4 [Entry 3 1 "a"; Entry 2 3 "b"; Entry 5 3 "c"]%string)
     ≤ length [Entry 3 1 "a"; Entry 2 3 "b"; Entry 5 3 "c"]%string)%nat.
Proof.
  apply (reduce_garbage_queue_total 4 [Entry 3 1 "a"; Entry 2 3 "b"; Entry 5 3 "c"]%string).
  - lia.
  - apply Forall_cons; split; [cbn; lia|]. apply Forall_cons; split; [cbn; lia|].
    apply Forall_cons; split; [cbn; lia|]. apply Forall_nil. done.
Defined.

End garbage.

(** ** Deaths and the ledger *)

Section peers.
Implicit Types (remote_states : list (string * peer_state)) (known : gset string).

Local Ltac sets :=
  apply set_eq; intros ?;
  rewrite ?elem_of_union, ?elem_of_difference, ?elem_of_union, ?elem_of_singleton,
    ?elem_of_empty;
  try tauto.

Lemma dead_peers_cons p st remote_states :
  dead_peers ((p, st) :: remote_states)
  = if default false (ps_is_dead st) then {[p]} ∪ dead_peers remote_states
    else dead_peers remote_states.
Proof.
  unfold dead_peers. cbn [List.filter snd].
  by destruct (default false (ps_is_dead st)).
Qed.

Lemma process_deaths_fold remote_states (k : Z) known :
  fold_left (λ (acc : Z * gset string) (item : string * peer_state),
    if default false (ps_is_dead item.2) && bool_decide (item.1 ∉ acc.2)
    then (acc.1 + 1, {[item.1]} ∪ acc.2)
    else acc) remote_states (k, known)
  = (k + Z.of_nat (size (dead_peers remote_states ∖ known)),
     known ∪ dead_peers remote_states).
Proof.
  revert k known. induction remote_states as [|[p st] rest IH]; intros k known.
  - cbn [fold_left]. change (dead_peers []) with (∅ : gset string).
    assert ((∅ : gset string) ∖ known = ∅) as -> by sets.
    rewrite size_empty. f_equal; [lia|sets].
  - cbn [fold_left fst snd]. rewrite dead_peers_cons.
    destruct (default false (ps_is_dead st)); cbn [andb]; [|apply IH].
    case_bool_decide as Hp; rewrite IH; cbn [fst snd].
    + f_equal; [|sets].
      assert (({[p]} ∪ dead_peers rest) ∖ known
              = {[p]} ∪ dead_peers rest ∖ ({[p]} ∪ known)) as ->.
      { apply set_eq. intros z. rewrite !elem_of_union, !elem_of_difference,
          !elem_of_union, !elem_of_singleton.
        destruct (decide (z = p)) as [->|]; tauto. }
      rewrite (size_union (C:=gset string) {[p]} (dead_peers rest ∖ ({[p]} ∪ known))).
      2:{ intros z Hz1 Hz2. apply elem_of_difference in Hz2 as [_ Hz2].
          apply Hz2. by apply elem_of_union_l. }
      rewrite size_singleton. lia.
    + f_equal.
      * do 3 f_equal. sets. split; [tauto|]. intros [[->|Hz] Hk]; tauto.
      * sets. split; [tauto|]. intros [Hz|[->|Hz]]; tauto.
Qed.

(** X14. [process_deaths] counts every peer that the states show dead and
    that was not known dead, once, and makes it known; what was known
    stays known. A second call on the same states counts nothing. *)
Theorem process_deaths_counts_once remote_states known :
  (process_deaths remote_states known).2 = known ∪ dead_peers remote_states
  ∧ (process_deaths remote_states known).1
    = Z.of_nat (size (dead_peers remote_states ∖ known))
  ∧ process_deaths remote_states (process_deaths remote_states known).2
    = (0, (process_deaths remote_states known).2).
Proof.
  unfold process_deaths. rewrite !process_deaths_fold. cbn [fst snd].
  split_and!; [done|lia|].
  f_equal; [|sets].
  assert (dead_peers remote_states ∖ (known ∪ dead_peers remote_states) = ∅) as ->
    by sets.
  by rewrite size_empty.
Qed.

Lemma ledger_step_advance p acc item :
  credited p (incoming_step acc item).1
  - ledger_value (incoming_step acc item).2 p
  = credited p acc.1 - ledger_value acc.2 p
  ∧ ledger_value acc.2 p ≤ ledger_value (incoming_step acc item).2 p.
Proof.
  destruct acc as [gl ledger], item as [pl st]. unfold incoming_step. cbn [fst snd].
  destruct (default false (ps_is_dead st)); [cbn [fst snd]; lia|].
  destruct (Z.gtb_spec (default 0 (ps_cumulative_garbage st))
              (default 0 (ledger !! pl))) as [Hgt|Hle]; [|cbn [fst snd]; lia].
  cbn [fst snd]. rewrite credited_app. unfold ledger_value. cbn [credited foldr snd fst].
  destruct (decide (pl = p)) as [->|Hne].
  - rewrite bool_decide_eq_true_2 by done. rewrite lookup_insert_eq. cbn. lia.
  - rewrite bool_decide_eq_false_2 by done. rewrite lookup_insert_ne by done. lia.
Qed.

(** X15. What [process_incoming_garbage] credits to a peer is exactly the
    advance of the ledger value of that peer, for every dictionary of
    remote states and every peer, dead or alive, present or not; no
    ledger value ever goes down. *)
Theorem process_incoming_garbage_ledger remote_states (ledger : gmap string Z)
    (p : string) :
  credited p (process_incoming_garbage remote_states ledger).1
  = ledger_value (process_incoming_garbage remote_states ledger).2 p
    - ledger_value ledger p
  ∧ ledger_value ledger p
    ≤ ledger_value (process_incoming_garbage remote_states ledger).2 p.
Proof.
  unfold process_incoming_garbage.
  assert (∀ acc,
            credited p (fold_left incoming_step remote_states acc).1
            - ledger_value (fold_left incoming_step remote_states acc).2 p
            = credited p acc.1 - ledger_value acc.2 p
            ∧ ledger_value acc.2 p
              ≤ ledger_value (fold_left incoming_step remote_states acc).2 p) as H.
  { induction remote_states as [|item rest IH]; intros acc; cbn [fold_left]; [lia|].
    destruct (IH (incoming_step acc item)) as [H1 H2].
    destruct (ledger_step_advance p acc item) as [H3 H4]. lia. }
  destruct (H ([], ledger)) as [H1 H2]. cbn [fst snd credited foldr] in *. lia.
Qed.

End peers.

(** ** The view of remote players *)

Section remote_view.
Implicit Types (v : view) (states : list (string * peer_state)).

#[local] Instance string_leb_total : Total (λ a b : string, Is_true (String.leb a b)).
Proof.
  intros a b. destruct (String.leb_total a b) as [H|H]; rewrite H; [by left|by right].
Qed.

Lemma sorted_permutation (keys : list string) : sorted keys ≡ₚ keys.
Proof. apply merge_sort_Permutation. Qed.

Lemma sorted_sorted (keys : list string) :
  Sorted (λ a b, Is_true (String.leb a b)) (sorted keys).
Proof. apply Sorted_merge_sort. apply _. Qed.

Lemma mod_step_differs (n i d : Z) :
  2 ≤ n → 0 ≤ i < n → ¬ (d `mod` n = 0) → (i + d) `mod` n ≠ i.
Proof.
  intros Hn Hi Hd He. apply Hd.
  assert ((i + d) `mod` n = i `mod` n) as H by (rewrite (Z.mod_small i n); lia).
  rewrite Z.add_mod in H by lia. rewrite (Z.mod_small i n) in H by lia.
  pose proof (Z.mod_pos_bound d n ltac:(lia)) as Hb.
  destruct (decide (i + d `mod` n < n)) as [Hlt|Hge].
  - rewrite Z.mod_small in H by lia. lia.
  - assert ((i + d `mod` n) `mod` n = i + d `mod` n - n) as H'.
    { symmetry. apply (Z.mod_unique _ _ 1); lia. }
    lia.
Qed.

(** X16. Whatever its indices were, after [update] the view lists the
    alive peers in sorted order, as many as [get_alive_player_count]
    counts, and its two indices point into that list when there is a
    peer, at different peers when there are two. *)
Theorem view_update_ok states v :
  player_list (view_update states v) ≡ₚ alive_peers states
  ∧ Z.of_nat (length (player_list (view_update states v)))
    = get_alive_player_count states
  ∧ Sorted (λ a b, Is_true (String.leb a b)) (player_list (view_update states v))
  ∧ view_ok (view_update states v).
Proof.
  unfold view_update. fold (alive_peers states).
  set (pl := sorted (alive_peers states)).
  set (n := Z.of_nat (length pl)).
  assert (player_list
            (if n =? 0 then View 0 1 pl
             else View (left_idx v `mod` n)
                    (if (n >? 1)
                        && (left_idx v `mod` n
                            =? (if n >? 1 then right_idx v `mod` n
                                else left_idx v `mod` n))
                     then (left_idx v `mod` n + 1) `mod` n
                     else if n >? 1 then right_idx v `mod` n else left_idx v `mod` n)
                    pl) = pl) as Hpl by (by destruct (n =? 0)).
  split_and!.
  - rewrite Hpl. apply sorted_permutation.
  - rewrite Hpl. subst pl. rewrite (Permutation_length (sorted_permutation _)).
    unfold alive_peers, get_alive_player_count. by rewrite length_fmap.
  - rewrite Hpl. apply sorted_sorted.
  - unfold view_ok. rewrite Hpl. fold n.
    destruct (Z.eqb_spec n 0) as [Hz|Hnz]; [split; lia|].
    assert (1 ≤ n) as Hn by lia.
    pose proof (Z.mod_pos_bound (left_idx v) n ltac:(lia)) as Hl.
    pose proof (Z.mod_pos_bound (right_idx v) n ltac:(lia)) as Hr.
    pose proof (Z.mod_pos_bound (left_idx v `mod` n + 1) n ltac:(lia)) as Hs.
    cbn [left_idx right_idx].
    destruct (Z.gtb_spec n 1) as [Hgt|Hle]; cbn [andb].
    + destruct (Z.eqb_spec (left_idx v `mod` n) (right_idx v `mod` n)) as [He|Hne].
      * split; [lia|]. intros _ Heq. symmetry in Heq. revert Heq.
        apply mod_step_differs; [lia|lia|]. rewrite Z.mod_small; lia.
      * split; [lia|done].
    + split; [lia|lia].
Qed.

Lemma cycle_index_ok (n i j d : Z) :
  1 ≤ n → 0 ≤ i < n → 0 ≤ j < n → (2 ≤ n → i ≠ j) →
  let i1 := (i + d) `mod` n in
  let i2 := if (n >? 1) && (i1 =? j) then (i1 + d) `mod` n else i1 in
  0 ≤ i2 < n ∧ (2 ≤ n → i2 ≠ j).
Proof.
  intros Hn Hi Hj Hne i1 i2. subst i2.
  pose proof (Z.mod_pos_bound (i + d) n ltac:(lia)) as H1.
  pose proof (Z.mod_pos_bound (i1 + d) n ltac:(lia)) as H2.
  fold i1 in H1.
  destruct (Z.gtb_spec n 1) as [Hgt|Hle]; cbn [andb]; [|split; lia].
  destruct (Z.eqb_spec i1 j) as [He|Hd]; [|split; [lia|done]].
  split; [lia|]. intros _. rewrite He.
  apply mod_step_differs; [lia|lia|].
  intros Hz. apply (Hne ltac:(lia)). rewrite <- He. subst i1.
  rewrite Z.add_mod, Hz, Z.add_0_r, Z.mod_mod, Z.mod_small by lia. done.
Qed.

(** X17. [cycle_left] and [cycle_right] keep the view in order for every
    step [direction]: the list of players and the other index stay as
    they were, the index that moves stays in the list, and with two or
    more players it never lands on the other index. *)
Theorem cycle_keeps_view_ok (direction : Z) v :
  view_ok v →
  view_ok (cycle_left direction v) ∧ view_ok (cycle_right direction v)
  ∧ player_list (cycle_left direction v) = player_list v
  ∧ player_list (cycle_right direction v) = player_list v
  ∧ right_idx (cycle_left direction v) = right_idx v
  ∧ left_idx (cycle_right direction v) = left_idx v.
Proof.
  intros [Hin Hne]. unfold cycle_left, cycle_right, view_ok.
  set (n := Z.of_nat (length (player_list v))) in *.
  destruct (Z.gtb_spec n 0) as [Hpos|Hzero].
  - destruct (Hin ltac:(lia)) as [Hl Hr]. cbn [player_list left_idx right_idx].
    fold n.
    destruct (cycle_index_ok n (left_idx v) (right_idx v) direction
                ltac:(lia) Hl Hr Hne) as [Hl1 Hl2].
    destruct (cycle_index_ok n (right_idx v) (left_idx v) direction
                ltac:(lia) Hr Hl ltac:(intros H E; by apply Hne)) as [Hr1 Hr2].
    cbv zeta in Hl1, Hl2, Hr1, Hr2.
    split_and!; try done.
    + intros H. specialize (Hr2 H). congruence.
  - fold n. split_and!; done.
Qed.

Lemma cycle_keeps_view_ok_witness :
  view_ok (cycle_left 1 (View 0 1 ["ann"; "bob"; "cy"]%string))
  ∧ view_ok (cycle_right 1 (View 0 1 ["ann"; "bob"; "cy"]%string))
  ∧ player_list (cycle_left 1 (View 0 1 ["ann"; "bob"; "cy"]%string))
    = ["ann"; "bob"; "cy"]%string
  ∧ player_list (cycle_right 1 (View 0 1 ["ann"; "bob"; "cy"]%string))
    = ["ann"; "bob"; "cy"]%string
  ∧ right_idx (cycle_left 1 (View 0 1 ["ann"; "bob"; "cy"]%string)) = 1
  ∧ left_idx (cycle_right 1 (View 0 1 ["ann"; "bob"; "cy"]%string)) = 0.
Proof.
  apply (cycle_keeps_view_ok 1 (View 0 1 ["ann"; "bob"; "cy"]%string)).
  split; cbn; lia.
Defined.

(** X18. A view in order shows a player of its list on either side when
    the list is not empty, two different positions of the list when it
    has two or more players; with an empty list it shows nobody. *)
Theorem view_shows_players v :
  view_ok v →
  (player_list v = [] →
     get_left_player v = Ret None ∧ get_right_player v = Ret None)
  ∧ (player_list v ≠ [] →
     ∃ i j p r,
       get_left_player v = Ret (Some p) ∧ get_right_player v = Ret (Some r)
       ∧ player_list v !! i = Some p ∧ player_list v !! j = Some r
       ∧ ((2 ≤ length (player_list v))%nat → i ≠ j)).
Proof.
  intros [Hin Hne]. split.
  - intros Hnil. unfold get_left_player, get_right_player. rewrite Hnil.
    by rewrite bool_decide_eq_true_2.
  - intros Hnn. unfold get_left_player, get_right_player.
    rewrite bool_decide_eq_false_2 by done. cbn [negb andb].
    assert (1 ≤ Z.of_nat (length (player_list v))) as Hn.
    { destruct (player_list v); [done|]. cbn [length]. lia. }
    destruct (Hin Hn) as [Hl Hr].
    destruct (Z.ltb_spec (left_idx v) (Z.of_nat (length (player_list v)))); [|lia].
    destruct (Z.ltb_spec (right_idx v) (Z.of_nat (length (player_list v)))); [|lia].
    destruct (py_get_in_range (player_list v) (left_idx v) ltac:(lia)) as (p & Hp & Hgp).
    destruct (py_get_in_range (player_list v) (right_idx v) ltac:(lia)) as (r & Hr' & Hgr).
    exists (Z.to_nat (left_idx v)), (Z.to_nat (right_idx v)), p, r.
    rewrite Hgp, Hgr. split_and!; [done..|].
    intros H2 Heq. apply Hne; lia.
Qed.

(** Two alive peers and a dead one, seen by a fresh view. *)
Lemma view_shows_players_witness :
  ∃ i j p r,
    get_left_player (view_update [("bob", PeerState (Some false) (Some 3));
                                  ("ann", PeerState None None);
                                  ("cy", PeerState (Some true) (Some 9))]%string
                       view_init) = Ret (Some p)
    ∧ get_right_player (view_update [("bob", PeerState (Some false) (Some 3));
                                     ("ann", PeerState None None);
                                     ("cy", PeerState (Some true) (Some 9))]%string
                          view_init) = Ret (Some r)
    ∧ ["ann"; "bob"]%string !! i = Some p ∧ ["ann"; "bob"]%string !! j = Some r
    ∧ i ≠ j.
Proof.
  assert (view_update [("bob", PeerState (Some false) (Some 3));
                       ("ann", PeerState None None);
                       ("cy", PeerState (Some true) (Some 9))]%string view_init
          = View 0 1 ["ann"; "bob"]%string) as -> by (vm_compute; reflexivity).
  destruct (view_shows_players (View 0 1 ["ann"; "bob"]%string)) as [_ Hshow].
  - split; cbn; lia.
  - destruct Hshow as (i & j & p & r & Hl & Hr & Hi & Hj & Hne); [discriminate|].
    exists i, j, p, r. split_and!; [done..|]. apply Hne. cbn. lia.
Defined.

End remote_view.

(** ** State file names *)

Section file_names.
Implicit Types (s cur piece rest : list ascii) (sep : ascii).







End file_names.

(** ** Rotation *)

Section turning.
Implicit Types (s m : matrix) (h w i j : nat).

Lemma zip_star_aux_spec {A} (n : nat) : ∀ rows : list (list A),
  Forall (λ row, length row = n) rows →
  length (zip_star_aux n rows) = n
  ∧ ∀ j, (j < n)%nat →
      ∃ col, zip_star_aux n rows !! j = Some col
             ∧ length col = length rows
             ∧ ∀ i row, rows !! i = Some row → col !! i = row !! j.
Proof.
  induction n as [|n IH]; intros rows Hrows.
  - split; [done|]. intros j Hj. lia.
  - cbn [zip_star_aux].
    assert (∃ col0, mapM head rows = Some col0) as [col0 Hcol0].
    { apply mapM_is_Some. eapply Forall_impl; [exact Hrows|].
      intros [|a row] Hl; [done|]. by eexists. }
    rewrite Hcol0. apply mapM_Some in Hcol0.
    destruct (IH (tail <$> rows)) as [Hlen Hcols].
    { apply Forall_fmap. eapply Forall_impl; [exact Hrows|].
      intros [|a row] Hl; cbn in *; lia. }
    split; [cbn [length]; by rewrite Hlen|].
    intros [|j] Hj.
    + exists col0. split_and!; [done|by rewrite (Forall2_length _ _ _ Hcol0)|].
      intros i row Hi.
      destruct (Forall2_lookup_l _ _ _ _ _ Hcol0 Hi) as (y & Hy & Hh).
      rewrite Hy. by rewrite <- head_lookup.
    + destruct (Hcols j ltac:(lia)) as (col & Hc & Hl & Hcell).
      exists col. split_and!; [done|by rewrite Hl, length_fmap|].
      intros i row Hi. rewrite (Hcell i (tail row)).
      * by rewrite lookup_tail.
      * by rewrite list_lookup_fmap, Hi.
Qed.

Lemma zip_star_spec m h w :
  shape_dims h w m → (1 ≤ h)%nat →
  shape_dims w h (zip_star m)
  ∧ ∀ i j, (i < h)%nat → (j < w)%nat → cell (zip_star m) j i = cell m i j.
Proof.
  intros [Hh Hw] Hpos. destruct m as [|r m']; [cbn in Hh; lia|].
  unfold zip_star.
  assert (length r = w) as Hr by (by apply Forall_cons in Hw as [? _]).
  rewrite Hr. set (rows := r :: m') in *.
  destruct (zip_star_aux_spec w rows Hw) as [Hlen Hcols].
  split.
  - split; [done|]. apply Forall_lookup. intros j col Hj.
    destruct (Hcols j) as (col' & Hc & Hl & _).
    { rewrite <- Hlen. by eapply lookup_lt_Some. }
    rewrite Hj in Hc. injection Hc as ->. by rewrite Hl.
  - intros i j Hi Hj. destruct (Hcols j Hj) as (col & Hc & _ & Hcell).
    unfold cell. rewrite Hc. cbn [mbind option_bind].
    destruct (lookup_lt_is_Some_2 rows i ltac:(lia)) as [row Hrow].
    rewrite Hrow. cbn [mbind option_bind]. by apply Hcell.
Qed.

Lemma shape_dims_reverse m h w : shape_dims h w m → shape_dims h w (reverse m).
Proof.
  intros [Hh Hw]. split; [by rewrite length_reverse|].
  by apply Forall_reverse.
Qed.

Lemma cell_reverse m h w i j :
  shape_dims h w m → (i < h)%nat → cell (reverse m) i j = cell m (h - 1 - i) j.
Proof.
  intros [Hh _] Hi. unfold cell. rewrite reverse_lookup by lia.
  by replace (length m - S i)%nat with (h - 1 - i)%nat by lia.
Qed.

Lemma matrix_eq m1 m2 h w :
  shape_dims h w m1 → shape_dims h w m2 →
  (∀ i j, (i < h)%nat → (j < w)%nat → cell m1 i j = cell m2 i j) →
  m1 = m2.
Proof.
  intros [Hh1 Hw1] [Hh2 Hw2] Hcells.
  apply list_eq_same_length with h; [done..|].
  intros i r1 r2 Hi Hr1 Hr2.
  pose proof (Forall_lookup_1 _ _ _ _ Hw1 Hr1) as Hl1.
  pose proof (Forall_lookup_1 _ _ _ _ Hw2 Hr2) as Hl2. cbn in Hl1, Hl2.
  apply list_eq_same_length with w; [done..|].
  intros j v1 v2 Hj Hv1 Hv2.
  specialize (Hcells i j Hi Hj). unfold cell in Hcells.
  rewrite Hr1, Hr2 in Hcells. cbn in Hcells. congruence.
Qed.

Lemma rotate_matrix_spec s h w :
  shape_dims h w s → (1 ≤ h)%nat →
  shape_dims w h (rotate_matrix s)
  ∧ ∀ i j, (i < h)%nat → (j < w)%nat →
      cell (rotate_matrix s) j i = cell s (h - 1 - i) j.
Proof.
  intros Hd Hh. unfold rotate_matrix.
  destruct (zip_star_spec (reverse s) h w (shape_dims_reverse s h w Hd) Hh) as [Hz Hc].
  split; [done|]. intros i j Hi Hj. rewrite Hc by done. by apply cell_reverse with w.
Qed.

Lemma zip_star_involutive m h w :
  shape_dims h w m → (1 ≤ h)%nat → (1 ≤ w)%nat → zip_star (zip_star m) = m.
Proof.
  intros Hd Hh Hw.
  destruct (zip_star_spec m h w Hd Hh) as [Hd1 Hc1].
  destruct (zip_star_spec (zip_star m) w h Hd1 Hw) as [Hd2 Hc2].
  apply matrix_eq with h w; [done..|].
  intros i j Hi Hj. rewrite Hc2 by done. by apply Hc1.
Qed.

Lemma rotate_matrix_ccw_rotate s h w :
  shape_dims h w s → (1 ≤ h)%nat → (1 ≤ w)%nat →
  rotate_matrix_ccw (rotate_matrix s) = s.
Proof.
  intros Hd Hh Hw. unfold rotate_matrix_ccw, rotate_matrix.
  rewrite (zip_star_involutive (reverse s) h w) by (done || by apply shape_dims_reverse).
  apply reverse_involutive.
Qed.

Lemma rotate_rotate_matrix_ccw s h w :
  shape_dims h w s → (1 ≤ h)%nat → (1 ≤ w)%nat →
  rotate_matrix (rotate_matrix_ccw s) = s.
Proof.
  intros Hd Hh Hw. unfold rotate_matrix_ccw, rotate_matrix.
  rewrite reverse_involutive. by apply zip_star_involutive with h w.
Qed.

Lemma rotate_twice_spec s h w :
  shape_dims h w s → (1 ≤ h)%nat → (1 ≤ w)%nat →
  shape_dims h w (rotate_matrix (rotate_matrix s))
  ∧ ∀ i j, (i < h)%nat → (j < w)%nat →
      cell (rotate_matrix (rotate_matrix s)) i j = cell s (h - 1 - i) (w - 1 - j).
Proof.
  intros Hd Hh Hw.
  destruct (rotate_matrix_spec s h w Hd Hh) as [Hd1 Hc1].
  destruct (rotate_matrix_spec (rotate_matrix s) w h Hd1 Hw) as [Hd2 Hc2].
  split; [done|]. intros i j Hi Hj.
  rewrite (Hc2 j i) by done. by rewrite (Hc1 i (w - 1 - j)%nat) by lia.
Qed.

Lemma rotate_four_times s h w :
  shape_dims h w s → (1 ≤ h)%nat → (1 ≤ w)%nat →
  rotate_matrix (rotate_matrix (rotate_matrix (rotate_matrix s))) = s.
Proof.
  intros Hd Hh Hw.
  destruct (rotate_twice_spec s h w Hd Hh Hw) as [Hd2 Hc2].
  destruct (rotate_twice_spec _ h w Hd2 Hh Hw) as [Hd4 Hc4].
  apply matrix_eq with h w; [done..|].
  intros i j Hi Hj. rewrite Hc4, Hc2 by lia. f_equal; lia.
Qed.

Lemma shape_dims_iter s h w (k : nat) :
  shape_dims h w s → (1 ≤ h)%nat → (1 ≤ w)%nat →
  ∃ h' w', shape_dims h' w' (Nat.iter k rotate_matrix s) ∧ (1 ≤ h')%nat ∧ (1 ≤ w')%nat.
Proof.
  intros Hd Hh Hw. induction k as [|k (h' & w' & Hd' & Hh' & Hw')].
  - by exists h, w.
  - exists w', h'. cbn [Nat.iter]. split_and!; [|done..].
    by apply rotate_matrix_spec.
Qed.

Lemma rotate_iter_mod s h w (k : nat) :
  shape_dims h w s → (1 ≤ h)%nat → (1 ≤ w)%nat →
  Nat.iter (k `mod` 4) rotate_matrix s = Nat.iter k rotate_matrix s.
Proof.
  intros Hd Hh Hw.
  induction (lt_wf k) as [k _ IH].
  destruct (decide (k < 4)%nat) as [Hlt|Hge]; [by rewrite Nat.mod_small|].
  destruct (Nat.le_exists_sub 4 k ltac:(lia)) as (m & -> & _).
  rewrite Nat.iter_add.
  change (Nat.iter 4 rotate_matrix s)
    with (rotate_matrix (rotate_matrix (rotate_matrix (rotate_matrix s)))).
  rewrite (rotate_four_times s h w) by done.
  rewrite <- (IH m) by lia. f_equal.
  change 4%nat with (1 * 4)%nat at 1.
  by rewrite Nat.Div0.mod_add.
Qed.

Lemma rotate_piece_iter s h w (k : nat) :
  shape_dims h w s → (1 ≤ h)%nat → (1 ≤ w)%nat →
  rotate_piece s (Z.of_nat k) = Nat.iter k rotate_matrix s.
Proof.
  intros Hd Hh Hw. unfold rotate_piece.
  rewrite <- (rotate_iter_mod s h w k) by done. f_equal.
  rewrite <- (Nat2Z.id (k `mod` 4)). f_equal.
  rewrite Nat2Z.inj_mod. done.
Qed.

Lemma rotate_piece_after s h w (a : Z) (k : nat) :
  shape_dims h w s → (1 ≤ h)%nat → (1 ≤ w)%nat →
  Nat.iter k rotate_matrix (rotate_piece s a) = rotate_piece s (a + Z.of_nat k).
Proof.
  intros Hd Hh Hw.
  pose proof (Z.mod_pos_bound a 4 ltac:(lia)) as Ha.
  assert (rotate_piece s (a + Z.of_nat k)
          = rotate_piece s (Z.of_nat (Z.to_nat (a `mod` 4) + k))) as ->.
  { unfold rotate_piece. do 2 f_equal.
    rewrite Nat2Z.inj_add, Z2Nat.id by lia.
    rewrite (Z.add_mod (a `mod` 4)), Z.mod_mod by lia.
    by rewrite <- Z.add_mod by lia. }
  rewrite (rotate_piece_iter s h w) by done.
  rewrite (Nat.add_comm _ k), Nat.iter_add. done.
Qed.

(** X20. [rotate_matrix] turns a matrix of [h] rows of [w] cells, with
    at least one row and one column, clockwise: the result has [w] rows
    of [h] cells and the cell of row [i], column [j] is found in row [j],
    column [h - 1 - i]. [rotate_matrix_ccw] undoes it, and is undone by
    it. *)
Theorem rotate_matrix_turns s h w :
  shape_dims h w s → (1 ≤ h)%nat → (1 ≤ w)%nat →
  shape_dims w h (rotate_matrix s)
  ∧ (∀ i j, (i < h)%nat → (j < w)%nat →
       cell (rotate_matrix s) j (h - 1 - i) = cell s i j)
  ∧ rotate_matrix_ccw (rotate_matrix s) = s
  ∧ rotate_matrix (rotate_matrix_ccw s) = s.
Proof.
  intros Hd Hh Hw. destruct (rotate_matrix_spec s h w Hd Hh) as [Hd1 Hc].
  split_and!; [done| | |].
  - intros i j Hi Hj. rewrite Hc by lia. f_equal. lia.
  - by apply rotate_matrix_ccw_rotate with h w.
  - by apply rotate_rotate_matrix_ccw with h w.
Qed.

Lemma rotate_matrix_turns_witness :
  shape_dims 3 2 (rotate_matrix [[0; 1; 1]; [1; 1; 0]])
  ∧ (∀ i j, (i < 2)%nat → (j < 3)%nat →
       cell (rotate_matrix [[0; 1; 1]; [1; 1; 0]]) j (2 - 1 - i)
       = cell [[0; 1; 1]; [1; 1; 0]] i j)
  ∧ rotate_matrix_ccw (rotate_matrix [[0; 1; 1]; [1; 1; 0]]) = [[0; 1; 1]; [1; 1; 0]]
  ∧ rotate_matrix (rotate_matrix_ccw [[0; 1; 1]; [1; 1; 0]]) = [[0; 1; 1]; [1; 1; 0]].
Proof.
  apply (rotate_matrix_turns [[0; 1; 1]; [1; 1; 0]] 2 3).
  - split; [reflexivity|]. repeat constructor.
  - lia.
  - lia.
Defined.

Lemma rotate_matrix_ccw_piece s h w (a : Z) :
  shape_dims h w s → (1 ≤ h)%nat → (1 ≤ w)%nat →
  rotate_matrix_ccw (rotate_piece s a) = rotate_piece s (a + 3).
Proof.
  intros Hd Hh Hw.
  pose proof (rotate_piece_after s h w a 3 Hd Hh Hw) as H3.
  change (Z.of_nat 3) with 3 in H3. rewrite <- H3.
  destruct (shape_dims_iter s h w (Z.to_nat (a `mod` 4)) Hd Hh Hw)
    as (h' & w' & Hd' & Hh' & Hw').
  fold (rotate_piece s a) in Hd'.
  destruct (shape_dims_iter (rotate_piece s a) h' w' 3 Hd' Hh' Hw')
    as (h3 & w3 & Hd3 & Hh3 & Hw3).
  rewrite <- (rotate_matrix_ccw_rotate _ h3 w3 Hd3 Hh3 Hw3). f_equal.
  symmetry. exact (rotate_four_times (rotate_piece s a) h' w' Hd' Hh' Hw').
Qed.

Lemma rotate_piece_mod s (a : Z) : rotate_piece s (a `mod` 4) = rotate_piece s a.
Proof. unfold rotate_piece. by rewrite Z.mod_mod. Qed.

Lemma shape_dims_rectangular m h w : shape_dims h w m → rectangular m.
Proof.
  intros [Hh Hw]. unfold rectangular. destruct m as [|r m]; [constructor|].
  cbn [head default]. apply Forall_cons in Hw as [Hr Hw].
  apply Forall_cons. split; [done|].
  eapply Forall_impl; [exact Hw|]. intros row Hrow. cbn in *. congruence.
Qed.

Lemma rotate_matrix_ccw_dims s h w :
  shape_dims h w s → (1 ≤ h)%nat → shape_dims w h (rotate_matrix_ccw s).
Proof.
  intros Hd Hh. unfold rotate_matrix_ccw. apply shape_dims_reverse.
  by apply zip_star_spec.
Qed.

(** X21. On a matrix with at least one row and one column, four turns of
    [rotate_matrix] give the matrix back, so [rotate_piece] adds up: a
    rotation by [a] followed by one by [b] is the rotation by [a + b],
    for all integers. The counter-clockwise turn is the rotation by 3 and
    the half turn of [try_rotation_180] the rotation by 2. *)
Theorem rotate_piece_adds_up s h w (a b : Z) :
  shape_dims h w s → (1 ≤ h)%nat → (1 ≤ w)%nat →
  rotate_piece (rotate_piece s a) b = rotate_piece s (a + b)
  ∧ rotate_matrix (rotate_piece s a) = rotate_piece s (a + 1)
  ∧ rotate_matrix (rotate_matrix (rotate_piece s a)) = rotate_piece s (a + 2)
  ∧ rotate_matrix_ccw (rotate_piece s a) = rotate_piece s (a + 3).
Proof.
  intros Hd Hh Hw.
  pose proof (Z.mod_pos_bound b 4 ltac:(lia)) as Hb.
  split_and!.
  - unfold rotate_piece at 1.
    rewrite (rotate_piece_after s h w a _ Hd Hh Hw).
    unfold rotate_piece. do 2 f_equal. rewrite Z2Nat.id by lia.
    by rewrite Z.add_mod_idemp_r by lia.
  - exact (rotate_piece_after s h w a 1 Hd Hh Hw).
  - exact (rotate_piece_after s h w a 2 Hd Hh Hw).
  - by apply rotate_matrix_ccw_piece with h w.
Qed.

Lemma rotate_piece_adds_up_witness :
  rotate_piece (rotate_piece [[0; 1; 0]; [1; 1; 1]; [0; 0; 0]] 3) 2
  = rotate_piece [[0; 1; 0]; [1; 1; 1]; [0; 0; 0]] (3 + 2)
  ∧ rotate_matrix (rotate_piece [[0; 1; 0]; [1; 1; 1]; [0; 0; 0]] 3)
    = rotate_piece [[0; 1; 0]; [1; 1; 1]; [0; 0; 0]] (3 + 1)
  ∧ rotate_matrix (rotate_matrix (rotate_piece [[0; 1; 0]; [1; 1; 1]; [0; 0; 0]] 3))
    = rotate_piece [[0; 1; 0]; [1; 1; 1]; [0; 0; 0]] (3 + 2)
  ∧ rotate_matrix_ccw (rotate_piece [[0; 1; 0]; [1; 1; 1]; [0; 0; 0]] 3)
    = rotate_piece [[0; 1; 0]; [1; 1; 1]; [0; 0; 0]] (3 + 3).
Proof.
  apply (rotate_piece_adds_up [[0; 1; 0]; [1; 1; 1]; [0; 0; 0]] 3 3 3 2).
  - split; [reflexivity|]. repeat constructor.
  - lia.
  - lia.
Defined.

End turning.

(** ** Rotation with wall kicks *)

Section kicks.
Implicit Types (board shape : matrix) (x y : Z) (kicks : list (Z * Z)).

Lemma dict_get_cases {K V} `{EqDecision K} (d : list (K * V)) (k : K) (dflt : V) :
  dict_get d k dflt = dflt ∨ dict_get d k dflt ∈ snd <$> d.
Proof.
  unfold dict_get. induction d as [|[k' v] d IH]; [by left|].
  cbn [find fst]. case_bool_decide.
  - right. cbn. left.
  - destruct IH as [IH|IH]; [by left|right]. rewrite fmap_cons. by right.
Qed.

Lemma kick_tables_within (key : Z * Z) :
  kicks_within 2 (dict_get SRS_KICKS_JLSTZ key [(0, 0)])
  ∧ Z.of_nat (length (dict_get SRS_KICKS_JLSTZ key [(0, 0)])) ≤ 5
  ∧ kicks_within 2 (dict_get SRS_KICKS_I key [(0, 0)])
  ∧ Z.of_nat (length (dict_get SRS_KICKS_I key [(0, 0)])) ≤ 5
  ∧ kicks_within 1 (dict_get SRS_KICKS_180_JLSTZ key [(0, 0)])
  ∧ Z.of_nat (length (dict_get SRS_KICKS_180_JLSTZ key [(0, 0)])) ≤ 6
  ∧ kicks_within 1 (dict_get SRS_KICKS_180_I key [(0, 0)])
  ∧ Z.of_nat (length (dict_get SRS_KICKS_180_I key [(0, 0)])) ≤ 2.
Proof.
  assert (∀ bound n table,
    forallb (λ kv : (Z * Z) * list (Z * Z),
      bool_decide (head kv.2 = Some (0, 0))
      && forallb (λ k : Z * Z, (- bound <=? k.1) && (k.1 <=? bound)
                               && (- bound <=? k.2) && (k.2 <=? bound)) kv.2
      && (Z.of_nat (length kv.2) <=? n)) table = true →
    1 ≤ bound → 1 ≤ n →
    kicks_within bound (dict_get table key [(0, 0)])
    ∧ Z.of_nat (length (dict_get table key [(0, 0)])) ≤ n) as Hcheck.
  { intros bound n table Htab Hb Hn.
    destruct (dict_get_cases table key [(0, 0)]) as [->|Hin].
    - split; [|cbn; lia]. split; [done|]. apply Forall_singleton. cbn. lia.
    - apply list_elem_of_fmap in Hin as (kv & -> & Hkv).
      rewrite forallb_forall in Htab.
      specialize (Htab kv (proj1 (list_elem_of_In _ _) Hkv)).
      apply andb_true_iff in Htab as [Htab Hlen].
      apply andb_true_iff in Htab as [Hhead Hall].
      apply bool_decide_eq_true in Hhead. apply Z.leb_le in Hlen.
      split; [|done]. split; [done|].
      apply Forall_forall. intros k Hk. rewrite forallb_forall in Hall.
      specialize (Hall k (proj1 (list_elem_of_In _ _) Hk)). lia. }
  destruct (Hcheck 2 5 SRS_KICKS_JLSTZ) as [? ?]; [by vm_compute|lia..|].
  destruct (Hcheck 2 5 SRS_KICKS_I) as [? ?]; [by vm_compute|lia..|].
  destruct (Hcheck 1 6 SRS_KICKS_180_JLSTZ) as [? ?]; [by vm_compute|lia..|].
  destruct (Hcheck 1 2 SRS_KICKS_180_I) as [? ?]; [by vm_compute|lia..|].
  done.
Qed.

Lemma try_kicks_from board new_shape x y new_rotation kicks : ∀ (a : nat) r,
  for_return (zip (Z.of_nat <$> seq a (length kicks)) kicks) (λ ik,
    hit ← collide board new_shape (x + ik.2.1) (y + ik.2.2);
    if negb hit
    then Ret (Some (Rotation new_shape (x + ik.2.1) (y + ik.2.2) new_rotation ik.1))
    else Ret None) = Ret (Some r) →
  ∃ i k, kicks !! i = Some k
         ∧ r = Rotation new_shape (x + k.1) (y + k.2) new_rotation (Z.of_nat (a + i))
         ∧ collide board new_shape (x + k.1) (y + k.2) = Ret false
         ∧ ∀ i' k', (i' < i)%nat → kicks !! i' = Some k' →
             collide board new_shape (x + k'.1) (y + k'.2) = Ret true.
Proof.
  induction kicks as [|k kicks IH]; intros a r Hr; [discriminate|].
  cbn [length seq fmap list_fmap zip zip_with for_return fst snd] in Hr.
  apply bind_Ret_inv in Hr as (o & Ho & Hr).
  apply bind_Ret_inv in Ho as (hit & Hhit & Ho).
  destruct hit; cbn [negb] in Ho; injection Ho as <-.
  - destruct (IH (S a) r Hr) as (i & k' & Hk' & -> & Hfree & Hbefore).
    exists (S i), k'. split_and!; [done| |done|].
    + do 2 f_equal. lia.
    + intros [|i'] k2 Hi' Hk2; [by injection Hk2 as <-|].
      apply (Hbefore i'); [lia|done].
  - injection Hr as <-. exists 0%nat, k. split_and!; [done| |done|].
    + do 2 f_equal. lia.
    + intros i' k' Hi'. lia.
Qed.

Lemma try_kicks_Some board new_shape x y new_rotation kicks r :
  try_kicks board new_shape x y new_rotation kicks = Ret (Some r) →
  ∃ i k, kicks !! i = Some k
         ∧ r = Rotation new_shape (x + k.1) (y + k.2) new_rotation (Z.of_nat i)
         ∧ collide board new_shape (x + k.1) (y + k.2) = Ret false
         ∧ ∀ i' k', (i' < i)%nat → kicks !! i' = Some k' →
             collide board new_shape (x + k'.1) (y + k'.2) = Ret true.
Proof. intros Hr. exact (try_kicks_from board new_shape x y new_rotation kicks 0 r Hr). Qed.

(** What a successful rotation has, given the bound of its kick list. *)
Lemma try_kicks_within board new_shape x y new_rotation kicks (bound n : Z) r :
  kicks_within bound kicks → Z.of_nat (length kicks) ≤ n →
  try_kicks board new_shape x y new_rotation kicks = Ret (Some r) →
  r_shape r = new_shape ∧ r_rotation r = new_rotation
  ∧ collide board new_shape (r_x r) (r_y r) = Ret false
  ∧ 0 ≤ r_kick r < n
  ∧ - bound ≤ r_x r - x ≤ bound ∧ - bound ≤ r_y r - y ≤ bound
  ∧ (r_kick r = 0 ↔ collide board new_shape x y = Ret false)
  ∧ (r_kick r = 0 → r_x r = x ∧ r_y r = y).
Proof.
  intros [Hhead Hall] Hlen Hr.
  destruct (try_kicks_Some _ _ _ _ _ _ _ Hr) as (i & k & Hk & -> & Hfree & Hbefore).
  cbn [r_shape r_rotation r_x r_y r_kick].
  pose proof (lookup_lt_Some _ _ _ Hk) as Hi.
  pose proof (Forall_lookup_1 _ _ _ _ Hall Hk) as Hb. cbn in Hb.
  assert (kicks !! 0%nat = Some (0, 0)) as H0.
  { destruct kicks; [done|]. cbn in Hhead. by injection Hhead as ->. }
  split_and!; [done|done|done|lia|lia|lia|lia|lia|lia| |].
  - split.
    + intros Hz. assert (i = 0%nat) as -> by lia.
      rewrite H0 in Hk. injection Hk as <-. cbn [fst snd] in Hfree.
      by rewrite !Z.add_0_r in Hfree.
    + intros Hfit. destruct i as [|i]; [done|].
      specialize (Hbefore 0%nat (0, 0) ltac:(lia) H0). cbn [fst snd] in Hbefore.
      rewrite !Z.add_0_r in Hbefore. congruence.
  - intros Hz. assert (i = 0%nat) as -> by lia.
    rewrite H0 in Hk. injection Hk as <-. cbn [fst snd]. lia.
Qed.

Lemma try_kicks_total_from board new_shape x y new_rotation kicks : ∀ (a : nat),
  (∀ k, k ∈ kicks → ∃ b, collide board new_shape (x + k.1) (y + k.2) = Ret b) →
  ∃ o,
    for_return (zip (Z.of_nat <$> seq a (length kicks)) kicks) (λ ik,
      hit ← collide board new_shape (x + ik.2.1) (y + ik.2.2);
      if negb hit
      then Ret (Some (Rotation new_shape (x + ik.2.1) (y + ik.2.2) new_rotation ik.1))
      else Ret None) = Ret o
    ∧ (o = None →
       ∀ k, k ∈ kicks → collide board new_shape (x + k.1) (y + k.2) = Ret true).
Proof.
  induction kicks as [|k kicks IH]; intros a Hk.
  - exists None. split; [done|]. intros _ k Hin. by apply elem_of_nil in Hin.
  - cbn [length seq fmap list_fmap zip zip_with for_return fst snd].
    destruct (Hk k ltac:(left)) as [hit Hhit]. rewrite Hhit.
    cbn [mbind result_bind]. destruct hit; cbn [negb mbind result_bind].
    + destruct (IH (S a)) as (o & Ho & Hnone).
      { intros k' Hk'. apply Hk. by right. }
      exists o. split; [done|]. intros Hn k' Hk'.
      apply elem_of_cons in Hk' as [->|Hk']; [done|by apply Hnone].
    + eexists. split; [done|]. discriminate.
Qed.

Lemma try_kicks_total board new_shape h w x y new_rotation kicks :
  board_dims board → shape_dims h w new_shape → kicks_within 2 kicks →
  ∃ o, try_kicks board new_shape x y new_rotation kicks = Ret o
       ∧ (o = None → overlaps board new_shape x y = true).
Proof.
  intros Hb Hs [Hhead _].
  pose proof (shape_dims_rectangular new_shape h w Hs) as Hrect.
  destruct (try_kicks_total_from board new_shape x y new_rotation kicks 0) as (o & Ho & Hn).
  { intros k _. eexists. by apply collide_overlaps. }
  exists o. split; [exact Ho|]. intros Hnone.
  destruct kicks as [|k0 kicks]; [done|]. cbn in Hhead. injection Hhead as ->.
  specialize (Hn Hnone (0, 0) ltac:(left)). cbn [fst snd] in Hn.
  rewrite !Z.add_0_r, (collide_overlaps board new_shape x y Hb Hrect) in Hn.
  by injection Hn.
Qed.

Lemma kicks_within_weaken kicks : kicks_within 1 kicks → kicks_within 2 kicks.
Proof.
  intros [Hh Ha]. split; [done|]. eapply Forall_impl; [exact Ha|].
  intros k Hk. cbn in *. lia.
Qed.

(** X22. A rotation that [try_rotation] grants: the piece is not O, the
    shape is the clockwise or counter-clockwise turn of the old one and
    the rotation index moves by 1 or 3 modulo 4; the piece does not
    collide at the new position, which is at most 2 columns and 2 rows
    away; the kick index is one of 0..4, and it is 0 exactly when the
    turned piece fits where the piece was, in which case the position is
    unchanged. If the old shape was a base shape turned
    [current_rotation] times, the new shape is the base shape turned by
    the new rotation index. *)
Theorem try_rotation_sound board shape x y (piece_name : string)
    (current_rotation : Z) (clockwise : bool) (r : rotation) :
  try_rotation board shape x y piece_name current_rotation clockwise = Ret (Some r) →
  piece_name ≠ "O"%string
  ∧ r_shape r = (if clockwise then rotate_matrix shape else rotate_matrix_ccw shape)
  ∧ r_rotation r = (current_rotation + (if clockwise then 1 else 3)) `mod` 4
  ∧ collide board (r_shape r) (r_x r) (r_y r) = Ret false
  ∧ 0 ≤ r_kick r < 5
  ∧ -2 ≤ r_x r - x ≤ 2 ∧ -2 ≤ r_y r - y ≤ 2
  ∧ (r_kick r = 0 ↔ collide board (r_shape r) x y = Ret false)
  ∧ (r_kick r = 0 → r_x r = x ∧ r_y r = y)
  ∧ (∀ base h w, shape_dims h w base → (1 ≤ h)%nat → (1 ≤ w)%nat →
       shape = rotate_piece base current_rotation →
       r_shape r = rotate_piece base (r_rotation r)).
Proof.
  unfold try_rotation. intros Hr.
  case_bool_decide as HO; [discriminate|].
  set (new_rotation := (current_rotation + (if clockwise then 1 else 3)) `mod` 4) in *.
  set (new_shape := if clockwise then rotate_matrix shape else rotate_matrix_ccw shape)
    in *.
  set (kick_table := if bool_decide (piece_name = "I"%string) then SRS_KICKS_I
                     else SRS_KICKS_JLSTZ) in *.
  assert (kicks_within 2 (dict_get kick_table (current_rotation, new_rotation) [(0, 0)])
          ∧ Z.of_nat (length (dict_get kick_table (current_rotation, new_rotation)
                                [(0, 0)])) ≤ 5) as [Hk Hl].
  { destruct (kick_tables_within (current_rotation, new_rotation))
      as (? & ? & ? & ? & _).
    subst kick_table. by case_bool_decide. }
  destruct (try_kicks_within _ _ _ _ _ _ 2 5 r Hk Hl Hr)
    as (Hs & Hrot & Hfree & Hkick & Hx & Hy & Hzero & Hplace).
  rewrite Hs. split_and!; try done; try lia.
  intros base h w Hd Hh Hw ->. rewrite Hrot. subst new_shape new_rotation.
  rewrite rotate_piece_mod. destruct clockwise.
  - exact (rotate_piece_after base h w current_rotation 1 Hd Hh Hw).
  - by apply rotate_matrix_ccw_piece with h w.
Qed.

(** A T piece pointing right against the left wall, turned clockwise:
    the first kick of the pair (1, 2) moves it one column to the right. *)
Lemma try_rotation_sound_witness :
  collide new_board (rotate_matrix [[0; 1; 0]; [0; 1; 1]; [0; 1; 0]]) 0 5 = Ret false
  ∧ 0 ≤ 1 < 5.
Proof.
  pose proof (try_rotation_sound new_board [[0; 1; 0]; [0; 1; 1]; [0; 1; 0]] (-1) 5
                "T" 1 true
                (Rotation (rotate_matrix [[0; 1; 0]; [0; 1; 1]; [0; 1; 0]]) 0 5 2 1))
    as H.
  destruct H as (_ & _ & _ & Hfree & Hkick & _).
  - vm_compute. reflexivity.
  - split; [exact Hfree|exact Hkick].
Defined.

(** X23. A half turn that [try_rotation_180] grants: the piece is not O,
    the shape is the old one turned twice and the rotation index moves
    by 2 modulo 4; the piece does not collide at the new position, which
    is at most 1 column and 1 row away; the kick index is one of 0..5,
    and it is 0 exactly when the turned piece fits where the piece was.
    If the old shape was a base shape turned [current_rotation] times,
    the new shape is the base shape turned by the new rotation index. *)
Theorem try_rotation_180_sound board shape x y (piece_name : string)
    (current_rotation : Z) (r : rotation) :
  try_rotation_180 board shape x y piece_name current_rotation = Ret (Some r) →
  piece_name ≠ "O"%string
  ∧ r_shape r = rotate_matrix (rotate_matrix shape)
  ∧ r_rotation r = (current_rotation + 2) `mod` 4
  ∧ collide board (r_shape r) (r_x r) (r_y r) = Ret false
  ∧ 0 ≤ r_kick r < 6
  ∧ -1 ≤ r_x r - x ≤ 1 ∧ -1 ≤ r_y r - y ≤ 1
  ∧ (r_kick r = 0 ↔ collide board (r_shape r) x y = Ret false)
  ∧ (r_kick r = 0 → r_x r = x ∧ r_y r = y)
  ∧ (∀ base h w, shape_dims h w base → (1 ≤ h)%nat → (1 ≤ w)%nat →
       shape = rotate_piece base current_rotation →
       r_shape r = rotate_piece base (r_rotation r)).
Proof.
  unfold try_rotation_180. intros Hr.
  case_bool_decide as HO; [discriminate|].
  set (new_rotation := (current_rotation + 2) `mod` 4) in *.
  set (kick_table := if bool_decide (piece_name = "I"%string) then SRS_KICKS_180_I
                     else SRS_KICKS_180_JLSTZ) in *.
  assert (kicks_within 1 (dict_get kick_table (current_rotation, new_rotation) [(0, 0)])
          ∧ Z.of_nat (length (dict_get kick_table (current_rotation, new_rotation)
                                [(0, 0)])) ≤ 6) as [Hk Hl].
  { destruct (kick_tables_within (current_rotation, new_rotation))
      as (_ & _ & _ & _ & ? & ? & ? & ?).
    subst kick_table. case_bool_decide; [split; [done|lia]|done]. }
  destruct (try_kicks_within _ _ _ _ _ _ 1 6 r Hk Hl Hr)
    as (Hs & Hrot & Hfree & Hkick & Hx & Hy & Hzero & Hplace).
  rewrite Hs. split_and!; try done; try lia.
  intros base h w Hd Hh Hw ->. rewrite Hrot. subst new_rotation.
  rewrite rotate_piece_mod.
  exact (rotate_piece_after base h w current_rotation 2 Hd Hh Hw).
Qed.

(** An I piece on the floor, pointing down, under a block in the row
    above: the half turn does not fit in place and the kick one row up is
    taken. *)
Lemma try_rotation_180_sound_witness :
  collide (<[18%nat := [0; 0; 0; 1; 0; 0; 0; 0; 0; 0]]> new_board)
    (rotate_matrix (rotate_matrix [[0; 0; 0; 0]; [0; 0; 0; 0]; [1; 1; 1; 1]; [0; 0; 0; 0]]))
    3 16 = Ret false
  ∧ 0 ≤ 1 < 6.
Proof.
  pose proof (try_rotation_180_sound
                (<[18%nat := [0; 0; 0; 1; 0; 0; 0; 0; 0; 0]]> new_board)
                [[0; 0; 0; 0]; [0; 0; 0; 0]; [1; 1; 1; 1]; [0; 0; 0; 0]] 3 17 "I" 2
                (Rotation
                   (rotate_matrix
                      (rotate_matrix
                         [[0; 0; 0; 0]; [0; 0; 0; 0]; [1; 1; 1; 1]; [0; 0; 0; 0]]))
                   3 16 0 1))
    as H.
  destruct H as (_ & _ & _ & Hfree & Hkick & _).
  - vm_compute. reflexivity.
  - split; [exact Hfree|exact Hkick].
Defined.

(** X24. On a board of 20 rows of 10 cells and for a shape with at least
    one row and one column, neither rotation function fails; each
    refuses a rotation only for the piece O or when the turned piece
    does not fit where the piece was. *)
Theorem rotation_never_fails board shape (h w : nat) x y (piece_name : string)
    (current_rotation : Z) (clockwise : bool) :
  board_dims board → shape_dims h w shape → (1 ≤ h)%nat → (1 ≤ w)%nat →
  (∃ o, try_rotation board shape x y piece_name current_rotation clockwise = Ret o
        ∧ (o = None →
           piece_name = "O"%string
           ∨ overlaps board
               (if clockwise then rotate_matrix shape else rotate_matrix_ccw shape)
               x y = true))
  ∧ (∃ o, try_rotation_180 board shape x y piece_name current_rotation = Ret o
          ∧ (o = None →
             piece_name = "O"%string
             ∨ overlaps board (rotate_matrix (rotate_matrix shape)) x y = true)).
Proof.
  intros Hb Hd Hh Hw. split.
  - unfold try_rotation. case_bool_decide as HO; [exists None; split; [done|by left]|].
    set (new_rotation := (current_rotation + (if clockwise then 1 else 3)) `mod` 4).
    destruct (kick_tables_within (current_rotation, new_rotation))
      as (HJ & _ & HI & _ & _).
    assert (shape_dims w h
              (if clockwise then rotate_matrix shape else rotate_matrix_ccw shape)) as Hn.
    { destruct clockwise; [by apply rotate_matrix_spec|by apply rotate_matrix_ccw_dims]. }
    destruct (try_kicks_total board _ w h x y new_rotation
                (dict_get (if bool_decide (piece_name = "I"%string) then SRS_KICKS_I
                           else SRS_KICKS_JLSTZ) (current_rotation, new_rotation)
                   [(0, 0)]) Hb Hn) as (o & Ho & Hnone).
    { by case_bool_decide. }
    exists o. split; [exact Ho|]. intros Hz. right. by apply Hnone.
  - unfold try_rotation_180. case_bool_decide as HO; [exists None; split; [done|by left]|].
    set (new_rotation := (current_rotation + 2) `mod` 4).
    destruct (kick_tables_within (current_rotation, new_rotation))
      as (_ & _ & _ & _ & HJ & _ & HI & _).
    assert (shape_dims h w (rotate_matrix (rotate_matrix shape))) as Hn.
    { by apply rotate_twice_spec. }
    destruct (try_kicks_total board _ h w x y new_rotation
                (dict_get (if bool_decide (piece_name = "I"%string) then SRS_KICKS_180_I
                           else SRS_KICKS_180_JLSTZ) (current_rotation, new_rotation)
                   [(0, 0)]) Hb Hn) as (o & Ho & Hnone).
    { apply kicks_within_weaken. by case_bool_decide. }
    exists o. split; [exact Ho|]. intros Hz. right. by apply Hnone.
Qed.

Lemma rotation_never_fails_witness :
  (∃ o, try_rotation new_board [[0; 1; 0]; [1; 1; 1]; [0; 0; 0]] 4 (-1) "T" 0 false
        = Ret o)
  ∧ (∃ o, try_rotation_180 new_board [[0; 1; 0]; [1; 1; 1]; [0; 0; 0]] 4 (-1) "T" 0
          = Ret o).
Proof.
  destruct (rotation_never_fails new_board [[0; 1; 0]; [1; 1; 1]; [0; 0; 0]] 3 3 4 (-1)
              "T" 0 false) as [(o1 & H1 & _) (o2 & H2 & _)].
  - split; [reflexivity|]. repeat constructor.
  - split; [reflexivity|]. repeat constructor.
  - lia.
  - lia.
  - split; [by exists o1|by exists o2].
Defined.

End kicks.

(** ** Locking a piece *)

Section locking.
Implicit Types (board b s : matrix) (x y color R C r c : Z).

(** A loop that keeps an invariant of the indices done so far. *)
Lemma for_fold_prefix_invariant {I S} (P : list I → S → Prop) (idxs : list I)
    (body : S → I → result S) (s0 : S) :
  P [] s0 →
  (∀ pre i post st, idxs = pre ++ i :: post → P pre st →
     ∃ st', body st i = Ret st' ∧ P (pre ++ [i]) st') →
  ∃ st', for_fold idxs body s0 = Ret st' ∧ P idxs st'.
Proof.
  intros H0 Hstep.
  assert (∀ rest pre st, idxs = pre ++ rest → P pre st →
            ∃ st', for_fold rest body st = Ret st' ∧ P (pre ++ rest) st') as H.
  { induction rest as [|i rest IH]; intros pre st Hsplit HP.
    - exists st. by rewrite app_nil_r.
    - destruct (Hstep pre i rest st Hsplit HP) as (st1 & Hb & HP1).
      cbn [for_fold]. rewrite Hb. cbn [mbind result_bind].
      destruct (IH (pre ++ [i]) st1) as (st' & Hf & HP'); [|done|].
      { by rewrite <- app_assoc. }
      exists st'. split; [done|]. by rewrite <- app_assoc in HP'. }
  exact (H idxs [] s0 eq_refl H0).
Qed.

(** Two nested loops as one loop over the pairs of indices. *)
Lemma nested_for_fold_pairs {S} (rows : list Z) (w : nat)
    (f : Z → Z → S → result S) (st : S) :
  for_fold rows (λ acc r, for_fold (range w) (λ acc' c, f r c acc') acc) st
  = for_fold (flat_map (λ r, (λ c, (r, c)) <$> range w) rows)
      (λ acc rc, f rc.1 rc.2 acc) st.
Proof.
  revert st. induction rows as [|r rows IH]; intros st; [done|].
  cbn [for_fold flat_map]. rewrite for_fold_app.
  assert (∀ (cs : list Z) st0,
            for_fold cs (λ acc' c, f r c acc') st0
            = for_fold ((λ c, (r, c)) <$> cs) (λ acc rc, f rc.1 rc.2 acc) st0) as Hin.
  { induction cs as [|c cs IHc]; intros st0; [done|].
    cbn [for_fold fmap list_fmap fst snd]. destruct (f r c st0); [|done..].
    cbn [mbind result_bind]. apply IHc. }
  rewrite Hin. destruct (for_fold _ _ st); [|done..].
  cbn [mbind result_bind]. apply IH.
Qed.

(** The two loops over the rows and the columns of a shape, the inner
    one reading the width from the first row, as one loop over the cells
    of the shape. *)
Lemma nested_for_fold {S} (rows : list Z) (w : nat) (row0 : list Z) s
    (f : Z → Z → S → result S) (st : S) :
  py_get s 0 = Ret row0 → length row0 = w →
  for_fold rows (λ acc r,
    row0 ← py_get s 0;
    for_fold (range (length row0)) (λ acc' c, f r c acc') acc) st
  = for_fold (flat_map (λ r, (λ c, (r, c)) <$> range w) rows)
      (λ acc rc, f rc.1 rc.2 acc) st.
Proof.
  intros H0 Hw. rewrite H0. cbn [mbind result_bind]. rewrite Hw.
  apply nested_for_fold_pairs.
Qed.

Lemma existsb_flat_map {A B} (p : B → bool) (f : A → list B) (l : list A) :
  existsb p (flat_map f l) = existsb (λ a, existsb p (f a)) l.
Proof.
  induction l as [|a l IH]; [done|]. cbn [flat_map existsb].
  by rewrite existsb_app, IH.
Qed.

Lemma existsb_fmap {A B} (p : B → bool) (f : A → B) (l : list A) :
  existsb p (f <$> l) = existsb (λ a, p (f a)) l.
Proof. induction l as [|a l IH]; [done|]. cbn. by rewrite IH. Qed.

Lemma cell_at_insert b (ny nx : nat) (v : Z) (brow : list Z) R C :
  b !! ny = Some brow → (nx < length brow)%nat → 0 ≤ R → 0 ≤ C →
  cell_at (<[ny := <[nx := v]> brow]> b) R C
  = if (Z.of_nat ny =? R) && (Z.of_nat nx =? C) then v else cell_at b R C.
Proof.
  intros Hb Hnx HR HC. unfold cell_at.
  pose proof (lookup_lt_Some _ _ _ Hb) as Hny.
  destruct (Z.eqb_spec (Z.of_nat ny) R) as [HeR|HneR]; cbn [andb].
  - replace (Z.to_nat R) with ny by lia.
    rewrite list_lookup_insert_eq by done. cbn [mbind option_bind].
    destruct (Z.eqb_spec (Z.of_nat nx) C) as [HeC|HneC].
    + replace (Z.to_nat C) with nx by lia. by rewrite list_lookup_insert_eq.
    + rewrite list_lookup_insert_ne by lia. by rewrite Hb.
  - by rewrite list_lookup_insert_ne by lia.
Qed.

Lemma lock_cell_frame s x y color r c b :
  board_dims b → rectangular s →
  r ∈ range (length s) → c ∈ range (length (default [] (head s))) →
  (truthy (cell_at s r c) = true → 0 ≤ x + c < WIDTH ∧ y + r < HEIGHT) →
  ∃ b', lock_cell s x y color r c b = Ret b' ∧ board_dims b'
        ∧ ∀ R C, 0 ≤ R → 0 ≤ C →
            cell_at b' R C
            = if truthy (cell_at s r c) && (y + r =? R) && (x + c =? C) then color
              else cell_at b R C.
Proof.
  intros Hd Hrect Hr Hc Hin. unfold lock_cell.
  destruct (rectangular_cell s r c Hrect Hr Hc) as (srow & Hs & Hv).
  rewrite Hs. cbn [mbind result_bind]. rewrite Hv. cbn [mbind result_bind].
  destruct (truthy (cell_at s r c)) eqn:Ht; cbn [andb]; [|by exists b].
  destruct (Z.geb_spec (y + r) 0) as [Hny|Hny].
  - destruct Hin as [Hx Hy]; [done|].
    destruct (board_dims_row b (y + r) Hd) as (brow & Hl & Hg & Hw); [lia|].
    rewrite Hg. cbn [mbind result_bind]. rewrite py_set_in_range by lia.
    cbn [mbind result_bind]. rewrite py_set_in_range by (destruct Hd as [-> _]; lia).
    eexists. split; [done|]. split.
    + destruct Hd as [Hlen Hrows]. split; [by rewrite length_insert|].
      apply Forall_insert; [done|]. by rewrite length_insert.
    + intros R C HR HC. rewrite (cell_at_insert b _ _ color brow R C Hl) by lia.
      by rewrite !Z2Nat.id by lia.
  - exists b. split_and!; [done..|]. intros R C HR HC.
    by destruct (Z.eqb_spec (y + r) R); [lia|].
Qed.

Lemma lock_frame board s x y color :
  board_dims board → rectangular s → collide board s x y = Ret false →
  ∃ board', lock board s x y color = Ret board' ∧ board_dims board'
            ∧ ∀ R C, 0 ≤ R → 0 ≤ C →
                cell_at board' R C
                = if covers s x y R C then color else cell_at board R C.
Proof.
  intros Hd Hrect Hfree.
  rewrite (collide_overlaps board s x y Hd Hrect) in Hfree. injection Hfree as Hfree.
  unfold lock. destruct s as [|row0 s'] eqn:Es.
  { exists board. split_and!; [done..|]. by intros R C _ _. }
  rewrite <- Es in *.
  assert (py_get s 0 = Ret row0) as H0 by (by rewrite Es).
  assert (length (default [] (head s)) = length row0) as Hw by (by rewrite Es).
  rewrite (nested_for_fold (range (length s)) (length row0) row0 s
             (λ r c acc, lock_cell s x y color r c acc) board H0 eq_refl).
  set (cells := flat_map (λ r, (λ c, (r, c)) <$> range (length row0)) (range (length s))).
  destruct (for_fold_prefix_invariant
              (λ (pre : list (Z * Z)) b,
                 board_dims b
                 ∧ ∀ R C, 0 ≤ R → 0 ≤ C →
                     cell_at b R C
                     = if existsb (λ rc : Z * Z,
                            truthy (cell_at s rc.1 rc.2) && (y + rc.1 =? R)
                            && (x + rc.2 =? C)) pre
                       then color else cell_at board R C)
              cells (λ b (rc : Z * Z), lock_cell s x y color rc.1 rc.2 b) board)
    as (board' & Hl & Hd' & Hcells).
  - split; [done|]. by intros R C _ _.
  - intros pre [r c] post b Hsplit [Hdb Hb]. cbn [fst snd].
    assert ((r, c) ∈ cells) as Hin.
    { rewrite Hsplit. apply elem_of_app. right. left. }
    clear Hsplit. subst cells. apply list_elem_of_In, in_flat_map in Hin as (r' & Hr' & Hin).
    apply list_elem_of_In, list_elem_of_fmap in Hin as (c' & [= <- <-] & Hc').
    apply list_elem_of_In in Hr'.
    destruct (lock_cell_frame s x y color r c b Hdb Hrect Hr')
      as (b' & Hb' & Hdb' & Hcell').
    { by rewrite Hw. }
    { intros Ht. unfold overlaps in Hfree.
      rewrite <- not_true_iff_false, existsb_exists in Hfree.
      assert (blocked board (x + c) (y + r) = false) as Hbl.
      { destruct (blocked board (x + c) (y + r)) eqn:Hbl; [|done].
        exfalso. apply Hfree. exists r. split; [by apply list_elem_of_In|].
        apply existsb_exists. exists c. split; [rewrite Hw; by apply list_elem_of_In|].
        by rewrite Ht, Hbl. }
      unfold blocked in Hbl. apply orb_false_elim in Hbl as [Hbl _].
      apply orb_false_elim in Hbl as [Hbl Hbot]. apply orb_false_elim in Hbl as [Hl Hr].
      lia. }
    exists b'. split_and!; [done..|]. intros R C HR HC.
    rewrite (Hcell' R C HR HC), existsb_app. cbn [existsb fst snd].
    rewrite orb_false_r, (Hb R C HR HC).
    destruct (existsb _ pre), (truthy (cell_at s r c) && (y + r =? R) && (x + c =? C));
      done.
  - exists board'. split_and!; [done..|]. intros R C HR HC.
    rewrite (Hcells R C HR HC). unfold covers. subst cells.
    rewrite existsb_flat_map. rewrite Hw.
    assert (∀ rs : list Z,
              existsb (λ a, existsb (λ rc : Z * Z,
                              truthy (cell_at s rc.1 rc.2) && (y + rc.1 =? R)
                              && (x + rc.2 =? C))
                            ((λ c, (a, c)) <$> range (length row0))) rs
              = existsb (λ r, existsb (λ c, truthy (cell_at s r c) && (y + r =? R)
                                            && (x + c =? C))
                                (range (length row0))) rs) as Hex.
    { induction rs as [|r rs IH]; [done|]. cbn [existsb].
      by rewrite existsb_fmap, IH. }
    by rewrite Hex.
Qed.

Lemma covers_true s x y R C :
  covers s x y R C = true ↔
  ∃ r c, r ∈ range (length s) ∧ c ∈ range (length (default [] (head s)))
         ∧ truthy (cell_at s r c) = true ∧ y + r = R ∧ x + c = C.
Proof.
  unfold covers. rewrite existsb_exists. split.
  - intros (r & Hr & Hex). apply existsb_exists in Hex as (c & Hc & Hb).
    apply andb_true_iff in Hb as [Hb HC]. apply andb_true_iff in Hb as [Hv HR].
    exists r, c. rewrite !list_elem_of_In. split_and!; [done..|lia|lia].
  - intros (r & c & Hr & Hc & Hv & HR & HC). exists r.
    split; [by apply list_elem_of_In|].
    apply existsb_exists. exists c. split; [by apply list_elem_of_In|].
    rewrite Hv. cbn [andb]. apply andb_true_iff. split; lia.
Qed.

(** X25. Locking a piece where it does not collide, on a board of 20
    rows of 10 cells: [lock] succeeds, the board keeps its dimensions,
    the cells under a filled cell of the shape take the colour and every
    other cell of the board stays as it was. If the colour is not 0 and
    the piece has a filled cell on the board, the piece collides
    afterwards where it was locked. *)
Theorem lock_writes_piece board s x y color :
  board_dims board → rectangular s → collide board s x y = Ret false →
  ∃ board',
    lock board s x y color = Ret board' ∧ board_dims board'
    ∧ (∀ R C, 0 ≤ R → 0 ≤ C →
         cell_at board' R C = if covers s x y R C then color else cell_at board R C)
    ∧ (color ≠ 0 → (∃ R C, 0 ≤ R ∧ 0 ≤ C ∧ covers s x y R C = true) →
       collide board' s x y = Ret true).
Proof.
  intros Hd Hrect Hfree.
  destruct (lock_frame board s x y color Hd Hrect Hfree) as (board' & Hl & Hd' & Hcells).
  exists board'. split_and!; [done..|].
  intros Hcol (R & C & HR & HC & Hcov).
  rewrite (collide_overlaps board' s x y Hd' Hrect). f_equal.
  apply overlaps_true.
  pose proof Hcov as Hcov'.
  apply covers_true in Hcov as (r & c & Hr & Hc & Hv & <- & <-).
  exists r, c. split_and!; [done..|].
  unfold blocked. rewrite (Hcells (y + r) (x + c) HR HC), Hcov'.
  assert (truthy color = true) as -> by (unfold truthy; by destruct (Z.eqb_spec color 0)).
  destruct (Z.geb_spec (y + r) 0); [|lia]. by rewrite !orb_true_r.
Qed.

(** A T piece locked on the floor of the empty board. *)
Lemma lock_writes_piece_witness :
  ∃ board',
    lock new_board [[0; 1; 0]; [1; 1; 1]; [0; 0; 0]] 4 18 3 = Ret board'
    ∧ board_dims board'
    ∧ cell_at board' 19 5 = 3 ∧ cell_at board' 19 7 = 0
    ∧ collide board' [[0; 1; 0]; [1; 1; 1]; [0; 0; 0]] 4 18 = Ret true.
Proof.
  destruct (lock_writes_piece new_board [[0; 1; 0]; [1; 1; 1]; [0; 0; 0]] 4 18 3)
    as (board' & Hl & Hd & Hcells & Hcol).
  - split; [reflexivity|]. repeat constructor.
  - repeat constructor.
  - reflexivity.
  - exists board'. split_and!; [done|done| | |].
    + by rewrite (Hcells 19 5) by lia.
    + by rewrite (Hcells 19 7) by lia.
    + apply Hcol; [lia|]. exists 19, 5. split_and!; [lia|lia|reflexivity].
Defined.

End locking.

(** ** Decoding any payload *)

Section any_payload.
Implicit Types (bits : list Z).

Lemma lor_shift_bit (acc b : Z) :
  bit b → Z.lor (Z.shiftl acc 1) b = 2 * acc + b.
Proof.
  intros [-> | ->].
  - rewrite Z.lor_0_r, Z.shiftl_mul_pow2 by lia. lia.
  - apply Z.bits_inj'. intros n Hn. rewrite Z.lor_spec.
    destruct (decide (n = 0)) as [->|Hn0].
    + rewrite Z.testbit_odd_0. by rewrite orb_true_r.
    + replace n with (Z.succ (n - 1)) by lia.
      rewrite Z.testbit_odd_succ by lia.
      rewrite Z.shiftl_spec by lia.
      replace (Z.succ (n - 1) - 1) with (n - 1) by lia.
      change 1 with (2 * 0 + 1) at 2.
      rewrite Z.testbit_odd_succ, Z.bits_0 by lia. by rewrite orb_false_r.
Qed.

Lemma unpack_bits_bits (byte_array : list Z) : Forall bit (unpack_bits byte_array).
Proof.
  unfold unpack_bits. induction byte_array as [|v l IH]; [constructor|].
  cbn [flat_map]. apply Forall_app. split; [|done].
  apply Forall_fmap, Forall_forall. intros j _. apply land_1_bit.
Qed.

Lemma py_get_bit bits (i : Z) :
  Forall bit bits → 0 ≤ i < Z.of_nat (length bits) →
  ∃ b, py_get bits i = Ret b ∧ bit b.
Proof.
  intros Hb Hi. destruct (py_get_in_range bits i Hi) as (b & Hl & Hg).
  exists b. split; [done|]. exact (Forall_lookup_1 _ _ _ _ Hb Hl).
Qed.

Lemma read_bits_range bits (idx : Z) (n : nat) :
  Forall bit bits → 0 ≤ idx → idx + Z.of_nat n ≤ Z.of_nat (length bits) →
  ∃ v, read_bits bits idx n = Ret v ∧ 0 ≤ v < 2 ^ Z.of_nat n.
Proof.
  intros Hb Hidx Hlen. unfold read_bits.
  destruct (for_fold_prefix_invariant
              (λ (pre : list Z) acc, 0 ≤ acc < 2 ^ Z.of_nat (length pre))
              (range n)
              (λ acc i, b ← py_get bits (idx + i); Ret (Z.lor (Z.shiftl acc 1) b)) 0)
    as (v & Hv & Hr).
  - cbn. lia.
  - intros pre i post acc Hsplit Hacc.
    assert (i ∈ range n) as Hi by (rewrite Hsplit; apply elem_of_app; right; left).
    apply elem_of_range in Hi.
    destruct (py_get_bit bits (idx + i) Hb ltac:(lia)) as (b & Hg & Hbit).
    rewrite Hg. cbn [mbind result_bind]. eexists. split; [done|].
    rewrite (lor_shift_bit acc b Hbit), length_app. cbn [length].
    rewrite Nat2Z.inj_add, Z.pow_add_r by lia. change (2 ^ Z.of_nat 1) with 2.
    destruct Hbit as [-> | ->]; lia.
  - exists v. split; [done|]. unfold range in Hr.
    by rewrite length_fmap, length_seq in Hr.
Qed.

Lemma decode_row_range bits (idx : Z) :
  Forall bit bits → 0 ≤ idx → idx + 40 ≤ Z.of_nat (length bits) →
  ∃ row, decode_row bits idx = Ret (row, idx + 40)
         ∧ length row = Z.to_nat WIDTH ∧ Forall (λ v, 0 ≤ v ≤ 15) row.
Proof.
  intros Hb Hidx Hlen. unfold decode_row.
  destruct (for_fold_prefix_invariant
              (λ (pre : list Z) (st : list Z * Z),
                 st.2 = idx + 4 * Z.of_nat (length pre)
                 ∧ length st.1 = length pre ∧ Forall (λ v, 0 ≤ v ≤ 15) st.1)
              (range (Z.to_nat WIDTH))
              (λ (st : list Z * Z) (c : Z),
                 cell_val ← read_bits bits st.2 4; Ret (st.1 ++ [cell_val], st.2 + 4))
              ([], idx))
    as ([row i] & Hv & Hi & Hl & Hcells).
  - cbn. split_and!; [lia|done|constructor].
  - intros pre c post [row i] Hsplit (Hi & Hl & Hcells). cbn [fst snd] in *.
    assert (length pre < 10)%nat as Hpre.
    { apply (f_equal length) in Hsplit. unfold range in Hsplit.
      rewrite length_fmap, length_seq, length_app in Hsplit. cbn in Hsplit. unfold WIDTH in Hsplit. lia. }
    destruct (read_bits_range bits i 4 Hb) as (v & Hv & Hr);
      [lia|change (Z.of_nat 4) with 4; lia|].
    rewrite Hv. cbn [mbind result_bind]. eexists. split; [done|]. cbn [fst snd].
    rewrite !length_app. cbn [length]. split_and!; [lia|lia|].
    apply Forall_app. split; [done|]. apply Forall_singleton.
    change (2 ^ Z.of_nat 4) with 16 in Hr. lia.
  - cbn [fst snd] in *. unfold range in Hi, Hl.
    rewrite length_fmap, length_seq in Hi, Hl.
    exists row. rewrite Hv. split_and!; [|done..]. do 2 f_equal. subst i. done.
Qed.

Lemma decode_board_range bits :
  Forall bit bits → 800 ≤ Z.of_nat (length bits) →
  ∃ board, decode_board bits = Ret (board, 800)
           ∧ board_dims board ∧ Forall (Forall (λ v, 0 ≤ v ≤ 15)) board.
Proof.
  intros Hb Hlen. unfold decode_board.
  destruct (for_fold_prefix_invariant
              (λ (pre : list Z) (st : matrix * Z),
                 st.2 = 40 * Z.of_nat (length pre)
                 ∧ length st.1 = length pre
                 ∧ Forall (λ row, length row = Z.to_nat WIDTH) st.1
                 ∧ Forall (Forall (λ v, 0 ≤ v ≤ 15)) st.1)
              (range (Z.to_nat HEIGHT))
              (λ (st : matrix * Z) (r : Z),
                 '(row, bit_idx) ← decode_row bits st.2; Ret (st.1 ++ [row], bit_idx))
              ([], 0))
    as ([board i] & Hv & Hi & Hl & Hw & Hcells).
  - cbn. split_and!; [lia|done|constructor|constructor].
  - intros pre r post [board i] Hsplit (Hi & Hl & Hw & Hcells). cbn [fst snd] in *.
    assert (length pre < 20)%nat as Hpre.
    { apply (f_equal length) in Hsplit. unfold range in Hsplit.
      rewrite length_fmap, length_seq, length_app in Hsplit. cbn in Hsplit.
      unfold HEIGHT in Hsplit. lia. }
    destruct (decode_row_range bits i Hb) as (row & Hrow & Hrl & Hrc); [lia|lia|].
    rewrite Hrow. cbn [mbind result_bind]. eexists. split; [done|]. cbn [fst snd].
    rewrite !length_app. cbn [length]. split_and!; [lia|lia| |].
    + apply Forall_app. split; [done|]. by apply Forall_singleton.
    + apply Forall_app. split; [done|]. by apply Forall_singleton.
  - cbn [fst snd] in *. unfold range in Hi, Hl.
    rewrite length_fmap, length_seq in Hi, Hl.
    exists board. rewrite Hv. split_and!; [|done..]. do 2 f_equal. subst i. done.
Qed.

(** X26. [decode_game_state] never fails, whatever text it is given: it
    returns [None] or a state, and every state it returns has a board of
    20 rows of 10 cells with values 0..15, one of the seven piece names,
    a rotation in 0..3, both coordinates in -4..27, the shape of the
    piece in that rotation and the colour of the piece. *)
Theorem decode_game_state_any_payload (encoded : list ascii) :
  ∃ o, decode_game_state encoded = Ret o ∧ ∀ d, o = Some d → decoded_ok d.
Proof.
  unfold decode_game_state.
  destruct (Base64.urlsafe_b64decode _) as [byte_array|]; [|by exists None].
  pose proof (unpack_bits_bits byte_array) as Hb.
  set (bits := unpack_bits byte_array) in *.
  destruct (Z.ltb_spec (Z.of_nat (length bits)) 815) as [|Hlen]; [by exists None|].
  destruct (decode_board_range bits Hb ltac:(lia)) as (board & -> & Hd & Hcells).
  cbn [mbind result_bind].
  destruct (py_get_bit bits 800 Hb ltac:(lia)) as (b0 & -> & Hb0).
  destruct (py_get_bit bits (800 + 1) Hb ltac:(lia)) as (b1 & -> & Hb1).
  destruct (py_get_bit bits (800 + 2) Hb ltac:(lia)) as (b2 & -> & Hb2).
  cbn [mbind result_bind].
  set (piece_idx := Z.lor (Z.lor (Z.shiftl b0 2) (Z.shiftl b1 1)) b2).
  assert (∃ piece_name,
            (if piece_idx <? Z.of_nat (length PIECE_NAMES)
             then py_get PIECE_NAMES piece_idx else Ret "I"%string) = Ret piece_name
            ∧ piece_name ∈ PIECE_NAMES) as (piece_name & -> & Hname).
  { subst piece_idx.
    destruct Hb0 as [-> | ->], Hb1 as [-> | ->], Hb2 as [-> | ->];
      (eexists; split; [reflexivity|compute_done]). }
  cbn [mbind result_bind].
  destruct (py_get_bit bits (800 + 3) Hb ltac:(lia)) as (r0 & -> & Hr0).
  destruct (py_get_bit bits (800 + 3 + 1) Hb ltac:(lia)) as (r1 & -> & Hr1).
  cbn [mbind result_bind].
  destruct (read_bits_range bits (800 + 3 + 2) 5 Hb)
    as (x_enc & -> & Hx); [lia|change (Z.of_nat 5) with 5; lia|].
  cbn [mbind result_bind].
  destruct (read_bits_range bits (800 + 3 + 2 + 5) 5 Hb)
    as (y_enc & -> & Hy); [lia|change (Z.of_nat 5) with 5; lia|].
  cbn [mbind result_bind].
  destruct (piece_tables piece_name Hname) as (base & color & _ & Hbase & Hcolor & _).
  rewrite Hbase. cbn [mbind result_bind].
  eexists. split; [reflexivity|]. intros d [= <-].
  unfold decoded_ok.
  cbn [d_board d_piece_name d_rotation d_piece_x d_piece_y d_shape d_color].
  change (2 ^ Z.of_nat 5) with 32 in Hx, Hy.
  split_and!; [done|done|done| | |lia|lia|lia|lia|by exists base|].
  - rewrite (lor_shift_bit r0 r1 Hr1). destruct Hr0 as [-> | ->], Hr1 as [-> | ->]; lia.
  - rewrite (lor_shift_bit r0 r1 Hr1). destruct Hr0 as [-> | ->], Hr1 as [-> | ->]; lia.
  - rewrite Hcolor.
    destruct (piece_name_cases piece_name Hname) as [->|[->|[->|[->|[->|[->| ->]]]]]];
      vm_compute in Hcolor; injection Hcolor as <-; reflexivity.
Qed.

End any_payload.

(** ** The bounds of a piece *)

Section bounds.
Implicit Types (s : matrix).

Lemma bounds_step s (r c : Z) (st : Z * Z * Z * Z) :
  rectangular s → r ∈ range (length s) → c ∈ range (length (default [] (head s))) →
  (let '(min_r, max_r, min_c, max_c) := st in
   srow ← py_get s r;
   v ← py_get srow c;
   if truthy v
   then Ret (Z.min min_r r, Z.max max_r r, Z.min min_c c, Z.max max_c c)
   else Ret st)
  = Ret (if truthy (cell_at s r c)
         then (Z.min st.1.1.1 r, Z.max st.1.1.2 r, Z.min st.1.2 c, Z.max st.2 c)
         else st).
Proof.
  intros Hrect Hr Hc. destruct st as [[[a b] c0] d].
  destruct (rectangular_cell s r c Hrect Hr Hc) as (srow & -> & Hv).
  cbn [mbind result_bind]. rewrite Hv. cbn [mbind result_bind fst snd].
  by destruct (truthy (cell_at s r c)).
Qed.

(** X27. On a shape with a row, all rows as long as the first one,
    [get_piece_bounds] succeeds. Every filled cell lies inside the bounds
    it returns, and if there is a filled cell each bound is met by one;
    for a shape without a filled cell it returns the number of rows, 0,
    the number of columns and 0. *)
Theorem get_piece_bounds_tight s :
  rectangular s → s ≠ [] →
  ∃ min_r max_r min_c max_c,
    get_piece_bounds s = Ret (min_r, max_r, min_c, max_c)
    ∧ (∀ r c, filled_at s r c → min_r ≤ r ≤ max_r ∧ min_c ≤ c ≤ max_c)
    ∧ (((∀ r c, ¬ filled_at s r c)
        ∧ (min_r, max_r, min_c, max_c)
          = (Z.of_nat (length s), 0, Z.of_nat (length (default [] (head s))), 0))
       ∨ ((∃ c, filled_at s min_r c) ∧ (∃ c, filled_at s max_r c)
          ∧ (∃ r, filled_at s r min_c) ∧ (∃ r, filled_at s r max_c))).
Proof.
  intros Hrect Hne. destruct s as [|row0 s'] eqn:Es; [done|]. rewrite <- Es in *.
  assert (py_get s 0 = Ret row0) as H0 by (by rewrite Es).
  assert (length (default [] (head s)) = length row0) as Hw by (by rewrite Es).
  unfold get_piece_bounds. rewrite H0. cbn [mbind result_bind].
  rewrite (nested_for_fold_pairs (range (length s)) (length row0)
             (λ r c (st : Z * Z * Z * Z),
                let '(min_r, max_r, min_c, max_c) := st in
                srow ← py_get s r;
                v ← py_get srow c;
                if truthy v
                then Ret (Z.min min_r r, Z.max max_r r, Z.min min_c c, Z.max max_c c)
                else Ret st)).
  set (cells := flat_map (λ r, (λ c, (r, c)) <$> range (length row0)) (range (length s))).
  assert (∀ r c, (r, c) ∈ cells ↔
            r ∈ range (length s) ∧ c ∈ range (length (default [] (head s)))) as Hcells.
  { intros r c. subst cells. rewrite Hw, list_elem_of_In, in_flat_map. split.
    - intros (r' & Hr' & Hin).
      apply list_elem_of_In, list_elem_of_fmap in Hin as (c' & [= <- <-] & Hc').
      by rewrite list_elem_of_In.
    - intros [Hr Hc]. exists r. split; [by apply list_elem_of_In|].
      apply list_elem_of_In, list_elem_of_fmap. by exists c. }
  set (h := Z.of_nat (length s)) in *. set (w := Z.of_nat (length row0)) in *.
  destruct (for_fold_prefix_invariant
              (λ (pre : list (Z * Z)) (st : Z * Z * Z * Z),
                 let '(a, b, c0, d) := st in
                 (∀ r c, (r, c) ∈ pre → truthy (cell_at s r c) = true →
                    a ≤ r ≤ b ∧ c0 ≤ c ≤ d)
                 ∧ (((∀ r c, (r, c) ∈ pre → truthy (cell_at s r c) = false)
                     ∧ (a, b, c0, d) = (h, 0, w, 0))
                    ∨ ((∃ c, (a, c) ∈ pre ∧ truthy (cell_at s a c) = true)
                       ∧ (∃ c, (b, c) ∈ pre ∧ truthy (cell_at s b c) = true)
                       ∧ (∃ r, (r, c0) ∈ pre ∧ truthy (cell_at s r c0) = true)
                       ∧ (∃ r, (r, d) ∈ pre ∧ truthy (cell_at s r d) = true))))
              cells
              (λ (st : Z * Z * Z * Z) (rc : Z * Z),
                 let '(min_r, max_r, min_c, max_c) := st in
                 srow ← py_get s rc.1;
                 v ← py_get srow rc.2;
                 if truthy v
                 then Ret (Z.min min_r rc.1, Z.max max_r rc.1, Z.min min_c rc.2,
                           Z.max max_c rc.2)
                 else Ret st)
              (h, 0, w, 0))
    as ([[[a b] c0] d] & Hres & Hin & Hatt).
  - split; [|left; split; [|done]]; intros r c Hrc; by apply elem_of_nil in Hrc.
  - intros pre [r c] post [[[a b] c0] d] Hsplit [Hin Hatt].
    assert ((r, c) ∈ cells) as Hrc by (rewrite Hsplit; apply elem_of_app; right; left).
    apply Hcells in Hrc as [Hr Hc].
    pose proof (bounds_step s r c (a, b, c0, d) Hrect Hr Hc) as Hstep.
    cbn [fst snd] in Hstep |- *. rewrite Hstep. eexists. split; [done|].
    apply elem_of_range in Hr. apply elem_of_range in Hc. fold h in Hr.
    rewrite Hw in Hc. fold w in Hc.
    destruct (truthy (cell_at s r c)) eqn:Hv.
    + split.
      * intros r' c' Hin' Hv'. apply elem_of_app in Hin' as [Hin'|Hin'].
        -- specialize (Hin r' c' Hin' Hv'). lia.
        -- apply list_elem_of_singleton in Hin'. injection Hin' as -> ->. lia.
      * right. destruct Hatt as [[_ [= -> -> -> ->]]|(Ha & Hb & Hc0 & Hd)].
        -- rewrite (Z.min_r h r), (Z.max_r 0 r), (Z.min_r w c), (Z.max_r 0 c) by lia.
           split_and!; eexists; (split; [apply elem_of_app; right; left|done]).
        -- split_and!.
           ++ destruct (Z.min_spec a r) as [[_ ->]|[_ ->]].
              ** destruct Ha as (c1 & H1 & H2). exists c1.
                 split; [apply elem_of_app; by left|done].
              ** exists c. split; [apply elem_of_app; right; left|done].
           ++ destruct (Z.max_spec b r) as [[_ ->]|[_ ->]].
              ** exists c. split; [apply elem_of_app; right; left|done].
              ** destruct Hb as (c1 & H1 & H2). exists c1.
                 split; [apply elem_of_app; by left|done].
           ++ destruct (Z.min_spec c0 c) as [[_ ->]|[_ ->]].
              ** destruct Hc0 as (r1 & H1 & H2). exists r1.
                 split; [apply elem_of_app; by left|done].
              ** exists r. split; [apply elem_of_app; right; left|done].
           ++ destruct (Z.max_spec d c) as [[_ ->]|[_ ->]].
              ** exists r. split; [apply elem_of_app; right; left|done].
              ** destruct Hd as (r1 & H1 & H2). exists r1.
                 split; [apply elem_of_app; by left|done].
    + split.
      * intros r' c' Hin' Hv'. apply elem_of_app in Hin' as [Hin'|Hin'].
        -- by apply Hin.
        -- apply list_elem_of_singleton in Hin'. injection Hin' as -> ->. congruence.
      * destruct Hatt as [[Hnone Heq]|(Ha & Hb & Hc0 & Hd)].
        -- left. split; [|done]. intros r' c' Hin'.
           apply elem_of_app in Hin' as [Hin'|Hin']; [by apply Hnone|].
           apply list_elem_of_singleton in Hin'. by injection Hin' as -> ->.
        -- right. split_and!.
           ++ destruct Ha as (c1 & H1 & H2). exists c1.
              split; [apply elem_of_app; by left|done].
           ++ destruct Hb as (c1 & H1 & H2). exists c1.
              split; [apply elem_of_app; by left|done].
           ++ destruct Hc0 as (r1 & H1 & H2). exists r1.
              split; [apply elem_of_app; by left|done].
           ++ destruct Hd as (r1 & H1 & H2). exists r1.
              split; [apply elem_of_app; by left|done].
  - exists a, b, c0, d. split; [exact Hres|]. split.
    + intros r c (Hr & Hc & Hv). apply Hin; [|done]. by apply Hcells.
    + destruct Hatt as [[Hnone Heq]|(Ha & Hb & Hc0 & Hd)].
      * left. split; [|by rewrite Hw].
        intros r c (Hr & Hc & Hv). rewrite (Hnone r c) in Hv; [done|]. by apply Hcells.
      * right. split_and!.
        -- destruct Ha as (c1 & H1 & H2). exists c1. apply Hcells in H1. by destruct H1.
        -- destruct Hb as (c1 & H1 & H2). exists c1. apply Hcells in H1. by destruct H1.
        -- destruct Hc0 as (r1 & H1 & H2). exists r1. apply Hcells in H1. by destruct H1.
        -- destruct Hd as (r1 & H1 & H2). exists r1. apply Hcells in H1. by destruct H1.
Qed.

Lemma get_piece_bounds_tight_witness :
  ∃ min_r max_r min_c max_c,
    get_piece_bounds [[0; 0; 0]; [0; 1; 1]; [0; 1; 0]] = Ret (min_r, max_r, min_c, max_c)
    ∧ (∀ r c, filled_at [[0; 0; 0]; [0; 1; 1]; [0; 1; 0]] r c →
         min_r ≤ r ≤ max_r ∧ min_c ≤ c ≤ max_c)
    ∧ (((∀ r c, ¬ filled_at [[0; 0; 0]; [0; 1; 1]; [0; 1; 0]] r c)
        ∧ (min_r, max_r, min_c, max_c)
          = (Z.of_nat (length [[0; 0; 0]; [0; 1; 1]; [0; 1; 0]]), 0,
             Z.of_nat (length (default [] (head [[0; 0; 0]; [0; 1; 1]; [0; 1; 0]]))), 0))
       ∨ ((∃ c, filled_at [[0; 0; 0]; [0; 1; 1]; [0; 1; 0]] min_r c)
          ∧ (∃ c, filled_at [[0; 0; 0]; [0; 1; 1]; [0; 1; 0]] max_r c)
          ∧ (∃ r, filled_at [[0; 0; 0]; [0; 1; 1]; [0; 1; 0]] r min_c)
          ∧ (∃ r, filled_at [[0; 0; 0]; [0; 1; 1]; [0; 1; 0]] r max_c))).
Proof.
  apply (get_piece_bounds_tight [[0; 0; 0]; [0; 1; 1]; [0; 1; 0]]).
  - repeat constructor.
  - discriminate.
Defined.

End bounds.

(** ** The payload of a state file *)

Section payload.

Lemma payload_table :
  forallb (λ n, payload_char (Base64.urlsafe_encode_translation (Base64.b2a n)))
    (range 64) = true.
Proof. by vm_compute. Qed.

Lemma b64encode_payload_chars (k : nat) : ∀ bs,
  length bs = (3 * k)%nat → Forall byte bs →
  Forall (λ ch, payload_char ch = true) (Base64.urlsafe_b64encode bs).
Proof.
  pose proof payload_table as Ht. rewrite forallb_forall in Ht.
  assert (∀ n, 0 ≤ n < 64 →
            payload_char (Base64.urlsafe_encode_translation (Base64.b2a n)) = true) as Hch.
  { intros n Hn. apply Ht, list_elem_of_In, elem_of_range. lia. }
  induction k as [|k IH]; intros bs Hlen Hbytes.
  - destruct bs; [constructor|done].
  - destruct bs as [|a [|b [|c bs]]]; simpl in Hlen; try lia.
    apply Forall_cons in Hbytes as [Ha Hbytes].
    apply Forall_cons in Hbytes as [Hb Hbytes].
    apply Forall_cons in Hbytes as [Hc Hbytes].
    destruct (sextets_of_bytes a b c Ha Hb Hc) as ((R1 & R2 & R3 & R4) & _).
    unfold Base64.urlsafe_b64encode in *. cbn [Base64.b64encode fmap list_fmap].
    apply Forall_cons; split; [by apply Hch|].
    apply Forall_cons; split; [by apply Hch|].
    apply Forall_cons; split; [by apply Hch|].
    apply Forall_cons; split; [by apply Hch|].
    apply IH; [lia|done].
Qed.

(** X28. For a board of 20 rows of 10 cells with values 0..8, a piece
    name of the game, a rotation in 0..3 and coordinates in -4..27, the
    payload that [encode_game_state] makes has 136 characters, each a
    letter, a digit, [-] or [_]: no padding, no dot and no slash reach
    the file name. *)
Theorem encode_game_state_payload board name rotation x y :
  codec_input board name rotation x y →
  length (encode_game_state board name rotation x y) = 136%nat
  ∧ Forall (λ ch, payload_char ch = true) (encode_game_state board name rotation x y).
Proof.
  intros Hin. unfold encode_game_state.
  destruct (encode_bits_bits board name rotation x y Hin) as [Hbits Hlen].
  destruct (unpack_pack_bits _ Hbits) as (Hpl & Hpb & _).
  cbv zeta in Hpl. rewrite Hlen in Hpl. change (Nat.div (815 + 7) 8) with (3 * 34)%nat in Hpl.
  destruct (urlsafe_b64_roundtrip 34 _ Hpl Hpb) as [Hl _]. cbv zeta in Hl.
  split; [exact Hl|].
  rewrite rstrip_pad_id.
  - by apply (b64encode_payload_chars 34).
  - pose proof (b64encode_chars 34 _ Hpl Hpb) as Hc.
    eapply Forall_impl; [exact Hc|]. by intros ch [? _].
Qed.

Lemma encode_game_state_payload_witness :
  length (encode_game_state new_board "T" 2 4 (-1)) = 136%nat
  ∧ Forall (λ ch, payload_char ch = true) (encode_game_state new_board "T" 2 4 (-1)).
Proof.
  apply (encode_game_state_payload new_board "T" 2 4 (-1)).
  split_and!; [apply board_ok_new|compute_done|lia|lia|lia|lia|lia|lia].
Defined.

End payload.

(** ** The preview and the hold slot *)

Section preview.
Variable shuffle : nat → list string → list string.
Hypothesis shuffle_perm : shuffles shuffle.

Lemma py_get_head {A} (l : list A) (a : A) : py_get l 0 = Ret a → head l = Some a.
Proof. destruct l as [|b l]; [done|]. cbn. by intros [= ->]. Qed.

Lemma spawn_new_piece_preview board g :
  board_dims board → game_ok g →
  ∃ g' alive,
    spawn_new_piece shuffle board g = Ret (g', alive)
    ∧ game_ok g' ∧ preview_ok g' ∧ can_hold g' = true
    ∧ head (refill_if_empty shuffle (piece_bag g, refills g)).1
      = Some (current_piece_name g')
    ∧ dict_item TETROMINOES (current_piece_name g') = Ret (shape g')
    ∧ current_rotation g' = 0
    ∧ held_piece_name g' = held_piece_name g ∧ held_shape g' = held_shape g.
Proof.
  intros Hd (Hne & Hnames & Hcur & Hheld).
  destruct (draw_piece shuffle shuffle_perm (piece_bag g) (refills g) Hne Hnames)
    as (n & rest & Hb & Hr1 & Hpop & Hn & Hne2 & Hnames2 & Hinv & nn & Hnext & Hnn).
  destruct (piece_tables n Hn) as (s & color & row0 & Hs & Hc & H0 & Hrect & Hw & Hx).
  destruct (piece_tables nn Hnn) as (s' & color' & row0' & Hs' & _).
  unfold spawn_new_piece. rewrite Hr1, Hpop. cbn [mbind result_bind].
  rewrite Hs. cbn [mbind result_bind]. rewrite Hnext. cbn [mbind result_bind].
  rewrite Hs'. cbn [mbind result_bind]. rewrite Hc. cbn [mbind result_bind].
  rewrite H0. cbn [mbind result_bind]. rewrite collide_overlaps by done.
  cbn [mbind result_bind]. eexists _, _. split; [reflexivity|].
  refine (conj _ (conj (conj _ _) (conj _ (conj _ (conj _ (conj _ (conj _ _)))))));
    cbn [piece_bag next_piece_name next_shape can_hold current_piece_name shape
         current_rotation held_piece_name held_shape]; try done.
  - by apply py_get_head.
  - by rewrite Hb.
Qed.

Lemma main_hold_result g :
  game_ok g → can_hold g = true →
  ∃ g' held,
    main_hold shuffle g = Ret g'
    ∧ game_ok g' ∧ can_hold g' = false
    ∧ held_piece_name g' = Some (current_piece_name g)
    ∧ held_shape g' = Some held
    ∧ dict_item TETROMINOES (current_piece_name g) = Ret held
    ∧ current_rotation g' = 0
    ∧ dict_item TETROMINOES (current_piece_name g') = Ret (shape g')
    ∧ match held_shape g with
      | Some _ =>
          held_piece_name g = Some (current_piece_name g')
          ∧ piece_bag g' = piece_bag g ∧ refills g' = refills g
          ∧ next_piece_name g' = next_piece_name g
      | None => head (piece_bag g) = Some (current_piece_name g') ∧ preview_ok g'
      end.
Proof.
  intros (Hne & Hnames & Hcur & Hheld) Hcan. unfold main_hold. rewrite Hcan.
  destruct (piece_tables _ Hcur) as (sc & colc & row0c & Hsc & _).
  destruct (held_shape g) as [hs|] eqn:Hhs.
  - destruct (held_piece_name g) as [h|] eqn:Hh; [|done].
    destruct (piece_tables h Hheld) as (s & color & row0 & Hs & Hc & H0 & Hrect & Hw & Hx).
    rewrite Hs. cbn [mbind result_bind]. rewrite Hsc. cbn [mbind result_bind].
    cbn [current_piece_name shape]. rewrite Hc. cbn [mbind result_bind].
    rewrite H0. cbn [mbind result_bind]. eexists _, sc. split; [reflexivity|].
    repeat split;
      cbn [piece_bag refills next_piece_name next_shape can_hold current_piece_name shape
           current_rotation held_piece_name held_shape]; done.
  - destruct (draw_piece shuffle shuffle_perm (piece_bag g) (refills g) Hne Hnames)
      as (n & rest & Hb & Hr1 & Hpop & Hn & Hne2 & Hnames2 & Hinv & nn & Hnext & Hnn).
    destruct (piece_tables n Hn) as (s & color & row0 & Hs & Hc & H0 & Hrect & Hw & Hx).
    destruct (piece_tables nn Hnn) as (s' & color' & row0' & Hs' & _).
    rewrite Hsc. cbn [mbind result_bind]. rewrite Hr1, Hpop. cbn [mbind result_bind].
    rewrite Hs. cbn [mbind result_bind]. rewrite Hnext. cbn [mbind result_bind].
    rewrite Hs'. cbn [mbind result_bind]. cbn [current_piece_name shape].
    rewrite Hc. cbn [mbind result_bind]. rewrite H0. cbn [mbind result_bind].
    eexists _, sc. split; [reflexivity|].
    repeat split;
      cbn [piece_bag refills next_piece_name next_shape can_hold current_piece_name shape
           current_rotation held_piece_name held_shape]; try done.
    + by rewrite Hb.
    + by apply py_get_head.
Qed.

End preview.

(** X29. The preview is honest. After [spawn_new_piece], with a random
    source that shuffles, the piece shown as next is the piece at the
    front of the bag, with its unrotated shape, and it is the piece that
    the following [spawn_new_piece] puts into play, on any board. *)
Theorem next_piece_is_spawned (shuffle : nat → list string → list string)
    (board board' : matrix) (g : game) :
  shuffles shuffle → board_dims board → board_dims board' → game_ok g →
  ∃ g1 alive1 g2 alive2,
    spawn_new_piece shuffle board g = Ret (g1, alive1)
    ∧ preview_ok g1
    ∧ spawn_new_piece shuffle board' g1 = Ret (g2, alive2)
    ∧ current_piece_name g2 = next_piece_name g1
    ∧ shape g2 = next_shape g1
    ∧ current_rotation g2 = 0.
Proof.
  intros Hsh Hd Hd' Hok.
  destruct (spawn_new_piece_preview shuffle Hsh board g Hd Hok)
    as (g1 & alive1 & Hs1 & Hok1 & [Hhead1 Hshape1] & _).
  destruct (spawn_new_piece_preview shuffle Hsh board' g1 Hd' Hok1)
    as (g2 & alive2 & Hs2 & Hok2 & _ & _ & Hhead2 & Hshape2 & Hrot2 & _).
  exists g1, alive1, g2, alive2. split_and!; [done..| | |done].
  - unfold refill_if_empty in Hhead2. cbn [fst snd] in Hhead2.
    destruct (piece_bag g1) as [|n l]; [done|]. cbn in Hhead1, Hhead2. congruence.
  - assert (current_piece_name g2 = next_piece_name g1) as Hn.
    { unfold refill_if_empty in Hhead2. cbn [fst snd] in Hhead2.
      destruct (piece_bag g1) as [|n l]; [done|]. cbn in Hhead1, Hhead2. congruence. }
    rewrite Hn in Hshape2. congruence.
Qed.

Lemma next_piece_is_spawned_witness :
  ∃ g1 alive1 g2 alive2,
    spawn_new_piece (λ _ l, l) new_board example_game = Ret (g1, alive1)
    ∧ preview_ok g1
    ∧ spawn_new_piece (λ _ l, l) board_with_full_row g1 = Ret (g2, alive2)
    ∧ current_piece_name g2 = next_piece_name g1
    ∧ shape g2 = next_shape g1
    ∧ current_rotation g2 = 0.
Proof.
  apply (next_piece_is_spawned (λ _ l, l) new_board board_with_full_row example_game).
  - intros k l. reflexivity.
  - split; [reflexivity|]. repeat constructor.
  - split; [reflexivity|]. repeat constructor.
  - split_and!; [discriminate|repeat constructor; compute_done|compute_done|exact I].
Defined.

(** X30. The hold key, when holding is allowed: the piece in play goes
    to the hold slot with its unrotated shape, and holding is switched
    off, so that a second press changes nothing. With a piece in the slot
    the two pieces are swapped and the bag and the preview are left
    alone; with an empty slot the piece at the front of the bag comes
    into play and the preview moves on. The piece that comes into play is
    unrotated. *)
Theorem hold_swaps_once (shuffle : nat → list string → list string) (g : game) :
  shuffles shuffle → game_ok g → can_hold g = true →
  ∃ g' held,
    main_hold shuffle g = Ret g'
    ∧ can_hold g' = false
    ∧ main_hold shuffle g' = Ret g'
    ∧ held_piece_name g' = Some (current_piece_name g)
    ∧ held_shape g' = Some held
    ∧ dict_item TETROMINOES (current_piece_name g) = Ret held
    ∧ current_rotation g' = 0
    ∧ dict_item TETROMINOES (current_piece_name g') = Ret (shape g')
    ∧ match held_shape g with
      | Some _ =>
          held_piece_name g = Some (current_piece_name g')
          ∧ piece_bag g' = piece_bag g ∧ refills g' = refills g
          ∧ next_piece_name g' = next_piece_name g
      | None => head (piece_bag g) = Some (current_piece_name g') ∧ preview_ok g'
      end.
Proof.
  intros Hsh Hok Hcan.
  destruct (main_hold_result shuffle Hsh g Hok Hcan)
    as (g' & held & Hh & Hok' & Hcan' & Hrest).
  exists g', held. split; [done|]. split; [done|]. split; [|done].
  unfold main_hold. by rewrite Hcan'.
Qed.

Lemma hold_swaps_once_witness :
  ∃ g' held,
    main_hold (λ _ l, l) example_game = Ret g'
    ∧ can_hold g' = false
    ∧ main_hold (λ _ l, l) g' = Ret g'
    ∧ held_piece_name g' = Some "O"%string
    ∧ held_shape g' = Some held
    ∧ dict_item TETROMINOES "O" = Ret held
    ∧ current_rotation g' = 0
    ∧ dict_item TETROMINOES (current_piece_name g') = Ret (shape g')
    ∧ head ["T"; "S"]%string = Some (current_piece_name g') ∧ preview_ok g'.
Proof.
  apply (hold_swaps_once (λ _ l, l) example_game).
  - intros k l. reflexivity.
  - split_and!; [discriminate|repeat constructor; compute_done|compute_done|exact I].
  - reflexivity.
Defined.
